(** * slatedb-go: flush tasks, sorted runs and the table store

    A shallow embedding of [slatedb/flush.go], [slatedb/sortedrun.go],
    the [compaction] package's sorted run and the [TableStore] of
    [slatedb/table], followed by the properties proved about them.

    Conventions.
    - A Go [string] and the contents of a Go [[]byte] are sequences of
      8-bit bytes: [string] of the standard library.  Where the code can
      observe the difference between a nil slice and an empty one (the
      value handed to the SST builder) a slice is an [option bytes].
    - Slice indices and lengths are [nat]: they are non-negative and
      bounded by the length of a slice that exists.
    - A call that can panic returns an [outcome]; a call that returns a
      Go [error] returns a [result].
    - Mutable receivers become explicit state passing. *)

From Stdlib Require Import ZArith Lia Ascii String List Bool DecimalString.
From stdpp Require Import base option list sorting gmap strings.
From Equations Require Import Equations.

Import ListNotations.
Local Open Scope string_scope.
Local Open Scope list_scope.
Local Open Scope nat_scope.

(** ** Go values shared by every package *)

Definition bytes := string.

(** [outcome] separates a normal return from a panic. *)
Inductive outcome (A : Type) : Type :=
| Ret (a : A)
| Panic (msg : string).
Arguments Ret {A} a.
Arguments Panic {A} msg.

Definition obind {A B} (m : outcome A) (k : A -> outcome B) : outcome B :=
  match m with
  | Ret a => k a
  | Panic msg => Panic msg
  end.

Notation "'let!' x ':=' m 'in' k" := (obind m (fun x => k))
  (at level 10, x name, m at level 100, k at level 200).

(** The sentinel errors of [common] / [internal], and wrapping as done by
    [fmt.Errorf("...%w", err)]. *)
Inductive error : Type :=
| ErrKeyNotFound
| ErrObjectStore
| ErrInvalidDBState
| ErrAlreadyExists
| ErrFenced
| ErrCancelled
| ErrChecksum
| ErrOther (msg : string)
| ErrWrap (msg : string) (inner : error).

Definition sentinel_eqb (a b : error) : bool :=
  match a, b with
  | ErrKeyNotFound, ErrKeyNotFound
  | ErrObjectStore, ErrObjectStore
  | ErrInvalidDBState, ErrInvalidDBState
  | ErrAlreadyExists, ErrAlreadyExists
  | ErrFenced, ErrFenced
  | ErrCancelled, ErrCancelled
  | ErrChecksum, ErrChecksum => true
  | _, _ => false
  end.

(** [errors.Is(err, target)] for a sentinel [target]: walks the chain of
    wrapped errors. *)
Fixpoint errors_Is (err target : error) : bool :=
  sentinel_eqb err target ||
  match err with
  | ErrWrap _ inner => errors_Is inner target
  | _ => false
  end.

Inductive result (A : Type) : Type :=
| Ok (a : A)
| Err (e : error).
Arguments Ok {A} a.
Arguments Err {A} e.

(** ** Go standard library *)

Module bytes_pkg.

(** [bytes.Compare(a, b)]: -1, 0 or +1, lexicographic on unsigned bytes. *)
Definition Compare (a b : bytes) : Z :=
  match String.compare a b with
  | Lt => (-1)%Z
  | Eq => 0%Z
  | Gt => 1%Z
  end.

End bytes_pkg.

Module sort_pkg.

(** [sort.Search(n, f)]:
<<
    i, j := 0, n
    for i < j {
        h := int(uint(i+j) >> 1)
        if !f(h) { i = h + 1 } else { j = h }
    }
    return i
>>
    The predicate may panic, which ends the search. *)
Equations? Search_loop (f : nat -> outcome bool) (i j : nat) : outcome nat
  by wf (j - i) lt :=
  Search_loop f i j with lt_dec i j => {
    | right _ := Ret i
    | left _ with f ((i + j) / 2) => {
        | Panic msg := Panic msg
        | Ret false := Search_loop f ((i + j) / 2 + 1) j
        | Ret true := Search_loop f i ((i + j) / 2) } }.
Proof.
  all: change (Nat.divmod (i + j) 1 0 1).1 with ((i + j) / 2);
    assert ((i + j) / 2 < j) by (apply Nat.Div0.div_lt_upper_bound; lia);
    assert (i <= (i + j) / 2) by (apply Nat.div_le_lower_bound; lia);
    lia.
Qed.

Definition Search (n : nat) (f : nat -> outcome bool) : outcome nat :=
  Search_loop f 0 n.

End sort_pkg.

(** ** [internal/sstable]: identifiers, info and handles *)

Module sstable.

(** Modelled from the spec: the type of the tag of [sstable.ID] ("SST ID:
    tagged union {WAL(u64), Compacted(ULID)}").  The code compares [id.Type]
    with [sstable.WAL] and [sstable.Compacted] and has a branch for neither,
    hence [OtherType]. *)
Inductive IDType : Type := WAL | Compacted | OtherType.

(** Modelled from the spec: [sstable.ID], with the fields the code reads,
    [id.Type] and [id.Value]. *)
Record ID : Type := mkID { Type_ : IDType; Value : string }.

(** Modelled from the spec: [sstable.Info] ("first key, optional bloom
    filter reference, block index reference, sizes"); the code reads
    [Info.FirstKey], which is empty when the table has no first key. *)
Record Info : Type := mkInfo {
  FirstKey : bytes;
  IndexOffset : N;
  IndexLen : N;
  FilterOffset : N;
  FilterLen : N
}.

(** Modelled from the spec: [sstable.Handle] ("SST ID + Info"), built by
    [sstable.NewHandle(id, info)]. *)
Record Handle : Type := NewHandle { Id : ID; Info_ : Info }.

#[global] Instance IDType_eq_dec : EqDecision IDType.
Proof. solve_decision. Defined.

#[global] Instance ID_eq_dec : EqDecision ID.
Proof. solve_decision. Defined.

End sstable.

Import sstable.

(** ** Sorted runs *)

(** [assert.True(cond, msg)] / [common.AssertTrue(cond, msg)]: panics with
    the message when the condition is false. *)
Definition assert_True (cond : bool) (msg : string) : outcome unit :=
  if cond then Ret tt else Panic msg.

Module slatedb_sortedrun.

(** [slatedb/sortedrun.go]: the run of package [slatedb]. *)
Record SortedRun : Type := mkSortedRun { id : N; sstList : list Handle }.

(** The [for i, sst := range s.sstList] loop of [indexOfSSTWithKey]; the
    result is the value of [index] when the loop is left.  [n] is
    [len(s.sstList)], [i] the index of the head of [rest]. *)
Fixpoint indexOfSSTWithKey_loop (n : nat) (key : bytes) (i : nat)
    (rest : list Handle) : nat :=
  match rest with
  | [] => 0
  | sst :: rest' =>
      let firstKey := FirstKey (Info_ sst) in
      if (bytes_pkg.Compare firstKey key >? 0)%Z then i
      else if i =? n - 1 then i + 1
      else indexOfSSTWithKey_loop n key (S i) rest'
  end.

Definition indexOfSSTWithKey (s : SortedRun) (key : bytes) : option nat :=
  let index := indexOfSSTWithKey_loop (length (sstList s)) key 0 (sstList s) in
  if 0 <? index then Some (index - 1) else None.

Definition sstWithKey (s : SortedRun) (key : bytes) : option Handle :=
  match indexOfSSTWithKey s key with
  | Some index => sstList s !! index
  | None => None
  end.

End slatedb_sortedrun.

Module compaction.

(** The run of package [compaction]. *)
Record SortedRun : Type := mkSortedRun { ID_ : N; SSTList : list Handle }.

(** The closure handed to [sort.Search]. *)
Definition firstKeyAfter (s : SortedRun) (key : bytes) (i : nat) : outcome bool :=
  match SSTList s !! i with
  | None => Panic "index out of range"
  | Some h =>
      let! _ := assert_True (negb (String.length (FirstKey (Info_ h)) =? 0))
                            "sst must have first key" in
      Ret (bytes_pkg.Compare (FirstKey (Info_ h)) key >? 0)%Z
  end.

Definition indexOfSSTWithKey (s : SortedRun) (key : bytes) : outcome (option nat) :=
  let! index := sort_pkg.Search (length (SSTList s)) (firstKeyAfter s key) in
  Ret (if 0 <? index then Some (index - 1) else None).

Definition SstWithKey (s : SortedRun) (key : bytes) : outcome (option Handle) :=
  let! r := indexOfSSTWithKey s key in
  match r with
  | Some index => Ret (SSTList s !! index)
  | None => Ret None
  end.

End compaction.

(** *** What the sorted-run claims speak about *)

(** First keys strictly ascending, checked on neighbours. *)
Fixpoint first_keys_ascending (l : list Handle) : bool :=
  match l with
  | [] => true
  | a :: rest =>
      match rest with
      | [] => true
      | b :: _ => (bytes_pkg.Compare (FirstKey (Info_ a)) (FirstKey (Info_ b)) <? 0)%Z
                  && first_keys_ascending rest
      end
  end.

Definition first_keys_nonempty (l : list Handle) : bool :=
  forallb (fun h => negb (String.length (FirstKey (Info_ h)) =? 0)) l.

(** [key_lt a b]: [a] is lexicographically smaller than [b]. *)
Definition key_lt (a b : bytes) : Prop := bytes_pkg.Compare a b = (-1)%Z.
Definition key_le (a b : bytes) : Prop := bytes_pkg.Compare a b <> 1%Z.

(** [last_at_or_below l k i]: SST [i] is the last one of [l] whose first key
    is at or below [k]. *)
Definition last_at_or_below (l : list Handle) (k : bytes) (i : nat) : Prop :=
  (exists h, l !! i = Some h /\ key_le (FirstKey (Info_ h)) k) /\
  (forall j h, i < j -> l !! j = Some h -> key_lt k (FirstKey (Info_ h))).

(** [at_or_below l k i]: SST [i] of [l] has its first key at or below [k]. *)
Definition at_or_below (l : list Handle) (k : bytes) (i : nat) : Prop :=
  exists h, l !! i = Some h /\ key_le (FirstKey (Info_ h)) k.

(** [below_first l k]: [l] is empty or [k] is smaller than its first
    first key. *)
Definition below_first (l : list Handle) (k : bytes) : Prop :=
  match l with
  | [] => True
  | h :: _ => key_lt k (FirstKey (Info_ h))
  end.

(** [first_above k l]: the index of the first SST of [l] whose first key is
    above [k], or [length l] when there is none. *)
Fixpoint first_above (k : bytes) (l : list Handle) : nat :=
  match l with
  | [] => 0
  | h :: rest =>
      if (bytes_pkg.Compare (FirstKey (Info_ h)) k >? 0)%Z then 0
      else S (first_above k rest)
  end.

(** The result both implementations compute from that index. *)
Definition index_before (index : nat) : option nat :=
  if 0 <? index then Some (index - 1) else None.

(** Sample handles. *)
Definition sample_info (fk : bytes) : Info := mkInfo fk 0 0 0 0.
Definition sample_handle (name fk : string) : Handle :=
  NewHandle (mkID Compacted name) (sample_info fk).
Definition sample_run : list Handle :=
  [sample_handle "01A" "b"; sample_handle "01B" "d"; sample_handle "01C" "f"].
Definition keyless_head_run : list Handle :=
  [sample_handle "01A" ""; sample_handle "01B" "m"].

(** ** More of the Go standard library: [strings], [path], [strconv], [slices] *)

Module strings_pkg.

(** [strings.HasPrefix(s, prefix)]. *)
Definition HasPrefix (s pre : string) : bool := String.prefix pre s.

(** [strings.Contains(s, substr)]: [substr] occurs somewhere in [s]. *)
Fixpoint Contains (s substr : string) : bool :=
  HasPrefix s substr ||
  match s with
  | EmptyString => false
  | String _ rest => Contains rest substr
  end.

Fixpoint drop (n : nat) (s : string) : string :=
  match n, s with
  | S n', String _ rest => drop n' rest
  | _, _ => s
  end.

(** [strings.Replace(s, old, new, 1)]: the first occurrence of [old] is
    replaced by [new]; [s] is returned unchanged when there is none. *)
Fixpoint Replace1 (s old new : string) : string :=
  if HasPrefix s old then String.append new (drop (String.length old) s)
  else match s with
       | EmptyString => EmptyString
       | String c rest => String c (Replace1 rest old new)
       end.

End strings_pkg.

Module path_pkg.

Definition slash : ascii := "/"%char.
Definition dot : ascii := "."%char.

(** The loop of [path.Ext]:
<<
      for i := len(path) - 1; i >= 0 && path[i] != '/'; i-- {
          if path[i] == '.' { return path[i:] }
      }
      return ""
>>
    [before] is [path[:i+1]] reversed, [after] is [path[i+1:]]. *)
Fixpoint Ext_loop (before : list ascii) (after : string) : string :=
  match before with
  | [] => ""
  | c :: before' =>
      if Ascii.eqb c slash then ""
      else if Ascii.eqb c dot then String c after
      else Ext_loop before' (String c after)
  end.

Definition Ext (path : string) : string :=
  Ext_loop (rev (list_ascii_of_string path)) "".

(** [path.Base]: strip trailing slashes, keep what follows the last slash;
    ["."] for the empty path, ["/"] for a path of slashes only. *)
Fixpoint strip_leading_slashes (l : list ascii) : list ascii :=
  match l with
  | c :: l' => if Ascii.eqb c slash then strip_leading_slashes l' else l
  | [] => []
  end.

Fixpoint take_until_slash (l : list ascii) : list ascii :=
  match l with
  | c :: l' => if Ascii.eqb c slash then [] else c :: take_until_slash l'
  | [] => []
  end.

Definition Base (path : string) : string :=
  if String.eqb path "" then "."
  else
    let stripped := strip_leading_slashes (rev (list_ascii_of_string path)) in
    let last := rev (take_until_slash stripped) in
    match stripped with
    | [] => "/"
    | _ => string_of_list_ascii last
    end.

(** [path.Clean], on the slash-separated elements of the path. *)
Fixpoint split_slash (cur : list ascii) (l : list ascii) : list string :=
  match l with
  | [] => [string_of_list_ascii (rev cur)]
  | c :: l' =>
      if Ascii.eqb c slash then string_of_list_ascii (rev cur) :: split_slash [] l'
      else split_slash (c :: cur) l'
  end.

Definition clean_step (rooted : bool) (stack : list string) (el : string) : list string :=
  if String.eqb el "" || String.eqb el "." then stack
  else if String.eqb el ".." then
    match stack with
    | top :: stack' => if String.eqb top ".." then el :: stack else stack'
    | [] => if rooted then [] else [el]
    end
  else el :: stack.

Definition Clean (path : string) : string :=
  let rooted := strings_pkg.HasPrefix path "/" in
  let els := rev (fold_left (clean_step rooted) (split_slash [] (list_ascii_of_string path)) []) in
  let body := String.concat "/" els in
  let out := if rooted then String.append "/" body else body in
  if String.eqb out "" then "." else out.

(** [path.Join]: empty elements are dropped, the rest is joined with
    slashes and cleaned; no element left gives the empty string. *)
Definition Join (elems : list string) : string :=
  match List.filter (fun e => negb (String.eqb e "")) elems with
  | [] => ""
  | kept => Clean (String.concat "/" kept)
  end.

End path_pkg.

Module strconv_pkg.

Definition maxUint64 : N := (2 ^ 64 - 1)%N.
Definition cutoff : N := (maxUint64 / 10 + 1)%N.

Definition ErrSyntax : error := ErrOther "strconv: invalid syntax".
Definition ErrRange : error := ErrOther "strconv: value out of range".

Definition digit_of (c : ascii) : option N :=
  let n := N_of_ascii c in
  if (48 <=? n)%N && (n <=? 57)%N then Some (n - 48)%N else None.

(** The digit loop of [strconv.ParseUint(s, 10, 64)]; [n] is a 64-bit
    accumulator, its wrap-around on the final addition written out. *)
Fixpoint ParseUint_loop (n : N) (s : string) : result N :=
  match s with
  | EmptyString => Ok n
  | String c rest =>
      match digit_of c with
      | None => Err ErrSyntax
      | Some d =>
          if (cutoff <=? n)%N then Err ErrRange
          else
            let n10 := (n * 10)%N in
            let n1 := ((n10 + d) mod 2 ^ 64)%N in
            if (n1 <? n10)%N then Err ErrRange
            else ParseUint_loop n1 rest
      end
  end.

(** [strconv.ParseUint(s, 10, 64)]: digits only, no sign, no underscore. *)
Definition ParseUint (s : string) : result N :=
  if String.eqb s "" then Err ErrSyntax else ParseUint_loop 0 s.

End strconv_pkg.

Module slices_pkg.

(** [slices.Sort] on [[]uint64]: the ascending arrangement of the slice. *)
Definition Sort (l : list N) : list N := merge_sort N.le l.

End slices_pkg.

(** ** The object store *)

(** [objstore.Bucket], the two methods the table store calls.
    - [Upload b name data] returns the bucket after the call and the error,
      if any.
    - [Iter b dir] is a recursive listing: the names handed to the callback,
      in order, and the error with which the iteration ends, if any. *)
Class Bucket (B : Type) : Type := {
  Upload : B -> string -> bytes -> B * option error;
  Iter : B -> string -> list string * option error
}.

(** A bucket held in memory, with scripted faults: [upload_faults] gives the
    outcome of the coming uploads ([true]: the upload fails), [iter_fault]
    the error that ends every listing. *)
Record MemBucket : Type := mkMemBucket {
  objects : list (string * bytes);
  upload_faults : list bool;
  iter_fault : option error
}.

Definition MemBucket_put (name : string) (data : bytes)
    (objs : list (string * bytes)) : list (string * bytes) :=
  List.filter (fun o => negb (String.eqb (fst o) name)) objs ++ [(name, data)].

Definition MemBucket_get (name : string) (b : MemBucket) : option bytes :=
  snd <$> List.find (fun o => String.eqb (fst o) name) (objects b).

Definition MemBucket_Upload (b : MemBucket) (name : string) (data : bytes)
    : MemBucket * option error :=
  match upload_faults b with
  | true :: faults =>
      (mkMemBucket (objects b) faults (iter_fault b), Some (ErrOther "upload failed"))
  | false :: faults =>
      (mkMemBucket (MemBucket_put name data (objects b)) faults (iter_fault b), None)
  | [] =>
      (mkMemBucket (MemBucket_put name data (objects b)) [] (iter_fault b), None)
  end.

Definition MemBucket_Iter (b : MemBucket) (dir : string) : list string * option error :=
  (List.filter (fun name => strings_pkg.HasPrefix name (String.append dir "/"))
               (List.map fst (objects b)),
   iter_fault b).

#[global] Instance MemBucket_Bucket : Bucket MemBucket := {
  Upload := MemBucket_Upload;
  Iter := MemBucket_Iter
}.

(** ** [TableStore] *)

(** [bloom.Filter]: opaque to the table store. *)
Definition Filter : Type := bytes.

(** [sstable.Table], the result of [Builder.Build]. *)
Record Table : Type := mkTable {
  Table_Info : Info;
  Bloom : option Filter;
  Blocks : list bytes
}.

(** Modelled from the spec: the filter cache (an [otter] cache of capacity
    1000 in the code), "bounded (about 1000 entries) and evicted
    approximately LRU": the most recently set entry first, the oldest
    dropped beyond the capacity. *)
Definition FilterCache : Type := list (ID * option Filter).

Definition filterCache_capacity : nat := 1000.

Definition FilterCache_Set (k : ID) (v : option Filter) (c : FilterCache) : FilterCache :=
  take filterCache_capacity
       ((k, v) :: List.filter (fun e => negb (bool_decide (fst e = k))) c).

Definition FilterCache_Get (k : ID) (c : FilterCache) : option (option Filter) :=
  snd <$> List.find (fun e => bool_decide (fst e = k)) c.

Section TableStore.

Context {B : Type} `{Bucket B}.

Record TableStore : Type := mkTableStore {
  bucket : B;
  rootPath : string;
  walPath : string;
  compactedPath : string;
  filterCache : FilterCache
}.

Definition sstPath (ts : TableStore) (id : ID) : string :=
  match Type_ id with
  | WAL => path_pkg.Join [rootPath ts; walPath ts; String.append (Value id) ".sst"]
  | Compacted => path_pkg.Join [rootPath ts; compactedPath ts; String.append (Value id) ".sst"]
  | OtherType => ""
  end.

Definition cacheFilter (ts : TableStore) (sstID : ID) (filter : option Filter) : TableStore :=
  mkTableStore (bucket ts) (rootPath ts) (walPath ts) (compactedPath ts)
               (FilterCache_Set sstID filter (filterCache ts)).

Definition with_bucket (ts : TableStore) (b : B) : TableStore :=
  mkTableStore b (rootPath ts) (walPath ts) (compactedPath ts) (filterCache ts).

(** The loop [blocksData = append(blocksData, encodedSST.Blocks.At(i)...)]. *)
Definition concat_blocks (blocks : list bytes) : bytes :=
  fold_left String.append blocks "".

Definition WriteSST (ts : TableStore) (id : ID) (encodedSST : Table)
    : result Handle * TableStore :=
  let sstPath := sstPath ts id in
  let blocksData := concat_blocks (Blocks encodedSST) in
  match Upload (bucket ts) sstPath blocksData with
  | (b', Some _) => (Err ErrObjectStore, with_bucket ts b')
  | (b', None) =>
      (Ok (NewHandle id (Table_Info encodedSST)),
       cacheFilter (with_bucket ts b') id (Bloom encodedSST))
  end.

(** [parseID]: the assertion on the extension, then the base name without
    its first [expectedExt] read as a decimal [uint64]. *)
Definition parseID (filepath expectedExt : string) : outcome (result N) :=
  let! _ := assert_True (String.eqb (path_pkg.Ext filepath) expectedExt) "invalid wal file" in
  let base := path_pkg.Base filepath in
  let idStr := strings_pkg.Replace1 base expectedExt "" in
  match strconv_pkg.ParseUint idStr with
  | Err _ => Ret (Err ErrInvalidDBState)
  | Ok id => Ret (Ok id)
  end.

(** The callback [getWalSSTList] hands to [bucket.Iter]; it always returns
    nil, so only the list it appends to is threaded. *)
Definition getWalSSTList_visit (walIDLastCompacted : N) (walList : list N)
    (filepath : string) : outcome (list N) :=
  if strings_pkg.Contains filepath ".sst" then
    let! r := parseID filepath ".sst" in
    match r with
    | Ok walID =>
        if (walIDLastCompacted <? walID)%N then Ret (walList ++ [walID])
        else Ret walList
    | Err _ => Ret walList
    end
  else Ret walList.

Fixpoint Iter_each {A} (f : A -> string -> outcome A) (acc : A) (names : list string)
    : outcome A :=
  match names with
  | [] => Ret acc
  | name :: rest => let! acc' := f acc name in Iter_each f acc' rest
  end.

Definition getWalSSTList (ts : TableStore) (walIDLastCompacted : N)
    : outcome (result (list N)) :=
  let walPath := path_pkg.Join [rootPath ts; walPath ts] in
  let '(names, err) := Iter (bucket ts) walPath in
  let! walList := Iter_each (getWalSSTList_visit walIDLastCompacted) [] names in
  match err with
  | Some _ => Ret (Err ErrObjectStore)
  | None => Ret (Ok (slices_pkg.Sort walList))
  end.

End TableStore.

Arguments TableStore B : clear implicits.

Definition NewTableStore {B} (bucket : B) (rootPath : string) : TableStore B :=
  mkTableStore bucket rootPath "wal" "compacted" [].

(** *** What the listing claims speak about *)

(** The id a listed path stands for: its base name without the first
    [".sst"], when that is a decimal [uint64]. *)
Definition wal_id_of (filepath : string) : option N :=
  match strconv_pkg.ParseUint (strings_pkg.Replace1 (path_pkg.Base filepath) ".sst" "") with
  | Ok id => Some id
  | Err _ => None
  end.

(** The ids above the watermark among the listed paths that contain
    [".sst"], in listing order. *)
Definition wal_ids_above (above : N) (names : list string) : list N :=
  List.filter (fun id => (above <? id)%N)
    (omap wal_id_of (List.filter (fun p => strings_pkg.Contains p ".sst") names)).

(** Every listed path that contains [".sst"] has [".sst"] as extension. *)
Definition sst_names_have_ext (names : list string) : bool :=
  forallb (fun p => implb (strings_pkg.Contains p ".sst")
                          (String.eqb (path_pkg.Ext p) ".sst")) names.

Definition sample_bucket : MemBucket :=
  mkMemBucket [("db/wal/3.sst", "c"); ("db/wal/1.sst", "a"); ("db/wal/notes.sst", "");
               ("db/wal/02.sst", "b"); ("db/compacted/01A.sst", "z"); ("db/wal/README", "")]
              [] None.

Definition sample_listing : list string :=
  ["db/wal/3.sst"; "db/wal/1.sst"; "db/wal/notes.sst"; "db/wal/02.sst"; "db/wal/README"].


Definition sample_table : Table :=
  mkTable (sample_info "k1") (Some "bloom-bits") ["block0;"; "block1;"].

(** ** Rows *)

(** A [[]byte] whose nil-ness the code can observe: [None] is the nil slice,
    [Some ""] the empty non-nil slice. *)
Definition slice : Type := option bytes.

Definition slice_len (v : slice) : nat :=
  match v with
  | None => 0
  | Some b => String.length b
  end.

Module types.

(** Modelled from the spec: the kind of a [types.Value] ("either a byte
    sequence (possibly empty; empty is distinct from absent) or a
    tombstone"). *)
Inductive Kind : Type := KindKeyValue | KindTombStone.

(** Modelled from the spec: [types.Value]; the code reads [Value.Value] and
    calls [Value.IsTombstone()]. *)
Record Value : Type := mkValue { Value_ : slice; Kind_ : Kind }.

(** Modelled from the spec: [Value.IsTombstone]. *)
Definition IsTombstone (v : Value) : bool :=
  match Kind_ v with
  | KindTombStone => true
  | KindKeyValue => false
  end.

(** Modelled from the spec: [types.RowEntry] ("pair of Key and
    Value-or-Tombstone"). *)
Record RowEntry : Type := mkRowEntry { Key : bytes; RowValue : Value }.

(** Modelled from the spec: [types.KeyValue] ("pair of Key and byte
    sequence"). *)
Record KeyValue : Type := mkKeyValue { KV_Key : bytes; KV_Value : slice }.

Definition put_entry (k : bytes) (v : slice) : RowEntry :=
  mkRowEntry k (mkValue v KindKeyValue).

Definition tombstone_entry (k : bytes) : RowEntry :=
  mkRowEntry k (mkValue None KindTombStone).

End types.

(** [inspect x]: [x] together with the equation a match on it must keep. *)
Definition inspect {A : Type} (x : A) : {y : A | x = y} := exist _ x eq_refl.

(** ** Pulling from an iterator *)

(** What one call of a [Next]-like method of package [slatedb] gives: an
    item, the end, or an error. *)
Inductive pulled (A : Type) : Type :=
| Got (a : A)
| End_
| Failed (e : error).
Arguments Got {A} a.
Arguments End_ {A}.
Arguments Failed {A} e.

Definition pulled_item {A} (r : pulled A) : option A :=
  match r with
  | Got a => Some a
  | _ => None
  end.

Definition pulled_map {A C} (f : A -> C) (r : pulled A) : pulled C :=
  match r with
  | Got a => Got (f a)
  | End_ => End_
  | Failed e => Failed e
  end.

Section Pulling.

Context {St R A : Type}.

(** [step] is one call; [item r] is the item a result carries, if any. *)
Variable item : R -> option A.
Variable step : St -> R * St.

(** [drain fuel s]: the items obtained by calling [step] again and again
    until a result carries none, with that result and the state reached;
    [None] when [fuel] calls were not enough. *)
Fixpoint drain (fuel : nat) (s : St) : option (list A * R * St) :=
  match fuel with
  | 0 => None
  | S fuel' =>
      let '(r, s') := step s in
      match item r with
      | Some a =>
          match drain fuel' s' with
          | Some (l, stop, s'') => Some (a :: l, stop, s'')
          | None => None
          end
      | None => Some ([], r, s')
      end
  end.

(** [skipping]: the shape of a [Next] loop over [step] that passes over the
    items [skip] selects. *)
Context {R' : Type}.
Variable skip : A -> bool.
Variable keep : A -> R'.
Variable stop : R -> R'.

Fixpoint skipping (fuel : nat) (s : St) : option (R' * St) :=
  match fuel with
  | 0 => None
  | S fuel' =>
      let '(r, s') := step s in
      match item r with
      | Some a => if skip a then skipping fuel' s' else Some (keep a, s')
      | None => Some (stop r, s')
      end
  end.

End Pulling.

(** ** Sorted run iterators *)

Module compaction_iter.

Import types.

(** Modelled from the spec: [sstable.Iterator] ("yields entries in key
    order"; the block codec is out of scope).  The iterator holds the
    entries not yet yielded and the warnings it has collected; [NextEntry]
    reports [false] at the end. *)
Record Iterator : Type := mkIterator {
  pending : list RowEntry;
  warnings : list string
}.

Definition Iterator_NextEntry (it : Iterator) : option RowEntry * Iterator :=
  match pending it with
  | [] => (None, it)
  | e :: rest => (Some e, mkIterator rest (warnings it))
  end.

(** [SSTListIterator]. *)
Record SSTListIterator : Type := mkSSTListIterator {
  sstList : list Handle;
  current : nat
}.

Definition newSSTListIterator (sstList : list Handle) : SSTListIterator :=
  mkSSTListIterator sstList 0.

Definition SSTListIterator_Next (iter : SSTListIterator)
    : option Handle * SSTListIterator :=
  if length (sstList iter) <=? current iter then (None, iter)
  else (sstList iter !! current iter,
        mkSSTListIterator (sstList iter) (current iter + 1)).

(** [SortedRunIterator]; the table store is the way SSTs are opened, a
    parameter of the functions below. *)
Record SortedRunIterator : Type := mkSortedRunIterator {
  currentKVIter : option Iterator;
  sstListIter : SSTListIterator;
  warn : list string
}.

Section WithStore.

(** [sstable.NewIterator(&sst, store)] and [sstable.NewIteratorAtKey]. *)
Variable NewIterator : Handle -> result Iterator.
Variable NewIteratorAtKey : Handle -> bytes -> result Iterator.

Definition newSortedRunIter (sstList : list Handle) (fromKey : option bytes)
    : result SortedRunIterator :=
  let sstListIter := newSSTListIterator sstList in
  match SSTListIterator_Next sstListIter with
  | (Some sst, sstListIter') =>
      match (match fromKey with
             | Some key => NewIteratorAtKey sst key
             | None => NewIterator sst
             end) with
      | Err e => Err e
      | Ok iter => Ok (mkSortedRunIterator (Some iter) sstListIter' [])
      end
  | (None, sstListIter') => Ok (mkSortedRunIterator None sstListIter' [])
  end.

Definition NewSortedRunIterator (sr : compaction.SortedRun) : result SortedRunIterator :=
  newSortedRunIter (compaction.SSTList sr) None.

Definition NewSortedRunIteratorFromKey (sr : compaction.SortedRun) (key : bytes)
    : outcome (result SortedRunIterator) :=
  let! found := compaction.indexOfSSTWithKey sr key in
  let sstList :=
    match found with
    | Some idx => drop idx (compaction.SSTList sr)
    | None => compaction.SSTList sr
    end in
  Ret (newSortedRunIter sstList (Some key)).

(** The text [err.Error()] puts in the warning. *)
Definition Error_text (e : error) : string :=
  match e with
  | ErrOther msg | ErrWrap msg _ => msg
  | _ => "error"
  end.

Definition with_current (iter : SortedRunIterator) (kvIter : Iterator) : SortedRunIterator :=
  mkSortedRunIterator (Some kvIter) (sstListIter iter) (warn iter).

(** [NextEntry]: yield from the current SST iterator; at its end move to
    the next SST of the list and try again. *)
Equations? NextEntry (it : SortedRunIterator) : option RowEntry * SortedRunIterator
    by wf (length (sstList (sstListIter it)) - current (sstListIter it)) lt :=
  NextEntry it with currentKVIter it => {
    | None := (None, it)
    | Some kvIter with Iterator_NextEntry kvIter => {
        | (Some kv, kvIter') := (Some kv, with_current it kvIter')
        | (None, kvIter') with inspect (SSTListIterator_Next (sstListIter it)) => {
            | exist _ (None, l') _ :=
                (None, mkSortedRunIterator (Some kvIter') l'
                         (warn it ++ warnings kvIter' ++ warnings kvIter'))
            | exist _ (Some sst, l') Hnext with NewIterator sst => {
                | Err e :=
                    (None, mkSortedRunIterator (Some kvIter') l'
                             (warn it ++ warnings kvIter'
                                ++ [String.append "while creating SSTable iterator: "
                                                  (Error_text e)]))
                | Ok newKVIter :=
                    NextEntry (mkSortedRunIterator (Some newKVIter) l'
                                 (warn it ++ warnings kvIter')) } } } }.
Proof.
  unfold SSTListIterator_Next in Hnext.
  destruct (Nat.leb_spec (length (sstList (sstListIter it)))
                         (current (sstListIter it))); [discriminate|].
  injection Hnext as _ <-. simpl. lia.
Qed.

(** [Next]: the loop skips tombstones; [None] when [fuel] rounds of the
    loop were not enough. *)
Fixpoint Next_fuel (fuel : nat) (iter : SortedRunIterator)
    : option (option KeyValue * SortedRunIterator) :=
  match fuel with
  | 0 => None
  | S fuel' =>
      match NextEntry iter with
      | (None, iter') => Some (None, iter')
      | (Some keyVal, iter') =>
          if IsTombstone (RowValue keyVal) then Next_fuel fuel' iter'
          else Some (Some (mkKeyValue (Key keyVal) (Value_ (RowValue keyVal))), iter')
      end
  end.

(** The calls of [NextEntry] that can still give an entry: the entries
    pending in the current SST iterator, and for each SST not yet opened
    one call more than it has entries. *)
Definition work_of_sst (sst : Handle) : nat :=
  match NewIterator sst with
  | Ok it => S (length (pending it))
  | Err _ => 1
  end.

Definition work (iter : SortedRunIterator) : nat :=
  match currentKVIter iter with
  | Some kvIter => length (pending kvIter)
  | None => 0
  end
  + list_sum (List.map work_of_sst
                (drop (current (sstListIter iter)) (sstList (sstListIter iter)))).

(** [Next] with the fuel that always suffices. *)
Definition Next (iter : SortedRunIterator) : option KeyValue * SortedRunIterator :=
  match Next_fuel (S (work iter)) iter with
  | Some r => r
  | None => (None, iter)
  end.

Definition to_KeyValue (e : RowEntry) : KeyValue :=
  mkKeyValue (Key e) (Value_ (RowValue e)).

Definition live (e : RowEntry) : bool := negb (IsTombstone (RowValue e)).

(** The entries [NextEntry] gives until it reports the end, and the pairs
    [Next] gives until it does. *)
Definition entries_of (iter : SortedRunIterator) :=
  drain id NextEntry (S (work iter)) iter.

Definition pairs_of (iter : SortedRunIterator) :=
  drain id Next (S (work iter)) iter.

End WithStore.

End compaction_iter.

Module slatedb_iter.

(** Modelled from the spec: [ValueDeletable] of package [slatedb] (a byte
    sequence or a tombstone); the code reads [valueDel.value] and
    [valueDel.isTombstone]. *)
Record ValueDeletable : Type := mkValueDeletable { value : slice; isTombstone : bool }.

(** Modelled from the spec: [KeyValueDeletable] ("pair of Key and
    Value-or-Tombstone"). *)
Record KeyValueDeletable : Type := mkKeyValueDeletable {
  key : bytes;
  valueDel : ValueDeletable
}.

(** Modelled from the spec: [KeyValue] ("pair of Key and byte sequence"). *)
Record KeyValue : Type := mkKeyValue { kv_key : bytes; kv_value : slice }.

(** Modelled from the spec: [SSTIterator] ("yields entries in key order";
    lazy, reading blocks from the object store).  The iterator holds what
    its coming [NextEntry] calls give: an entry or a read error each; after
    the last one it reports the end. *)
Record SSTIterator : Type := mkSSTIterator {
  pending : list (result KeyValueDeletable)
}.

Definition SSTIterator_NextEntry (it : SSTIterator)
    : pulled KeyValueDeletable * SSTIterator :=
  match pending it with
  | [] => (End_, it)
  | Ok e :: rest => (Got e, mkSSTIterator rest)
  | Err x :: rest => (Failed x, mkSSTIterator rest)
  end.

Record SSTListIterator : Type := mkSSTListIterator {
  sstList : list Handle;
  current : nat
}.

Definition newSSTListIterator (sstList : list Handle) : SSTListIterator :=
  mkSSTListIterator sstList 0.

Definition SSTListIterator_Next (iter : SSTListIterator)
    : option Handle * SSTListIterator :=
  if length (sstList iter) <=? current iter then (None, iter)
  else (sstList iter !! current iter,
        mkSSTListIterator (sstList iter) (current iter + 1)).

Record SortedRunIterator : Type := mkSortedRunIterator {
  currentKVIter : option SSTIterator;
  sstListIter : SSTListIterator;
  numBlocksToFetch : N;
  numBlocksToBuffer : N
}.

Section WithStore.

(** [newSSTIterator(&sst, tableStore, maxFetchTasks, numBlocksToFetch)] and
    [newSSTIteratorFromKey]. *)
Variable newSSTIterator : Handle -> N -> N -> SSTIterator.
Variable newSSTIteratorFromKey : Handle -> bytes -> N -> N -> SSTIterator.

Definition newSortedRunIter (sstList : list Handle) (maxFetchTasks numBlocksToFetch : N)
    (fromKey : option bytes) : SortedRunIterator :=
  let sstListIter := newSSTListIterator sstList in
  match SSTListIterator_Next sstListIter with
  | (Some sst, sstListIter') =>
      let iter := match fromKey with
                  | Some key => newSSTIteratorFromKey sst key maxFetchTasks numBlocksToFetch
                  | None => newSSTIterator sst maxFetchTasks numBlocksToFetch
                  end in
      mkSortedRunIterator (Some iter) sstListIter' maxFetchTasks numBlocksToFetch
  | (None, sstListIter') =>
      mkSortedRunIterator None sstListIter' maxFetchTasks numBlocksToFetch
  end.

Definition newSortedRunIterator (sortedRun : slatedb_sortedrun.SortedRun)
    (maxFetchTasks numBlocksToFetch : N) : SortedRunIterator :=
  newSortedRunIter (slatedb_sortedrun.sstList sortedRun) maxFetchTasks numBlocksToFetch None.

Definition newSortedRunIteratorFromKey (key : bytes) (sortedRun : slatedb_sortedrun.SortedRun)
    (maxFetchTasks numBlocksToFetch : N) : SortedRunIterator :=
  let sstList :=
    match slatedb_sortedrun.indexOfSSTWithKey sortedRun key with
    | Some idx => drop idx (slatedb_sortedrun.sstList sortedRun)
    | None => slatedb_sortedrun.sstList sortedRun
    end in
  newSortedRunIter sstList maxFetchTasks numBlocksToFetch (Some key).

Definition with_current (it : SortedRunIterator) (kvIter : SSTIterator) : SortedRunIterator :=
  mkSortedRunIterator (Some kvIter) (sstListIter it) (numBlocksToFetch it) (numBlocksToBuffer it).

Equations? NextEntry (it : SortedRunIterator)
    : pulled KeyValueDeletable * SortedRunIterator
    by wf (length (sstList (sstListIter it)) - current (sstListIter it)) lt :=
  NextEntry it with currentKVIter it => {
    | None := (End_, it)
    | Some kvIter with SSTIterator_NextEntry kvIter => {
        | (Failed err, kvIter') := (Failed err, with_current it kvIter')
        | (Got kv, kvIter') := (Got kv, with_current it kvIter')
        | (End_, kvIter') with inspect (SSTListIterator_Next (sstListIter it)) => {
            | exist _ (None, l') _ :=
                (End_, mkSortedRunIterator (Some kvIter') l'
                         (numBlocksToFetch it) (numBlocksToBuffer it))
            | exist _ (Some sst, l') Hnext :=
                NextEntry (mkSortedRunIterator
                             (Some (newSSTIterator sst (numBlocksToFetch it) (numBlocksToBuffer it)))
                             l' (numBlocksToFetch it) (numBlocksToBuffer it)) } } }.
Proof.
  unfold SSTListIterator_Next in Hnext.
  destruct (Nat.leb_spec (length (sstList (sstListIter it)))
                         (current (sstListIter it))); [discriminate|].
  injection Hnext as _ <-. simpl. lia.
Qed.

Fixpoint Next_fuel (fuel : nat) (iter : SortedRunIterator)
    : option (pulled KeyValue * SortedRunIterator) :=
  match fuel with
  | 0 => None
  | S fuel' =>
      match NextEntry iter with
      | (Failed err, iter') => Some (Failed err, iter')
      | (Got keyVal, iter') =>
          if isTombstone (valueDel keyVal) then Next_fuel fuel' iter'
          else Some (Got (mkKeyValue (key keyVal) (value (valueDel keyVal))), iter')
      | (End_, iter') => Some (End_, iter')
      end
  end.

Definition work_of_sst (fetch buffer : N) (sst : Handle) : nat :=
  S (length (pending (newSSTIterator sst fetch buffer))).

Definition work (iter : SortedRunIterator) : nat :=
  match currentKVIter iter with
  | Some kvIter => length (pending kvIter)
  | None => 0
  end
  + list_sum (List.map (work_of_sst (numBlocksToFetch iter) (numBlocksToBuffer iter))
                (drop (current (sstListIter iter)) (sstList (sstListIter iter)))).

(** [Next] with the fuel that always suffices. *)
Definition Next (iter : SortedRunIterator) : pulled KeyValue * SortedRunIterator :=
  match Next_fuel (S (work iter)) iter with
  | Some r => r
  | None => (End_, iter)
  end.

Definition to_KeyValue (e : KeyValueDeletable) : KeyValue :=
  mkKeyValue (key e) (value (valueDel e)).

Definition live (e : KeyValueDeletable) : bool := negb (isTombstone (valueDel e)).

(** The entries [NextEntry] gives until it reports the end or fails, and the
    pairs [Next] gives until it does. *)
Definition entries_of (iter : SortedRunIterator) :=
  drain pulled_item NextEntry (S (work iter)) iter.

Definition pairs_of (iter : SortedRunIterator) :=
  drain pulled_item Next (S (work iter)) iter.

End WithStore.

End slatedb_iter.

(** ** In-memory tables: [KVTable], WAL and memtable *)

Module table.

Import types.

(** Modelled from the spec: [KVTable] (section 4.1): an ordered mapping
    from key to value or tombstone, with a one-shot [durable] signal.
    [rows] is kept in strictly ascending key order. *)
Record KVTable : Type := mkKVTable { rows : list RowEntry; durable : bool }.

(** Modelled from the spec: [newKVTable] ("KVTables are created empty"). *)
Definition newKVTable : KVTable := mkKVTable [] false.

(** Modelled from the spec: the insertion behind [put] and [delete]
    ("inserts or overwrites"), keeping the key order. *)
Fixpoint rows_put (e : RowEntry) (l : list RowEntry) : list RowEntry :=
  match l with
  | [] => [e]
  | x :: l' =>
      match String.compare (Key e) (Key x) with
      | Lt => e :: l
      | Eq => e :: l'
      | Gt => x :: rows_put e l'
      end
  end.

Definition KVTable_putEntry (e : RowEntry) (t : KVTable) : KVTable :=
  mkKVTable (rows_put e (rows t)) (durable t).

(** Modelled from the spec: [put(key, value)], "inserts or overwrites". *)
Definition KVTable_put (key : bytes) (v : slice) (t : KVTable) : KVTable :=
  KVTable_putEntry (put_entry key v) t.

(** Modelled from the spec: [delete(key)], "inserts a tombstone". *)
Definition KVTable_delete (key : bytes) (t : KVTable) : KVTable :=
  KVTable_putEntry (tombstone_entry key) t.

(** Modelled from the spec: [get(key)], "exact match". *)
Definition KVTable_get (key : bytes) (t : KVTable) : option Value :=
  RowValue <$> List.find (fun e => String.eqb (Key e) key) (rows t).

(** Modelled from the spec: [isEmpty]. *)
Definition KVTable_isEmpty (t : KVTable) : bool :=
  match rows t with
  | [] => true
  | _ => false
  end.

(** Modelled from the spec: [size], "sum of key+value bytes, tombstones
    sized at key+0". *)
Definition KVTable_size (t : KVTable) : N :=
  N.of_nat (list_sum (List.map (fun e => String.length (Key e)
                                         + slice_len (Value_ (RowValue e))) (rows t))).

(** Modelled from the spec: [notify_wal_flushed()], "signals the durability
    one-shot". *)
Definition NotifyWALFlushed (t : KVTable) : KVTable := mkKVTable (rows t) true.

(** Modelled from the spec: [KVTableIterator] ("ordered sequence of (key,
    value-or-tombstone)"): what is left to yield, in key order. *)
Record KVTableIterator : Type := mkKVTableIterator { pending : list RowEntry }.

(** Modelled from the spec: [iter()]. *)
Definition KVTable_iter (t : KVTable) : KVTableIterator := mkKVTableIterator (rows t).

(** Modelled from the spec: [KVTableIterator.NextEntry]; reading a table
    held in memory does not fail. *)
Definition NextEntry (it : KVTableIterator) : result (option RowEntry) * KVTableIterator :=
  match pending it with
  | [] => (Ok None, it)
  | e :: rest => (Ok (Some e), mkKVTableIterator rest)
  end.

(** [WAL] and [ImmutableWAL] hold a pointer to their table;
    [NewImmutableWal] shares the table of the WAL it wraps, so a table is
    named by its address in the store of tables. *)
Record WAL : Type := mkWAL { wal_table : nat }.

Record ImmutableWAL : Type := mkImmutableWAL { iw_id : N; iw_table : nat }.

Definition NewImmutableWal (id : N) (wal : WAL) : ImmutableWAL :=
  mkImmutableWAL id (wal_table wal).

(** Modelled from the spec: the memtable (section 4.3), a [KVTable] with
    the id of the last WAL merged into it. *)
Record Memtable : Type := mkMemtable { mem_table : KVTable; lastWalID : option N }.

(** Modelled from the spec: a fresh memtable. *)
Definition NewMemtable : Memtable := mkMemtable newKVTable None.

(** Modelled from the spec: [Memtable.Put(entry)], the entry as it is. *)
Definition Memtable_Put (e : RowEntry) (m : Memtable) : Memtable :=
  mkMemtable (KVTable_putEntry e (mem_table m)) (lastWalID m).

(** Modelled from the spec: [Memtable.SetLastWalID]. *)
Definition SetLastWalID (id : N) (m : Memtable) : Memtable :=
  mkMemtable (mem_table m) (Some id).

(** Modelled from the spec: the immutable memtable (section 4.3), "frozen
    Memtable plus the same last_wal_id". *)
Record ImmutableMemtable : Type := mkImmutableMemtable {
  imm_table : KVTable;
  imm_lastWalID : N
}.

End table.

(** ** The SST builder *)

(** [sstable.Builder] as [flushImmTable] uses it: [AddValue] takes the key
    and the value bytes only; both calls can fail.  The block codec is out
    of scope, so the builder is a parameter. *)
Class SSTBuilder (Bld : Type) : Type := {
  TableBuilder : Bld;
  AddValue : Bld -> bytes -> slice -> result Bld;
  Build : Bld -> result Table
}.

(** A builder that keeps the rows it is given, one block per row; it refuses
    keys that are not above the last one. *)
Record RowBuilder : Type := mkRowBuilder { built_rows : list (bytes * slice) }.

Definition RowBuilder_AddValue (b : RowBuilder) (key : bytes) (v : slice)
    : result RowBuilder :=
  match last (built_rows b) with
  | Some (k, _) =>
      if String.ltb k key then Ok (mkRowBuilder (built_rows b ++ [(key, v)]))
      else Err ErrInvalidDBState
  | None => Ok (mkRowBuilder [(key, v)])
  end.

Definition RowBuilder_block (row : bytes * slice) : bytes :=
  String.append (fst row)
    (match snd row with
     | None => "!;"
     | Some v => String.append "=" (String.append v ";")
     end).

Definition RowBuilder_Build (b : RowBuilder) : result Table :=
  Ok (mkTable (mkInfo (match built_rows b with
                       | (k, _) :: _ => k
                       | [] => ""
                       end) 0 0 0 0)
              None
              (List.map RowBuilder_block (built_rows b))).

#[global] Instance RowBuilder_SSTBuilder : SSTBuilder RowBuilder := {
  TableBuilder := mkRowBuilder [];
  AddValue := RowBuilder_AddValue;
  Build := RowBuilder_Build
}.

(** ** The state of the database *)

Module state.

Import types table.

(** Modelled from the spec: the core state ("Core State (canonical,
    persisted in manifest)", section 3), with the field names of the code. *)
Record CoreStateSnapshot : Type := mkCore {
  NextWalSstID : N;
  LastCompactedWalSSTID : N;
  L0 : list Handle;
  L0LastCompacted : option ID;
  Compacted : list compaction.SortedRun
}.

(** Modelled from the spec: the state of the database (section 4.6).
    [tables] is the store of the WAL tables by address; [immWALs] has the
    oldest WAL first. *)
Record DBState : Type := mkDBState {
  tables : gmap nat KVTable;
  next_addr : nat;
  wal : WAL;
  immWALs : list ImmutableWAL;
  memtable : Memtable;
  immMemtables : list ImmutableMemtable;
  core : CoreStateSnapshot
}.

Definition table_at (st : DBState) (a : nat) : KVTable :=
  default newKVTable (tables st !! a).

Definition u64_succ (n : N) : N := ((n + 1) mod 2 ^ 64)%N.

Definition with_NextWalSstID (c : CoreStateSnapshot) (n : N) : CoreStateSnapshot :=
  mkCore n (LastCompactedWalSSTID c) (L0 c) (L0LastCompacted c) (Compacted c).

(** Modelled from the spec: [FreezeWAL] "assigns next_wal_sst_id, pushes
    current WAL to the tail of ImmWAL queue, installs a fresh WAL,
    increments next_wal_sst_id.  If the current WAL is empty, no-op." *)
Definition FreezeWAL (st : DBState) : DBState :=
  if KVTable_isEmpty (table_at st (wal_table (wal st))) then st
  else
    let id := NextWalSstID (core st) in
    mkDBState (<[next_addr st := newKVTable]> (tables st))
              (S (next_addr st))
              (mkWAL (next_addr st))
              (immWALs st ++ [NewImmutableWal id (wal st)])
              (memtable st)
              (immMemtables st)
              (with_NextWalSstID (core st) (u64_succ id)).

(** Modelled from the spec: [OldestImmWAL] and [PopImmWAL], "FIFO access". *)
Definition OldestImmWAL (st : DBState) : option ImmutableWAL := head (immWALs st).

(** Modelled from the spec: [PopImmWAL], which removes the oldest
    ImmutableWAL. *)
Definition PopImmWAL (st : DBState) : DBState :=
  mkDBState (tables st) (next_addr st) (wal st) (tail (immWALs st))
            (memtable st) (immMemtables st) (core st).

Definition with_memtable (st : DBState) (m : Memtable) : DBState :=
  mkDBState (tables st) (next_addr st) (wal st) (immWALs st)
            m (immMemtables st) (core st).

Definition with_table (st : DBState) (a : nat) (t : KVTable) : DBState :=
  mkDBState (<[a := t]> (tables st)) (next_addr st) (wal st) (immWALs st)
            (memtable st) (immMemtables st) (core st).

(** Modelled from the spec: [maybeFreezeMemtable] "if memtable size >=
    L0SSTSizeBytes, freezes memtable into the tail of ImmMemtable queue and
    installs a fresh one.  Records last_wal_id on the frozen entry." *)
Definition maybeFreezeMemtable (l0SSTSizeBytes : N) (st : DBState) (walID : N) : DBState :=
  if (KVTable_size (mem_table (memtable st)) <? l0SSTSizeBytes)%N then st
  else
    mkDBState (tables st) (next_addr st) (wal st) (immWALs st)
              NewMemtable
              (immMemtables st ++ [mkImmutableMemtable (mem_table (memtable st)) walID])
              (core st).

(** Modelled from the spec: [RefreshDBState] "the durable fields are
    replaced; next_wal_sst_id is taken as the max of local and remote;
    ImmWALs/ImmMemtables with id <= new last_compacted_wal_sst_id are
    dropped." *)
Definition RefreshDBState (st : DBState) (remote : CoreStateSnapshot) : DBState :=
  let watermark := LastCompactedWalSSTID remote in
  mkDBState (tables st) (next_addr st) (wal st)
            (List.filter (fun w => (watermark <? iw_id w)%N) (immWALs st))
            (memtable st)
            (List.filter (fun m => (watermark <? imm_lastWalID m)%N) (immMemtables st))
            (with_NextWalSstID remote (N.max (NextWalSstID (core st)) (NextWalSstID remote))).

(** A state with an empty WAL and an empty memtable. *)
Definition NewDBState (c : CoreStateSnapshot) : DBState :=
  mkDBState {[0 := newKVTable]} 1 (mkWAL 0) [] NewMemtable [] c.

(** A client write into the live WAL. *)
Definition WAL_Put (key : bytes) (v : slice) (st : DBState) : DBState :=
  with_table st (wal_table (wal st))
             (KVTable_put key v (table_at st (wal_table (wal st)))).

Definition WAL_Delete (key : bytes) (st : DBState) : DBState :=
  with_table st (wal_table (wal st))
             (KVTable_delete key (table_at st (wal_table (wal st)))).

End state.

(** ** [slatedb/flush.go] *)

(** [context.Context]: only passed along. *)
Inductive Context : Type :=
| Background
| WithTimeout (parent : Context) (d : N).

(** Modelled from the spec: [sstable.NewIDWal] ("<root>/wal/<decimal-u64-id>.sst"):
    the id of a WAL SST carries the decimal writing of the WAL id. *)
Definition NewIDWal (id : N) : ID :=
  mkID WAL (NilEmpty.string_of_uint (N.to_uint id)).

Module flush.

Import types table state.

Record DBOptions : Type := mkDBOptions {
  FlushInterval : N;
  ManifestPollInterval : N;
  L0SSTSizeBytes : N
}.

(** The steps of the WAL flush, for the history kept with the database. *)
Inductive Step : Type :=
| StepFreezeWAL
| StepWriteSST (id : N)
| StepWriteSSTFailed (id : N)
| StepPopImmWAL (id : N)
| StepFlushToMemtable (id : N)
| StepMaybeFreezeMemtable (id : N)
| StepNotifyWALFlushed (id : N).

(** A step, with the ids of the ImmutableWALs in the queue once it is done. *)
Record Event : Type := mkEvent { ev_step : Step; ev_queued : list N }.

Section WithStore.

Context {B : Type} `{Bucket B} {Bld : Type} `{SSTBuilder Bld}.

(** The database: its state, its table store, its options; [history] lists
    the steps taken so far and [log] the warnings logged.  [trace] keeps
    what an observer of the database sees between two statements of the
    flush: the state and the table store as they are after each step. *)
Record DB : Type := mkDB {
  state_ : DBState;
  tableStore : TableStore B;
  opts : DBOptions;
  history : list Event;
  log : list string;
  trace : list (DBState * TableStore B)
}.

Definition with_state (db : DB) (st : DBState) : DB :=
  mkDB st (tableStore db) (opts db) (history db) (log db) (trace db).

Definition with_tableStore (db : DB) (ts : TableStore B) : DB :=
  mkDB (state_ db) ts (opts db) (history db) (log db) (trace db).

(** A step is done: the database as it now is goes to the trace. *)
Definition record (s : Step) (db : DB) : DB :=
  mkDB (state_ db) (tableStore db) (opts db)
       (history db ++ [mkEvent s (List.map iw_id (immWALs (state_ db)))])
       (log db)
       (trace db ++ [(state_ db, tableStore db)]).

Definition Warn (msg : string) (db : DB) : DB :=
  mkDB (state_ db) (tableStore db) (opts db) (history db) (log db ++ [msg]) (trace db).

(** The first loop of [flushImmTable]: every entry of the iterator goes to
    the builder as its key and [val], which stays nil for a tombstone. *)
Equations? flushImmTable_loop (sstBuilder : Bld) (it : KVTableIterator) : result Bld
    by wf (length (pending it)) lt :=
  flushImmTable_loop sstBuilder it with inspect (NextEntry it) => {
    | exist _ (Ok (Some kv), it') Hnext
        with AddValue sstBuilder (Key kv)
               (if IsTombstone (RowValue kv) then None else Value_ (RowValue kv)) => {
        | Err err := Err err
        | Ok sstBuilder' := flushImmTable_loop sstBuilder' it' }
    | exist _ _ _ := Ok sstBuilder }.
Proof.
  unfold NextEntry in Hnext. destruct (pending it) as [|e rest]; [discriminate|].
  injection Hnext as _ <-. simpl. lia.
Qed.

Definition flushImmTable (ts : TableStore B) (ctx : Context) (id : ID)
    (it : KVTableIterator) : result Handle * TableStore B :=
  match flushImmTable_loop TableBuilder it with
  | Err err => (Err err, ts)
  | Ok sstBuilder =>
      match Build sstBuilder with
      | Err err => (Err err, ts)
      | Ok encodedSST =>
          match WriteSST ts id encodedSST with
          | (Err err, ts') => (Err err, ts')
          | (Ok sst, ts') => (Ok sst, ts')
          end
      end
  end.

Definition ImmutableWAL_Iter (st : DBState) (immWAL : ImmutableWAL) : KVTableIterator :=
  KVTable_iter (table_at st (iw_table immWAL)).

Definition flushImmWAL (ctx : Context) (immWAL : ImmutableWAL) (db : DB)
    : result Handle * TableStore B :=
  let walID := NewIDWal (iw_id immWAL) in
  flushImmTable (tableStore db) ctx walID (ImmutableWAL_Iter (state_ db) immWAL).

Equations? flushImmWALToMemtable_loop (it : KVTableIterator) (memtable : Memtable) : Memtable
    by wf (length (pending it)) lt :=
  flushImmWALToMemtable_loop it memtable with inspect (NextEntry it) => {
    | exist _ (Ok (Some e), it') Hnext :=
        flushImmWALToMemtable_loop it' (Memtable_Put e memtable)
    | exist _ _ _ := memtable }.
Proof.
  unfold NextEntry in Hnext. destruct (pending it) as [|x rest]; [discriminate|].
  injection Hnext as _ <-. simpl. lia.
Qed.

Definition flushImmWALToMemtable (st : DBState) (immWal : ImmutableWAL)
    (memtable : Memtable) : Memtable :=
  SetLastWalID (iw_id immWal)
    (flushImmWALToMemtable_loop (ImmutableWAL_Iter st immWal) memtable).

(** [immWal.Table().NotifyWALFlushed()]: the table is reached through the
    pointer the ImmutableWAL holds. *)
Definition notify (immWal : ImmutableWAL) (st : DBState) : DBState :=
  with_table st (iw_table immWal) (NotifyWALFlushed (table_at st (iw_table immWal))).

(** The body of the loop of [flushImmWALs] after a successful
    [flushImmWAL], statement by statement. *)
Definition flushImmWALs_rest (immWal : ImmutableWAL) (db : DB) : DB :=
  let db := record (StepPopImmWAL (iw_id immWal))
                   (with_state db (PopImmWAL (state_ db))) in
  let db := record (StepFlushToMemtable (iw_id immWal))
                   (with_state db
                      (with_memtable (state_ db)
                         (flushImmWALToMemtable (state_ db) immWal (memtable (state_ db))))) in
  let db := record (StepMaybeFreezeMemtable (iw_id immWal))
                   (with_state db
                      (maybeFreezeMemtable (L0SSTSizeBytes (opts db)) (state_ db) (iw_id immWal))) in
  record (StepNotifyWALFlushed (iw_id immWal))
         (with_state db (notify immWal (state_ db))).

(** The loop of [flushImmWALs].  Every round pops one ImmutableWAL, so [n]
    rounds are enough for a queue of [n]; the branch for a non-empty queue
    with no round left is never taken from [flushImmWALs]. *)
Fixpoint flushImmWALs_rounds (n : nat) (ctx : Context) (db : DB) : option error * DB :=
  match OldestImmWAL (state_ db) with
  | None => (None, db)
  | Some immWal =>
      match n with
      | 0 => (None, db)
      | S n' =>
          match flushImmWAL ctx immWal db with
          | (Err err, ts') =>
              (Some err, record (StepWriteSSTFailed (iw_id immWal)) (with_tableStore db ts'))
          | (Ok _, ts') =>
              flushImmWALs_rounds n' ctx
                (flushImmWALs_rest immWal
                   (record (StepWriteSST (iw_id immWal)) (with_tableStore db ts')))
          end
      end
  end.

Definition flushImmWALs (ctx : Context) (db : DB) : option error * DB :=
  flushImmWALs_rounds (length (immWALs (state_ db))) ctx db.

Definition FlushWAL (ctx : Context) (db : DB) : option error * DB :=
  flushImmWALs ctx (record StepFreezeWAL (with_state db (FreezeWAL (state_ db)))).

(** The task started by [spawnWALFlushTask].  [select] picks one of the two
    channels that are ready; the picks made are the input. *)
Inductive Wake : Type :=
| Tick
| Notified (ctx : Context).

Inductive TaskStatus : Type :=
| Selecting
| Returned.

Definition warnFlushFailed (r : option error * DB) : DB :=
  match r with
  | (Some _, db) => Warn "Flush WAL failed" db
  | (None, db) => db
  end.

(** The status of the task, the database, and the wakes it has not served. *)
Fixpoint walFlushTask (wakes : list Wake) (db : DB) : TaskStatus * DB * list Wake :=
  match wakes with
  | [] => (Selecting, db, [])
  | Tick :: rest =>
      let ctx := WithTimeout Background (FlushInterval (opts db)) in
      walFlushTask rest (warnFlushFailed (FlushWAL ctx db))
  | Notified ctx :: rest =>
      (Returned, warnFlushFailed (FlushWAL ctx db), rest)
  end.

End WithStore.

Arguments DB B : clear implicits.

End flush.

(** *** Sample databases *)

Definition core0 : state.CoreStateSnapshot := state.mkCore 1 0 [] None [].

Definition empty_db : flush.DB MemBucket :=
  flush.mkDB (state.NewDBState core0)
             (NewTableStore (mkMemBucket [] [] None) "db")
             (flush.mkDBOptions 100 100 1024) [] [] [].

(** One put in the live WAL. *)
Definition one_put_db : flush.DB MemBucket :=
  flush.with_state empty_db (state.WAL_Put "key1" (Some "value1") (flush.state_ empty_db)).

(** Two frozen WALs in the queue and a put in the live WAL. *)
Definition three_wal_db : flush.DB MemBucket :=
  let st := state.FreezeWAL (state.WAL_Put "a" (Some "1") (flush.state_ empty_db)) in
  let st := state.FreezeWAL (state.WAL_Delete "a" st) in
  flush.with_state empty_db (state.WAL_Put "b" (Some "2") st).

(** A put of the empty value, and a delete, of the same key. *)
Definition empty_put_db : flush.DB MemBucket :=
  flush.with_state empty_db (state.WAL_Put "key1" (Some "") (flush.state_ empty_db)).

Definition delete_db : flush.DB MemBucket :=
  flush.with_state empty_db (state.WAL_Delete "key1" (flush.state_ empty_db)).

(** ** The memtable flusher and the manifest *)

(** [store.FenceableManifest] as the flusher uses it: [Refresh] re-reads
    the newest generation, [UpdateDBState] writes the next one and fails
    with [ErrAlreadyExists] when that generation is already there. *)
Class Manifest (M : Type) : Type := {
  Refresh : M -> result state.CoreStateSnapshot * M;
  UpdateDBState : M -> state.CoreStateSnapshot -> option error * M
}.

(** Modelled from the spec: the stored manifest (section 4.5): numbered
    generations, the next one written only when absent, and a writer epoch
    whose loss makes updates fail with [ErrFenced].  [rivals] are the writes
    of other writers still to come, one landing after each refresh;
    [refresh_fault] makes every refresh fail. *)
Record StoredManifest : Type := mkStoredManifest {
  generations : list state.CoreStateSnapshot;
  local_generation : nat;
  fenced : bool;
  rivals : list state.CoreStateSnapshot;
  refresh_fault : option error
}.

Definition StoredManifest_Refresh (m : StoredManifest)
    : result state.CoreStateSnapshot * StoredManifest :=
  match refresh_fault m, last (generations m) with
  | Some e, _ => (Err e, m)
  | None, None => (Err ErrInvalidDBState, m)
  | None, Some newest =>
      (Ok newest,
       match rivals m with
       | [] => mkStoredManifest (generations m) (length (generations m)) (fenced m) [] None
       | r :: rs =>
           mkStoredManifest (generations m ++ [r]) (length (generations m)) (fenced m) rs None
       end)
  end.

Definition StoredManifest_UpdateDBState (m : StoredManifest) (c : state.CoreStateSnapshot)
    : option error * StoredManifest :=
  if fenced m then (Some ErrFenced, m)
  else if local_generation m <? length (generations m) then
    (Some (ErrWrap "manifest generation exists" ErrAlreadyExists), m)
  else
    (None, mkStoredManifest (generations m ++ [c]) (S (local_generation m))
                            (fenced m) (rivals m) (refresh_fault m)).

#[global] Instance StoredManifest_Manifest : Manifest StoredManifest := {
  Refresh := StoredManifest_Refresh;
  UpdateDBState := StoredManifest_UpdateDBState
}.

Module flusher.

Import state flush.

Section WithStore.

Context {B : Type} `{Bucket B} {Bld : Type} `{SSTBuilder Bld} {M : Type} `{Manifest M}.

(** [MemtableFlusher]; its logger is the log of the database. *)
Record MemtableFlusher : Type := mkMemtableFlusher {
  db : DB B;
  manifest : M
}.

Definition loadManifest (m : MemtableFlusher) : option error * MemtableFlusher :=
  match Refresh (manifest m) with
  | (Err err, manifest') => (Some err, mkMemtableFlusher (db m) manifest')
  | (Ok currentManifest, manifest') =>
      (None, mkMemtableFlusher
               (with_state (db m) (RefreshDBState (state_ (db m)) currentManifest))
               manifest')
  end.

Definition writeManifest (m : MemtableFlusher) : option error * MemtableFlusher :=
  let core := core (state_ (db m)) in
  match UpdateDBState (manifest m) core with
  | (err, manifest') => (err, mkMemtableFlusher (db m) manifest')
  end.

(** One round of the loop of [writeManifestSafely]: go round again, or
    return. *)
Inductive Round : Type :=
| Retry
| Return (err : option error).

Definition writeManifestSafely_round (m : MemtableFlusher) : Round * MemtableFlusher :=
  match loadManifest m with
  | (Some err, m1) => (Return (Some err), m1)
  | (None, m1) =>
      match writeManifest m1 with
      | (Some err, m2) =>
          if errors_Is err ErrAlreadyExists then
            (Retry, mkMemtableFlusher
                      (Warn "conflicting manifest version. retry write" (db m2))
                      (manifest m2))
          else (Return (Some err), m2)
      | (None, m2) => (Return None, m2)
      end
  end.

(** [writeManifestSafely]; [None] when [fuel] rounds all asked for another. *)
Fixpoint writeManifestSafely (fuel : nat) (m : MemtableFlusher)
    : option (option error * MemtableFlusher) :=
  match fuel with
  | 0 => None
  | S fuel' =>
      match writeManifestSafely_round m with
      | (Retry, m') => writeManifestSafely fuel' m'
      | (Return err, m') => Some (err, m')
      end
  end.

(** The flusher after [k] rounds. *)
Fixpoint after_rounds (k : nat) (m : MemtableFlusher) : MemtableFlusher :=
  match k with
  | 0 => m
  | S k' => after_rounds k' (snd (writeManifestSafely_round m))
  end.

End WithStore.

Arguments MemtableFlusher B M : clear implicits.

End flusher.

Definition contended_manifest : StoredManifest :=
  mkStoredManifest [core0] 1 false [state.mkCore 5 2 [] None []] None.

Definition fenced_manifest : StoredManifest :=
  mkStoredManifest [core0] 1 true [] None.

Definition sample_flusher (m : StoredManifest) : flusher.MemtableFlusher MemBucket StoredManifest :=
  flusher.mkMemtableFlusher empty_db m.

(** *** What the flush claims speak about *)

(** The events a round of [flushImmWALs] adds for the ImmutableWAL [id],
    [rest] being the ids queued behind it. *)
Definition flushed_events (id : N) (rest : list N) : list flush.Event :=
  [flush.mkEvent (flush.StepWriteSST id) (id :: rest);
   flush.mkEvent (flush.StepPopImmWAL id) rest;
   flush.mkEvent (flush.StepFlushToMemtable id) rest;
   flush.mkEvent (flush.StepMaybeFreezeMemtable id) rest;
   flush.mkEvent (flush.StepNotifyWALFlushed id) rest].



(** What [flushImmTable] hands to the builder as the value of an entry. *)
Definition builder_value (e : types.RowEntry) : slice :=
  if types.IsTombstone (types.RowValue e) then None else types.Value_ (types.RowValue e).


(** A put of the nil value. *)
Definition nil_put_db : flush.DB MemBucket :=
  flush.with_state empty_db (state.WAL_Put "key1" None (flush.state_ empty_db)).

(** A bucket whose next upload fails. *)
Definition failing_upload_db : flush.DB MemBucket :=
  flush.with_tableStore one_put_db (NewTableStore (mkMemBucket [] [true] None) "db").

Section ServeTicks.

Context {B : Type} `{Bucket B} {Bld : Type} `{SSTBuilder Bld}.

(** The database after [n] ticker wakes. *)
Fixpoint serve_ticks (n : nat) (db : flush.DB B) : flush.DB B :=
  match n with
  | 0 => db
  | S n' =>
      serve_ticks n'
        (flush.warnFlushFailed
           (flush.FlushWAL (WithTimeout Background (flush.FlushInterval (flush.opts db))) db))
  end.

End ServeTicks.

Section WriteSucceeded.

Context {B : Type} `{Bucket B} {Bld : Type} `{SSTBuilder Bld} {M : Type} `{Manifest M}.

(** A round from [m] refreshes with success and its write of the refreshed
    core state succeeds, leaving the flusher [m']. *)
Definition write_succeeds (m m' : flusher.MemtableFlusher B M) : Prop :=
  exists current manifest1 manifest2,
    Refresh (flusher.manifest m) = (Ok current, manifest1) /\
    UpdateDBState manifest1
      (state.core (state.RefreshDBState (flush.state_ (flusher.db m)) current))
    = (None, manifest2) /\
    m' = flusher.mkMemtableFlusher
           (flush.with_state (flusher.db m)
              (state.RefreshDBState (flush.state_ (flusher.db m)) current))
           manifest2.

End WriteSucceeded.

(** *** Sample runs *)

(** Two SSTs: a put and a delete, then a delete and a put. *)
Definition sample_sst_rows (sst : Handle) : list types.RowEntry :=
  if String.eqb (Value (Id sst)) "01A" then
    [types.put_entry "b" (Some "1"); types.tombstone_entry "c"]
  else if String.eqb (Value (Id sst)) "01B" then
    [types.tombstone_entry "d"; types.put_entry "e" (Some "")]
  else [].

Definition sample_NewIterator (sst : Handle) : result compaction_iter.Iterator :=
  Ok (compaction_iter.mkIterator (sample_sst_rows sst) []).

Definition sample_NewIteratorAtKey (sst : Handle) (key : bytes)
    : result compaction_iter.Iterator :=
  Ok (compaction_iter.mkIterator
        (List.filter (fun e => negb (String.ltb (types.Key e) key)) (sample_sst_rows sst))
        []).

Definition sample_iterator : compaction_iter.SortedRunIterator :=
  match compaction_iter.NewSortedRunIterator sample_NewIterator sample_NewIteratorAtKey
          (compaction.mkSortedRun 0 sample_run) with
  | Ok it => it
  | Err _ => compaction_iter.mkSortedRunIterator None (compaction_iter.newSSTListIterator []) []
  end.

(** *** What a sorted-run iterator has left to read *)

Section RunContents.

Import types compaction_iter.

Variable NewIterator : Handle -> result Iterator.

(** The entries of the SSTs [ssts], in order, up to the first SST that
    cannot be opened. *)
Fixpoint entries_until_failure (ssts : list Handle) : list RowEntry :=
  match ssts with
  | [] => []
  | sst :: rest =>
      match NewIterator sst with
      | Ok it => pending it ++ entries_until_failure rest
      | Err _ => []
      end
  end.

(** The SSTs after the first one that cannot be opened. *)
Fixpoint after_failure (ssts : list Handle) : list Handle :=
  match ssts with
  | [] => []
  | sst :: rest =>
      match NewIterator sst with
      | Ok _ => after_failure rest
      | Err _ => rest
      end
  end.

(** The SSTs the list iterator has not handed out yet. *)
Definition unopened (it : SortedRunIterator) : list Handle :=
  drop (current (sstListIter it)) (sstList (sstListIter it)).

(** The entries between the iterator and its next report of the end. *)
Definition remaining (it : SortedRunIterator) : list RowEntry :=
  match currentKVIter it with
  | Some kvIter => pending kvIter ++ entries_until_failure (unopened it)
  | None => []
  end.

End RunContents.

(** Entries of any kind told apart by their key. *)
Section KeyedRows.

Context {A : Type}.
Variable keyOf : A -> bytes.

(** [at_or_above key e]: the key of [e] is [key] or comes after it. *)
Definition at_or_above (key : bytes) (e : A) : bool :=
  (0 <=? bytes_pkg.Compare (keyOf e) key)%Z.

(** [rows_within rows l]: every entry of an SST of [l] has its key at or
    above the first key of its SST and below the first key of the next
    SST. *)
Fixpoint rows_within (rows : Handle -> list A) (l : list Handle) : bool :=
  match l with
  | [] => true
  | h :: rest =>
      forallb (fun e =>
                 at_or_above (FirstKey (Info_ h)) e
                 && match rest with
                    | [] => true
                    | h' :: _ => (bytes_pkg.Compare (keyOf e) (FirstKey (Info_ h')) <? 0)%Z
                    end) (rows h)
      && rows_within rows rest
  end.

End KeyedRows.

(** A store whose SST [01B] cannot be read, and a third SST with rows. *)
Definition gapped_NewIterator (sst : Handle) : result compaction_iter.Iterator :=
  if String.eqb (Value (Id sst)) "01B" then Err (ErrOther "read failed")
  else if String.eqb (Value (Id sst)) "01C" then
    Ok (compaction_iter.mkIterator [types.put_entry "f" (Some "3")] [])
  else sample_NewIterator sst.


(** *** What a sorted-run iterator of package [slatedb] has left to read *)

(** The entries a sequence of reads gives before its first error, and how
    the sequence stops: at its end or at that error. *)
Fixpoint ok_prefix {A : Type} (xs : list (result A)) : list A :=
  match xs with
  | Ok a :: rest => a :: ok_prefix rest
  | _ => []
  end.

Fixpoint first_failure {A : Type} (xs : list (result A)) : pulled A :=
  match xs with
  | [] => End_
  | Ok _ :: rest => first_failure rest
  | Err e :: _ => Failed e
  end.

Section SlatedbRunContents.

Import slatedb_iter.

Variable newSSTIterator : Handle -> N -> N -> SSTIterator.

(** What the reads of the SSTs [ssts] give, one SST after the other, each
    opened with the same two numbers. *)
Definition reads_of (fetch buffer : N) (ssts : list Handle)
    : list (result KeyValueDeletable) :=
  List.concat (List.map (fun sst => pending (newSSTIterator sst fetch buffer)) ssts).

Definition slatedb_unopened (it : SortedRunIterator) : list Handle :=
  drop (current (sstListIter it)) (sstList (sstListIter it)).

(** The reads between the iterator and the end of its run. *)
Definition slatedb_remaining (it : SortedRunIterator) : list (result KeyValueDeletable) :=
  match currentKVIter it with
  | Some kvIter =>
      pending kvIter
      ++ reads_of (numBlocksToFetch it) (numBlocksToBuffer it) (slatedb_unopened it)
  | None => []
  end.

End SlatedbRunContents.


(** The objects of [sample_bucket], listed in another order. *)
Definition shuffled_bucket : MemBucket :=
  mkMemBucket [("db/wal/02.sst", "b"); ("db/wal/README", ""); ("db/wal/3.sst", "c");
               ("db/compacted/01A.sst", "z"); ("db/wal/notes.sst", ""); ("db/wal/1.sst", "a")]
              [] None.

Definition shuffled_listing : list string :=
  ["db/wal/02.sst"; "db/wal/README"; "db/wal/3.sst"; "db/wal/notes.sst"; "db/wal/1.sst"].


(** *** Reading filters through the table store *)

Section TableStoreReads.

Context {B : Type} `{Bucket B}.

(** [ReadOnlyObject]: a bucket and the path of an object in it. *)
Record ReadOnlyObject : Type := mkReadOnlyObject {
  ro_bucket : B;
  ro_path : string
}.

(** Modelled from the spec: [sstFormat.ReadFilter(info, obj)] ("decoding
    block bytes and bloom filters is out of scope"): the filter read from
    the object, if the SST has one, or a read error. *)
Variable sstFormat_ReadFilter : Info -> ReadOnlyObject -> result (option Filter).

(** [ReadFilter]: the cached filter when there is one, else the filter read
    from the object, which is then cached. *)
Definition ReadFilter (ts : TableStore B) (sstHandle : Handle)
    : result (option Filter) * TableStore B :=
  match FilterCache_Get (Id sstHandle) (filterCache ts) with
  | Some val => (Ok val, ts)
  | None =>
      let obj := mkReadOnlyObject (bucket ts) (sstPath ts (Id sstHandle)) in
      match sstFormat_ReadFilter (Info_ sstHandle) obj with
      | Err err => (Err err, ts)
      | Ok filtr => (Ok filtr, cacheFilter ts (Id sstHandle) filtr)
      end
  end.

End TableStoreReads.

Arguments ReadOnlyObject B : clear implicits.

(** A listing that holds a stray name and ends with an error. *)
Definition stray_failing_bucket : MemBucket :=
  mkMemBucket [("db/wal/1.sst", "a"); ("db/wal/2.sst.tmp", "b")] []
              (Some (ErrOther "listing interrupted")).


(** *** [EncodedSSTableWriter] *)

(** [sstable.Builder] as the streaming writer uses it: [Add] takes the key
    and an optional value and can fail, [NextBlock] hands out a finished
    block when there is one, [Build] returns the table of what is left.
    The block codec is out of scope, so the builder is a parameter. *)
Class BlockBuilder (Bld : Type) : Type := {
  Builder_new : Bld;
  Builder_Add : Bld -> bytes -> option bytes -> option error * Bld;
  Builder_NextBlock : Bld -> option bytes * Bld;
  Builder_Build : Bld -> result Table
}.

Section EncodedSSTableWriter.

Context {B : Type} `{Bucket B} {Bld : Type} `{BlockBuilder Bld}.

(** The writer holds a pointer to the table store; [Close] returns the
    store as it leaves it. *)
Record EncodedSSTableWriter : Type := mkEncodedSSTableWriter {
  w_sstID : ID;
  w_builder : Bld;
  w_tableStore : TableStore B;
  w_buffer : bytes;
  w_blocksWritten : N
}.

Definition TableWriter (ts : TableStore B) (sstID : ID) : EncodedSSTableWriter :=
  mkEncodedSSTableWriter sstID Builder_new ts "" 0.

(** The loop of [Add]: take the finished blocks, one at a time, until the
    builder has none; [None] when [fuel] rounds were not enough. *)
Fixpoint Add_blocks (fuel : nat) (builder : Bld) (buffer : bytes) (blocksWritten : N)
    : option (Bld * bytes * N) :=
  match fuel with
  | 0 => None
  | S fuel' =>
      match Builder_NextBlock builder with
      | (None, builder') => Some (builder', buffer, blocksWritten)
      | (Some block, builder') =>
          Add_blocks fuel' builder' (String.append buffer block)
                     ((blocksWritten + 1) mod 2 ^ 64)%N
      end
  end.

Definition Writer_Add (fuel : nat) (w : EncodedSSTableWriter) (key : bytes)
    (value : option bytes) : option (option error * EncodedSSTableWriter) :=
  match Builder_Add (w_builder w) key value with
  | (Some err, builder') =>
      Some (Some err, mkEncodedSSTableWriter (w_sstID w) builder' (w_tableStore w)
                        (w_buffer w) (w_blocksWritten w))
  | (None, builder') =>
      match Add_blocks fuel builder' (w_buffer w) (w_blocksWritten w) with
      | None => None
      | Some (builder'', buffer, blocksWritten) =>
          Some (None, mkEncodedSSTableWriter (w_sstID w) builder'' (w_tableStore w)
                        buffer blocksWritten)
      end
  end.

Definition Written (w : EncodedSSTableWriter) : N := w_blocksWritten w.

(** [Close]: the blocks of the built table go after the buffer, front
    first, and the whole is uploaded under the path of the id. *)
Definition Close (w : EncodedSSTableWriter) : result Handle * TableStore B :=
  match Builder_Build (w_builder w) with
  | Err err => (Err err, w_tableStore w)
  | Ok encodedSST =>
      let blocksData := fold_left String.append (Blocks encodedSST) (w_buffer w) in
      let sstPath := sstPath (w_tableStore w) (w_sstID w) in
      match Upload (bucket (w_tableStore w)) sstPath blocksData with
      | (b', Some _) => (Err ErrObjectStore, with_bucket (w_tableStore w) b')
      | (b', None) =>
          (Ok (NewHandle (w_sstID w) (Table_Info encodedSST)),
           cacheFilter (with_bucket (w_tableStore w) b') (w_sstID w) (Bloom encodedSST))
      end
  end.

(** [hands_out b bs b']: asked again and again, the builder [b] hands out
    the blocks [bs], in this order, then none, and is left as [b']. *)
Inductive hands_out : Bld -> list bytes -> Bld -> Prop :=
| hands_out_none (b b' : Bld) :
    Builder_NextBlock b = (None, b') -> hands_out b [] b'
| hands_out_block (b b1 b' : Bld) (block : bytes) (bs : list bytes) :
    Builder_NextBlock b = (Some block, b1) -> hands_out b1 bs b' ->
    hands_out b (block :: bs) b'.

End EncodedSSTableWriter.

Arguments EncodedSSTableWriter B Bld : clear implicits.

(** A builder that closes a block after every second row. *)
Record PairBuilder : Type := mkPairBuilder {
  pb_ready : list bytes;
  pb_open : list (bytes * option bytes);
  pb_first : option bytes
}.

Definition PairBuilder_row (row : bytes * option bytes) : bytes :=
  String.append (fst row)
    (match snd row with
     | None => "!;"
     | Some v => String.append "=" (String.append v ";")
     end).

Definition PairBuilder_Add (b : PairBuilder) (key : bytes) (value : option bytes)
    : option error * PairBuilder :=
  if String.eqb key "" then (Some ErrInvalidDBState, b)
  else
    let first := match pb_first b with Some k => Some k | None => Some key end in
    match pb_open b with
    | [row] =>
        (None, mkPairBuilder
                 (pb_ready b ++ [String.append (PairBuilder_row row)
                                               (PairBuilder_row (key, value))])
                 [] first)
    | rows => (None, mkPairBuilder (pb_ready b) (rows ++ [(key, value)]) first)
    end.

Definition PairBuilder_NextBlock (b : PairBuilder) : option bytes * PairBuilder :=
  match pb_ready b with
  | [] => (None, b)
  | block :: rest => (Some block, mkPairBuilder rest (pb_open b) (pb_first b))
  end.

Definition PairBuilder_Build (b : PairBuilder) : result Table :=
  Ok (mkTable (sample_info (default "" (pb_first b))) None
              (pb_ready b ++ match pb_open b with
                             | [] => []
                             | rows => [String.concat "" (List.map PairBuilder_row rows)]
                             end)).

#[global] Instance PairBuilder_BlockBuilder : BlockBuilder PairBuilder := {
  Builder_new := mkPairBuilder [] [] None;
  Builder_Add := PairBuilder_Add;
  Builder_NextBlock := PairBuilder_NextBlock;
  Builder_Build := PairBuilder_Build
}.

(** *** Decimal names *)

(** [all_digits s]: every byte of [s] is a decimal digit. *)
Fixpoint all_digits (s : string) : bool :=
  match s with
  | EmptyString => true
  | String c rest =>
      match strconv_pkg.digit_of c with
      | Some _ => all_digits rest
      | None => false
      end
  end.

(** The number a string of decimal digits denotes, leading zeros allowed. *)
Fixpoint dec_val_from (n : N) (s : string) : N :=
  match s with
  | EmptyString => n
  | String c rest => dec_val_from (n * 10 + default 0 (strconv_pkg.digit_of c))%N rest
  end.

Definition dec_val (s : string) : N := dec_val_from 0 s.

(** [dir_prefix q]: [q] is empty or ends with a slash. *)
Definition dir_prefix (q : string) : Prop :=
  q = "" \/ exists q', q = String.append q' "/".


(** The rows of the sample SSTs as package [slatedb] holds them, and SST
    iterators over them that read without error. *)
Definition sample_kvd (e : types.RowEntry) : slatedb_iter.KeyValueDeletable :=
  slatedb_iter.mkKeyValueDeletable (types.Key e)
    (slatedb_iter.mkValueDeletable (types.Value_ (types.RowValue e))
                                   (types.IsTombstone (types.RowValue e))).

Definition sample_kvd_rows (sst : Handle) : list slatedb_iter.KeyValueDeletable :=
  List.map sample_kvd (sample_sst_rows sst).

Definition sample_newSSTIterator (sst : Handle) (maxFetchTasks numBlocksToFetch : N)
    : slatedb_iter.SSTIterator :=
  slatedb_iter.mkSSTIterator (List.map Ok (sample_kvd_rows sst)).

Definition sample_newSSTIteratorFromKey (sst : Handle) (key : bytes)
    (maxFetchTasks numBlocksToFetch : N) : slatedb_iter.SSTIterator :=
  slatedb_iter.mkSSTIterator
    (List.map Ok (List.filter (at_or_above slatedb_iter.key key) (sample_kvd_rows sst))).


(** * Properties *)

(** ** Byte order *)

Section ByteOrder.

Lemma ascii_compare_refl (c : ascii) : Ascii.compare c c = Eq.
Proof. unfold Ascii.compare. apply N.compare_refl. Qed.

Lemma ascii_compare_lt_trans (a b c : ascii) :
  Ascii.compare a b = Lt -> Ascii.compare b c = Lt -> Ascii.compare a c = Lt.
Proof.
  unfold Ascii.compare. rewrite !N.compare_lt_iff. lia.
Qed.

Lemma string_compare_refl (s : string) : String.compare s s = Eq.
Proof.
  induction s as [|c s IH]; simpl; [reflexivity|].
  rewrite ascii_compare_refl. exact IH.
Qed.

Lemma string_compare_lt_trans (a b c : string) :
  String.compare a b = Lt -> String.compare b c = Lt -> String.compare a c = Lt.
Proof.
  revert b c. induction a as [|x a IH]; intros [|y b] [|z c]; simpl; try congruence.
  destruct (Ascii.compare x y) eqn:Hxy; try congruence;
    destruct (Ascii.compare y z) eqn:Hyz; try congruence; intros H1 H2.
  - apply Ascii.compare_eq_iff in Hxy, Hyz. subst.
    rewrite ascii_compare_refl. eauto.
  - apply Ascii.compare_eq_iff in Hxy. subst. rewrite Hyz. reflexivity.
  - apply Ascii.compare_eq_iff in Hyz. subst. rewrite Hxy. reflexivity.
  - rewrite (ascii_compare_lt_trans _ _ _ Hxy Hyz). reflexivity.
Qed.

Lemma Compare_cases (a b : bytes) :
  (bytes_pkg.Compare a b = (-1)%Z /\ String.compare a b = Lt) \/
  (bytes_pkg.Compare a b = 0%Z /\ a = b) \/
  (bytes_pkg.Compare a b = 1%Z /\ String.compare b a = Lt).
Proof.
  unfold bytes_pkg.Compare.
  destruct (String.compare a b) eqn:H.
  - right; left. split; [reflexivity|]. by apply String.compare_eq_iff.
  - left. done.
  - right; right. split; [reflexivity|].
    rewrite String.compare_antisym, H. reflexivity.
Qed.

Lemma key_lt_iff (a b : bytes) : key_lt a b <-> String.compare a b = Lt.
Proof.
  unfold key_lt, bytes_pkg.Compare.
  destruct (String.compare a b); split; congruence.
Qed.

Lemma key_lt_trans (a b c : bytes) : key_lt a b -> key_lt b c -> key_lt a c.
Proof. rewrite !key_lt_iff. apply string_compare_lt_trans. Qed.

Lemma key_lt_irrefl (a : bytes) : ~ key_lt a a.
Proof. rewrite key_lt_iff, string_compare_refl. congruence. Qed.

(** [Compare a k > 0] says exactly that [k] is below [a]. *)
Lemma Compare_gtb_true (a k : bytes) :
  (bytes_pkg.Compare a k >? 0)%Z = true <-> key_lt k a.
Proof.
  rewrite key_lt_iff, String.compare_antisym.
  unfold bytes_pkg.Compare.
  destruct (String.compare a k); cbv; split; congruence.
Qed.

Lemma Compare_gtb_false (a k : bytes) :
  (bytes_pkg.Compare a k >? 0)%Z = false <-> key_le a k.
Proof.
  unfold key_le, bytes_pkg.Compare.
  destruct (String.compare a k); cbv; split; congruence.
Qed.

Lemma key_le_lt_trans (a b c : bytes) : key_le a b -> key_lt b c -> key_lt a c.
Proof.
  intros Hab Hbc. unfold key_le in Hab.
  destruct (Compare_cases a b) as [[_ H]|[[_ H]|[H _]]]; [|by subst|done].
  apply key_lt_iff in H. by eapply key_lt_trans.
Qed.

Lemma key_lt_le_trans (a b c : bytes) : key_lt a b -> key_le b c -> key_lt a c.
Proof.
  intros Hab Hbc. unfold key_le in Hbc.
  destruct (Compare_cases b c) as [[_ H]|[[_ H]|[H _]]]; [|by subst|done].
  apply key_lt_iff in H. by eapply key_lt_trans.
Qed.

Lemma key_le_not_lt (a b : bytes) : key_le a b -> ~ key_lt b a.
Proof.
  intros Hle Hlt. apply (key_lt_irrefl a). by eapply key_le_lt_trans.
Qed.

End ByteOrder.

(** ** Sorted runs: the linear scan and the binary search *)

Section SortedRunFacts.

Implicit Types (l rest : list Handle) (k key : bytes).

Lemma first_above_le k l : first_above k l <= length l.
Proof.
  induction l as [|h l IH]; simpl; [lia|].
  destruct (_ >? _)%Z; lia.
Qed.

Lemma first_above_before k l i h :
  i < first_above k l -> l !! i = Some h -> key_le (FirstKey (Info_ h)) k.
Proof.
  revert i. induction l as [|x l IH]; intros i; simpl; [lia|].
  destruct (_ >? _)%Z eqn:Hx; [lia|].
  destruct i as [|i]; simpl.
  - intros _ [= ->]. by apply Compare_gtb_false.
  - intros Hi Hl. apply (IH i); [lia|done].
Qed.

Lemma first_above_at k l h :
  l !! first_above k l = Some h -> key_lt k (FirstKey (Info_ h)).
Proof.
  induction l as [|x l IH]; simpl; [done|].
  destruct (_ >? _)%Z eqn:Hx; simpl.
  - intros [= ->]. by apply Compare_gtb_true.
  - exact IH.
Qed.

(** Neighbour-wise ascending implies pairwise ascending. *)
Lemma ascending_tail h l :
  first_keys_ascending (h :: l) = true -> first_keys_ascending l = true.
Proof.
  simpl. destruct l as [|b l]; [done|].
  intros H. apply andb_true_iff in H. tauto.
Qed.

Lemma ascending_head h l j b :
  first_keys_ascending (h :: l) = true -> l !! j = Some b ->
  key_lt (FirstKey (Info_ h)) (FirstKey (Info_ b)).
Proof.
  revert h j. induction l as [|x l IH]; intros h j Hasc Hj; [done|].
  assert (Hhx : key_lt (FirstKey (Info_ h)) (FirstKey (Info_ x))).
  { simpl in Hasc. apply andb_true_iff in Hasc as [Hasc _].
    apply Z.ltb_lt in Hasc. unfold key_lt.
    destruct (Compare_cases (FirstKey (Info_ h)) (FirstKey (Info_ x)))
      as [[? _]|[[? _]|[? _]]]; lia. }
  destruct j as [|j]; simpl in Hj.
  - by injection Hj as ->.
  - eapply key_lt_trans; [exact Hhx|].
    eapply IH; [|exact Hj]. by eapply ascending_tail.
Qed.

Lemma ascending_pairwise l i j a b :
  first_keys_ascending l = true -> i < j ->
  l !! i = Some a -> l !! j = Some b ->
  key_lt (FirstKey (Info_ a)) (FirstKey (Info_ b)).
Proof.
  revert i j. induction l as [|h l IH]; intros i j Hasc Hij Hi Hj; [done|].
  destruct j as [|j]; [lia|]. simpl in Hj.
  destruct i as [|i]; simpl in Hi.
  - injection Hi as ->. by eapply ascending_head.
  - eapply (IH i j); [by eapply ascending_tail|lia|done|done].
Qed.

Lemma first_above_after k l j h :
  first_keys_ascending l = true ->
  first_above k l <= j -> l !! j = Some h -> key_lt k (FirstKey (Info_ h)).
Proof.
  intros Hasc Hj Hl.
  assert (Hlen : first_above k l < length l).
  { apply lookup_lt_Some in Hl. lia. }
  destruct (lookup_lt_is_Some_2 l _ Hlen) as [x Hx].
  pose proof (first_above_at _ _ _ Hx) as Hkx.
  destruct (decide (first_above k l = j)) as [<-|Hne].
  - rewrite Hx in Hl. by injection Hl as ->.
  - eapply key_lt_trans; [exact Hkx|].
    eapply (ascending_pairwise l (first_above k l) j); eauto. lia.
Qed.

(** The range loop leaves [index] at the first SST above the key. *)
Lemma indexOfSSTWithKey_loop_first_above n key i rest :
  i + length rest = n -> rest <> [] ->
  slatedb_sortedrun.indexOfSSTWithKey_loop n key i rest = i + first_above key rest.
Proof.
  revert i. induction rest as [|sst rest IH]; intros i Hn Hne; [done|].
  simpl in *. destruct (_ >? _)%Z; [lia|].
  destruct (Nat.eqb_spec i (n - 1)) as [Hi|Hi].
  - destruct rest; simpl in *; [lia|lia].
  - rewrite IH; [lia|lia|]. destruct rest; simpl in *; [lia|done].
Qed.

Lemma slatedb_indexOfSSTWithKey_eq l key n :
  slatedb_sortedrun.indexOfSSTWithKey (slatedb_sortedrun.mkSortedRun n l) key
  = index_before (first_above key l).
Proof.
  unfold slatedb_sortedrun.indexOfSSTWithKey, index_before. simpl.
  destruct l as [|h l]; [reflexivity|].
  rewrite indexOfSSTWithKey_loop_first_above; [done|simpl; lia|done].
Qed.

End SortedRunFacts.

(** ** [sort.Search] *)

Section SearchFacts.

Variable p : nat -> bool.

(** On a predicate that does not panic and is monotone on [i, j), the loop
    returns the boundary between the [false] and the [true] indices. *)
Lemma Search_loop_boundary (f : nat -> outcome bool) (i j : nat) :
  i <= j ->
  (forall h, i <= h < j -> f h = Ret (p h)) ->
  (forall h h', i <= h -> h <= h' -> h' < j -> p h = true -> p h' = true) ->
  exists r, sort_pkg.Search_loop f i j = Ret r /\ i <= r <= j /\
            (forall h, i <= h < r -> p h = false) /\
            (forall h, r <= h < j -> p h = true).
Proof.
  funelim (sort_pkg.Search_loop f i j); intros Hij Hf Hmono.
  - exists i. split; [reflexivity|]. split; [lia|].
    split; intros h Hh; lia.
  - set (m := (i + j) / 2) in *.
    assert (Hm : i <= m < j).
    { subst m. split; [apply Nat.div_le_lower_bound; lia
                      |apply Nat.Div0.div_lt_upper_bound; lia]. }
    rewrite Hf in Heq by lia. injection Heq as Hpm.
    assert (Hf' : forall h, i <= h < m -> f h = Ret (p h))
      by (intros h Hh; apply Hf; lia).
    assert (Hmono' : forall h h', i <= h -> h <= h' -> h' < m ->
                                  p h = true -> p h' = true)
      by (intros h h' ? ? ? ?; apply (Hmono h h'); [lia|lia|lia|done]).
    assert (Hle' : i <= m) by lia.
    destruct (H Hle' Hf' Hmono') as (r & Hr & Hb & Hlo & Hhi).
    exists r. split; [done|]. split; [lia|]. split; [done|].
    intros h Hh. destruct (decide (h < m)) as [Hlt|Hge].
    + apply Hhi. lia.
    + apply (Hmono m h); [lia|lia|lia|done].
  - set (m := (i + j) / 2) in *.
    assert (Hm : i <= m < j).
    { subst m. split; [apply Nat.div_le_lower_bound; lia
                      |apply Nat.Div0.div_lt_upper_bound; lia]. }
    rewrite Hf in Heq by lia. injection Heq as Hpm.
    assert (Hf' : forall h, (m + 1) <= h < j -> f h = Ret (p h))
      by (intros h Hh; apply Hf; lia).
    assert (Hmono' : forall h h', (m + 1) <= h -> h <= h' -> h' < j ->
                                  p h = true -> p h' = true)
      by (intros h h' ? ? ? ?; apply (Hmono h h'); [lia|lia|lia|done]).
    assert (Hle' : (m + 1) <= j) by lia.
    destruct (H Hle' Hf' Hmono') as (r & Hr & Hb & Hlo & Hhi).
    exists r. split; [done|]. split; [lia|]. split; [|done].
    intros h Hh. destruct (decide (h <= m)) as [Hle|Hgt].
    + destruct (p h) eqn:Hph; [|done].
      rewrite (Hmono h m) in Hpm; [done|lia|lia|lia|done].
    + apply Hlo. lia.
  - rewrite Hf in Heq; [discriminate|].
    split; [apply Nat.div_le_lower_bound; lia
           |apply Nat.Div0.div_lt_upper_bound; lia].
Qed.

End SearchFacts.

(** ** The two [indexOfSSTWithKey] *)

Section IndexOfSST.

Implicit Types (l : list Handle) (k : bytes).

Lemma first_keys_nonempty_lookup l i h :
  first_keys_nonempty l = true -> l !! i = Some h ->
  negb (String.length (FirstKey (Info_ h)) =? 0) = true.
Proof.
  unfold first_keys_nonempty. rewrite forallb_forall.
  intros Hall Hi. apply Hall. apply list_elem_of_In.
  by eapply list_elem_of_lookup_2.
Qed.

(** With first keys present and ascending the binary search returns the
    index of the first SST above the key. *)
Lemma compaction_indexOfSSTWithKey_eq l k n :
  first_keys_ascending l = true -> first_keys_nonempty l = true ->
  compaction.indexOfSSTWithKey (compaction.mkSortedRun n l) k
  = Ret (index_before (first_above k l)).
Proof.
  intros Hasc Hne. unfold compaction.indexOfSSTWithKey, sort_pkg.Search. simpl.
  set (s := compaction.mkSortedRun n l).
  set (p := fun h => match l !! h with
                     | Some x => (bytes_pkg.Compare (FirstKey (Info_ x)) k >? 0)%Z
                     | None => true
                     end).
  destruct (Search_loop_boundary p (compaction.firstKeyAfter s k) 0 (length l))
    as (r & Hr & Hb & Hlo & Hhi).
  - lia.
  - intros h Hh. unfold compaction.firstKeyAfter, p. simpl.
    destruct (lookup_lt_is_Some_2 l h) as [x Hx]; [lia|]. rewrite Hx.
    by rewrite (first_keys_nonempty_lookup _ _ _ Hne Hx).
  - intros h h' _ Hhh' Hh' Hph. unfold p in *.
    destruct (l !! h') as [y|] eqn:Hy; [|done].
    destruct (lookup_lt_is_Some_2 l h) as [x Hx]; [lia|]. rewrite Hx in Hph.
    apply Compare_gtb_true in Hph. apply Compare_gtb_true.
    destruct (decide (h = h')) as [->|Hd]; [congruence|].
    eapply key_lt_trans; [exact Hph|].
    eapply (ascending_pairwise l h h'); eauto. lia.
  - rewrite Hr. simpl. fold (index_before r). f_equal. f_equal.
    pose proof (first_above_le k l) as Hfa.
    destruct (Nat.lt_trichotomy r (first_above k l)) as [Hlt|[Heq|Hgt]]; [|done|].
    + destruct (lookup_lt_is_Some_2 l r) as [x Hx]; [lia|].
      pose proof (first_above_before _ _ _ _ Hlt Hx) as Hle.
      assert (Hpr : p r = true) by (apply Hhi; lia).
      unfold p in Hpr. rewrite Hx in Hpr. apply Compare_gtb_true in Hpr.
      by apply key_le_not_lt in Hle.
    + destruct (lookup_lt_is_Some_2 l (first_above k l)) as [x Hx]; [lia|].
      pose proof (first_above_at _ _ _ Hx) as Hgt'.
      assert (Hpf : p (first_above k l) = false) by (apply Hlo; lia).
      unfold p in Hpf. rewrite Hx in Hpf. apply Compare_gtb_false in Hpf.
      by apply key_le_not_lt in Hpf.
Qed.

Lemma index_before_None l k :
  index_before (first_above k l) = None <-> below_first l k.
Proof.
  unfold index_before, below_first. destruct l as [|h l]; simpl; [done|].
  destruct (_ >? _)%Z eqn:Hx; simpl.
  - split; [|done]. intros _. by apply Compare_gtb_true.
  - split; [done|]. intros Hlt. apply Compare_gtb_false in Hx.
    by apply key_le_not_lt in Hx.
Qed.

Lemma index_before_Some l k i :
  first_keys_ascending l = true ->
  index_before (first_above k l) = Some i ->
  last_at_or_below l k i /\ (forall i', last_at_or_below l k i' -> i' = i).
Proof.
  intros Hasc. unfold index_before.
  destruct (Nat.ltb_spec 0 (first_above k l)) as [Hpos|]; [|done].
  intros [= <-].
  pose proof (first_above_le k l) as Hfa.
  assert (Hlast : last_at_or_below l k (first_above k l - 1)).
  { split.
    - destruct (lookup_lt_is_Some_2 l (first_above k l - 1)) as [x Hx]; [lia|].
      exists x. split; [done|].
      apply (first_above_before k l (first_above k l - 1) x); [lia|done].
    - intros j h Hj Hh.
      apply (first_above_after k l j h); [done|lia|done]. }
  split; [exact Hlast|].
  intros i' [(x' & Hx' & Hle') Hafter'].
  destruct Hlast as [(x & Hx & Hle) Hafter].
  destruct (Nat.lt_trichotomy i' (first_above k l - 1)) as [Hlt|[Heq|Hgt]]; [|done|].
  - pose proof (Hafter' _ _ Hlt Hx). by apply key_le_not_lt in Hle.
  - pose proof (Hafter _ _ Hgt Hx'). by apply key_le_not_lt in Hle'.
Qed.

End IndexOfSST.







(** ** The table store *)

Section StringFacts.

Lemma append_cons (c : ascii) (s t : string) :
  String.append (String c s) t = String c (String.append s t).
Proof. reflexivity. Qed.

Lemma append_empty_r (s : string) : String.append s "" = s.
Proof. induction s as [|c s IH]; [reflexivity|]. by rewrite append_cons, IH. Qed.

Lemma append_assoc (s t u : string) :
  String.append (String.append s t) u = String.append s (String.append t u).
Proof. induction s as [|c s IH]; [reflexivity|]. by rewrite !append_cons, IH. Qed.

Lemma concat_blocks_acc (blocks : list bytes) (acc : bytes) :
  fold_left String.append blocks acc = String.append acc (String.concat "" blocks).
Proof.
  revert acc. induction blocks as [|b blocks IH]; intros acc; simpl.
  - by rewrite append_empty_r.
  - rewrite IH. destruct blocks as [|b' blocks].
    + simpl. by rewrite append_empty_r.
    + rewrite append_assoc. reflexivity.
Qed.

(** The uploaded payload is the blocks, one after the other. *)
Lemma concat_blocks_cons (b : bytes) (blocks : list bytes) :
  concat_blocks (b :: blocks) = String.append b (concat_blocks blocks).
Proof.
  unfold concat_blocks. simpl. by rewrite !concat_blocks_acc.
Qed.

End StringFacts.

Section FilterCacheFacts.

Lemma FilterCache_Get_Set (k : ID) (v : option Filter) (c : FilterCache) :
  FilterCache_Get k (FilterCache_Set k v c) = Some v.
Proof.
  unfold FilterCache_Get, FilterCache_Set, filterCache_capacity.
  change 1000 with (S 999). rewrite firstn_cons. simpl.
  by rewrite bool_decide_eq_true_2.
Qed.

End FilterCacheFacts.

(** C6.  [WriteSST] uploads the concatenation of the blocks under the path
    of the id, once.  When the upload succeeds the result is the handle of
    the id and of the table's info, and the filter cache maps the id to the
    table's bloom filter; when it fails the result is [ErrObjectStore] and
    the filter cache is the one before the call. *)
Theorem WriteSST_uploads_then_caches {B : Type} `{Bucket B}
    (ts : TableStore B) (id : ID) (encodedSST : Table) :
  let data := concat_blocks (Blocks encodedSST) in
  let ts' := snd (WriteSST ts id encodedSST) in
  data = String.concat "" (Blocks encodedSST) /\
  bucket ts' = fst (Upload (bucket ts) (sstPath ts id) data) /\
  match snd (Upload (bucket ts) (sstPath ts id) data) with
  | None =>
      fst (WriteSST ts id encodedSST) = Ok (NewHandle id (Table_Info encodedSST)) /\
      FilterCache_Get id (filterCache ts') = Some (Bloom encodedSST)
  | Some _ =>
      fst (WriteSST ts id encodedSST) = Err ErrObjectStore /\
      filterCache ts' = filterCache ts
  end.
Proof.
  intros data ts'. subst data ts'. unfold WriteSST.
  split; [unfold concat_blocks; by rewrite concat_blocks_acc|].
  destruct (Upload _ _ _) as [b' [e|]]; simpl.
  - done.
  - split; [done|]. split; [done|]. apply FilterCache_Get_Set.
Qed.

(** A successful and a failed upload on the bucket held in memory. *)
Example WriteSST_sample_ok :
  let r := WriteSST (NewTableStore sample_bucket "db") (mkID WAL "7") sample_table in
  fst r = Ok (NewHandle (mkID WAL "7") (sample_info "k1")) /\
  MemBucket_get "db/wal/7.sst" (bucket (snd r)) = Some "block0;block1;" /\
  FilterCache_Get (mkID WAL "7") (filterCache (snd r)) = Some (Some "bloom-bits").
Proof. repeat split. Qed.

Example WriteSST_sample_failed :
  let r := WriteSST (NewTableStore (mkMemBucket [] [true] None) "db")
                    (mkID Compacted "01A") sample_table in
  fst r = Err ErrObjectStore /\
  objects (bucket (snd r)) = [] /\
  filterCache (snd r) = [].
Proof. repeat split. Qed.

Section WalListing.

Context {B : Type} `{Bucket B}.

Lemma parseID_sst (filepath : string) :
  path_pkg.Ext filepath = ".sst" ->
  parseID filepath ".sst"
  = Ret (match wal_id_of filepath with
         | Some id => Ok id
         | None => Err ErrInvalidDBState
         end).
Proof.
  intros Hext. unfold parseID, wal_id_of. rewrite Hext. simpl.
  by destruct (strconv_pkg.ParseUint _).
Qed.

Lemma wal_ids_above_cons (above : N) (p : string) (names : list string) :
  wal_ids_above above (p :: names)
  = wal_ids_above above [p] ++ wal_ids_above above names.
Proof.
  unfold wal_ids_above. simpl.
  destruct (strings_pkg.Contains p ".sst"); simpl; [|done].
  destruct (wal_id_of p) as [id|]; simpl; [|done].
  by destruct (above <? id)%N.
Qed.

Lemma getWalSSTList_visit_ok (above : N) (acc : list N) (p : string) :
  implb (strings_pkg.Contains p ".sst") (String.eqb (path_pkg.Ext p) ".sst") = true ->
  getWalSSTList_visit above acc p = Ret (acc ++ wal_ids_above above [p]).
Proof.
  intros Hp. unfold getWalSSTList_visit, wal_ids_above. simpl.
  destruct (strings_pkg.Contains p ".sst"); simpl in *.
  - apply String.eqb_eq in Hp. rewrite (parseID_sst _ Hp). simpl.
    destruct (wal_id_of p) as [id|]; simpl; [|by rewrite app_nil_r].
    destruct (above <? id)%N; [done|by rewrite app_nil_r].
  - by rewrite app_nil_r.
Qed.

Lemma Iter_each_visit_ok (above : N) (names : list string) (acc : list N) :
  sst_names_have_ext names = true ->
  Iter_each (getWalSSTList_visit above) acc names
  = Ret (acc ++ wal_ids_above above names).
Proof.
  revert acc. induction names as [|p names IH]; intros acc Hall; simpl.
  - by rewrite app_nil_r.
  - simpl in Hall. apply andb_true_iff in Hall as [Hp Hall].
    rewrite (getWalSSTList_visit_ok _ _ _ Hp). simpl.
    rewrite (IH _ Hall), (wal_ids_above_cons above p names).
    by rewrite app_assoc.
Qed.

Lemma getWalSSTList_ok (ts : TableStore B) (above : N)
    (names : list string) (err : option error) :
  Iter (bucket ts) (path_pkg.Join [rootPath ts; walPath ts]) = (names, err) ->
  sst_names_have_ext names = true ->
  getWalSSTList ts above
  = Ret (match err with
         | Some _ => Err ErrObjectStore
         | None => Ok (slices_pkg.Sort (wal_ids_above above names))
         end).
Proof.
  intros Hiter Hall. unfold getWalSSTList. rewrite Hiter.
  rewrite (Iter_each_visit_ok _ _ _ Hall). simpl. by destruct err.
Qed.


End WalListing.




(** C10.  When every listed path that contains [".sst"] has [".sst"] as its
    extension, the assertion of [parseID] holds at every call made by
    [getWalSSTList], which therefore returns; a listed file whose name does
    not read as a decimal [uint64] leaves the list as it is, and the only
    error [getWalSSTList] returns is the one of a failed listing. *)
Theorem getWalSSTList_total_and_skips {B : Type} `{Bucket B}
    (ts : TableStore B) (above : N) (names : list string) (err : option error) :
  Iter (bucket ts) (path_pkg.Join [rootPath ts; walPath ts]) = (names, err) ->
  sst_names_have_ext names = true ->
  (forall p, p ∈ names -> strings_pkg.Contains p ".sst" = true ->
     exists r, parseID p ".sst" = Ret r) /\
  (exists r, getWalSSTList ts above = Ret r) /\
  (forall p acc, p ∈ names -> strings_pkg.Contains p ".sst" = true ->
     wal_id_of p = None -> getWalSSTList_visit above acc p = Ret acc) /\
  (err = None -> exists l, getWalSSTList ts above = Ret (Ok l)) /\
  (forall e, getWalSSTList ts above = Ret (Err e) -> err <> None /\ e = ErrObjectStore).
Proof.
  intros Hiter Hall.
  assert (Hext : forall p, p ∈ names ->
            implb (strings_pkg.Contains p ".sst")
                  (String.eqb (path_pkg.Ext p) ".sst") = true).
  { intros p Hp. unfold sst_names_have_ext in Hall.
    rewrite forallb_forall in Hall. apply Hall. by apply list_elem_of_In. }
  rewrite (getWalSSTList_ok _ _ _ _ Hiter Hall).
  split; [|split; [|split; [|split]]].
  - intros p Hp Hc. specialize (Hext p Hp). rewrite Hc in Hext.
    apply String.eqb_eq in Hext. rewrite (parseID_sst _ Hext). eauto.
  - eauto.
  - intros p acc Hp Hc Hnone.
    rewrite (getWalSSTList_visit_ok _ _ _ (Hext p Hp)).
    unfold wal_ids_above. simpl. rewrite Hc. simpl. rewrite Hnone. simpl.
    by rewrite app_nil_r.
  - intros ->. eauto.
  - intros e He. destruct err; [|done]. split; [done|congruence].
Qed.

Lemma getWalSSTList_total_and_skips_witness :
  getWalSSTList_visit 1 [3]%N "db/wal/notes.sst" = Ret [3]%N /\
  exists l, getWalSSTList (NewTableStore sample_bucket "db") 1 = Ret (Ok l).
Proof.
  destruct (getWalSSTList_total_and_skips (NewTableStore sample_bucket "db") 1
              sample_listing None) as (_ & _ & Hskip & Hok & _);
    [reflexivity|reflexivity|].
  split.
  - apply Hskip; [|reflexivity|reflexivity].
    apply list_elem_of_In. simpl. tauto.
  - exact (Hok eq_refl).
Defined.

(** ** Loops that pass over some of the items of an iterator *)

Section PullingFacts.

Context {St R A R' A' : Type}.
Variable item : R -> option A.
Variable step : St -> R * St.
Variable skip : A -> bool.
Variable conv : A -> A'.
Variable wrap : A' -> R'.
Variable stop : R -> R'.
Variable item' : R' -> option A'.
Variable work : St -> nat.
Variable next : St -> R' * St.
Variable dflt : R'.

Hypothesis step_work :
  forall s r a s', step s = (r, s') -> item r = Some a -> work s' < work s.
Hypothesis item'_wrap : forall c, item' (wrap c) = Some c.
Hypothesis item'_stop : forall r, item r = None -> item' (stop r) = None.
Hypothesis next_def :
  forall s, next s = match skipping item step skip (fun a => wrap (conv a)) stop
                             (S (work s)) s with
                     | Some r => r
                     | None => (dflt, s)
                     end.

Local Abbreviation loop := (skipping item step skip (fun a => wrap (conv a)) stop).

Lemma skipping_enough (n : nat) (s : St) :
  work s < n -> exists r, loop n s = Some r.
Proof.
  revert s. induction n as [|n IH]; intros s Hw; [lia|].
  simpl. destruct (step s) as [r s'] eqn:Hs.
  destruct (item r) as [a|] eqn:Hr; [|eauto].
  destruct (skip a); [|eauto].
  apply IH. pose proof (step_work _ _ _ _ Hs Hr). lia.
Qed.

Lemma skipping_mono (n m : nat) (s : St) (r : R' * St) :
  loop n s = Some r -> n <= m -> loop m s = Some r.
Proof.
  revert m s. induction n as [|n IH]; intros m s Hn Hm; [done|].
  destruct m as [|m]; [lia|]. simpl in *.
  destruct (step s) as [r0 s']. destruct (item r0) as [a|]; [|done].
  destruct (skip a); [|done]. apply IH; [done|lia].
Qed.

Lemma skipping_next (n : nat) (s : St) :
  work s < n -> loop n s = Some (next s).
Proof.
  intros Hw. destruct (skipping_enough (S (work s)) s) as [r Hr]; [lia|].
  rewrite next_def, Hr. apply (skipping_mono (S (work s))); [done|lia].
Qed.

(** One round of the loop. *)
Lemma next_unfold (s : St) :
  next s = let '(r, s') := step s in
           match item r with
           | Some a => if skip a then next s' else (wrap (conv a), s')
           | None => (stop r, s')
           end.
Proof.
  pose proof (skipping_next (S (work s)) s) as Hn. simpl in Hn.
  destruct (step s) as [r s'] eqn:Hs.
  destruct (item r) as [a|] eqn:Hr.
  - destruct (skip a).
    + pose proof (step_work _ _ _ _ Hs Hr) as Hlt.
      rewrite (skipping_next (work s) s') in Hn by lia.
      specialize (Hn ltac:(lia)). congruence.
    + specialize (Hn ltac:(lia)). congruence.
  - specialize (Hn ltac:(lia)). congruence.
Qed.

Lemma drain_enough (n : nat) (s : St) :
  work s < n -> exists x, drain item step n s = Some x.
Proof.
  revert s. induction n as [|n IH]; intros s Hw; [lia|].
  simpl. destruct (step s) as [r s'] eqn:Hs.
  destruct (item r) as [a|] eqn:Hr; [|eauto].
  destruct (IH s') as [[[l st] s''] Hx].
  { pose proof (step_work _ _ _ _ Hs Hr). lia. }
  rewrite Hx. eauto.
Qed.

Lemma drain_next_mono (n : nat) (s : St) x :
  drain item' next n s = Some x -> drain item' next (S n) s = Some x.
Proof.
  revert s x. induction n as [|n IH]; intros s x Hn; [done|].
  simpl in Hn. change (drain item' next (S (S n)) s) with
    (let '(r, s') := next s in
     match item' r with
     | Some a => match drain item' next (S n) s' with
                 | Some (l, st, s'') => Some (a :: l, st, s'')
                 | None => None
                 end
     | None => Some ([], r, s')
     end).
  destruct (next s) as [r s']. destruct (item' r) as [a|]; [|done].
  destruct (drain item' next n s') as [[[l st] s'']|] eqn:Hd; [|done].
  by rewrite (IH _ _ Hd).
Qed.

(** What the loop yields is what [step] yields, without the items passed
    over, converted, in the same order, up to the same stop. *)
Lemma drain_next_filter (n : nat) (s s' : St) (es : list A) (st : R) :
  drain item step n s = Some (es, st, s') ->
  drain item' next n s
  = Some (List.map conv (List.filter (fun a => negb (skip a)) es), stop st, s').
Proof.
  revert s es. induction n as [|n IH]; intros s es Hd; [done|].
  simpl in Hd. simpl. rewrite next_unfold.
  destruct (step s) as [r s1] eqn:Hs.
  destruct (item r) as [a|] eqn:Hr.
  - destruct (drain item step n s1) as [[[l st1] s2]|] eqn:Hd1; [|done].
    injection Hd as <- <- <-. specialize (IH _ _ Hd1). simpl.
    destruct (skip a); simpl.
    + apply drain_next_mono in IH. simpl in IH. exact IH.
    + by rewrite item'_wrap, IH.
  - injection Hd as <- <- <-. simpl. by rewrite (item'_stop _ Hr).
Qed.

Lemma drain_nil_iff {St0 R0 A0 : Type} (item0 : R0 -> option A0)
    (step0 : St0 -> R0 * St0) (n : nat) (s s' : St0) (l : list A0) (st : R0) :
  drain item0 step0 n s = Some (l, st, s') ->
  (item0 (fst (step0 s)) = None <-> l = []).
Proof.
  destruct n as [|n]; [done|]. simpl.
  destruct (step0 s) as [r s1]. simpl.
  destruct (item0 r) as [a|].
  - destruct (drain item0 step0 n s1) as [[[l1 st1] s2]|]; [|done].
    intros [= <- <- <-]. split; done.
  - intros [= <- <- <-]. split; done.
Qed.

Lemma drain_stop_item {St0 R0 A0 : Type} (item0 : R0 -> option A0)
    (step0 : St0 -> R0 * St0) (n : nat) (s s' : St0) (l : list A0) (st : R0) :
  drain item0 step0 n s = Some (l, st, s') -> item0 st = None.
Proof.
  revert s l. induction n as [|n IH]; intros s l; [done|]. simpl.
  destruct (step0 s) as [r s1].
  destruct (item0 r) as [a|] eqn:Hr.
  - destruct (drain item0 step0 n s1) as [[[l1 st1] s2]|] eqn:Hd; [|done].
    intros [= <- <- <-]. by eapply IH.
  - by intros [= <- <- <-].
Qed.

End PullingFacts.

(** ** [SortedRunIterator] of package [compaction] *)

Section CompactionIterFacts.

Import types compaction_iter.

Variable NewIterator : Handle -> result Iterator.

Lemma Iterator_NextEntry_Some (k k' : Iterator) (e : RowEntry) :
  Iterator_NextEntry k = (Some e, k') -> length (pending k') < length (pending k).
Proof.
  unfold Iterator_NextEntry. destruct (pending k) as [|x rest] eqn:Hp; [done|].
  intros [= <- <-]. simpl. lia.
Qed.

Lemma Iterator_NextEntry_None (k k' : Iterator) :
  Iterator_NextEntry k = (None, k') -> k' = k /\ pending k = [].
Proof.
  unfold Iterator_NextEntry. destruct (pending k) as [|x rest] eqn:Hp; [|done].
  by intros [= <-].
Qed.

Lemma SSTListIterator_Next_Some (l l' : SSTListIterator) (sst : Handle) :
  SSTListIterator_Next l = (Some sst, l') ->
  sstList l' = sstList l /\ current l' = current l + 1 /\
  drop (current l) (sstList l) = sst :: drop (current l') (sstList l').
Proof.
  unfold SSTListIterator_Next.
  destruct (Nat.leb_spec (length (sstList l)) (current l)); [done|].
  intros [= Hl <-]. simpl. split; [done|]. split; [done|].
  rewrite Nat.add_1_r. by apply drop_S.
Qed.

Lemma NextEntry_work (it it' : SortedRunIterator) (e : RowEntry) :
  NextEntry NewIterator it = (Some e, it') ->
  work NewIterator it' < work NewIterator it.
Proof.
  funelim (NextEntry NewIterator it); try (intros [=]; fail).
  - intros [= <- <-]. unfold work, with_current. simpl.
    match goal with
    | Hc : currentKVIter _ = Some _, Hn : Iterator_NextEntry _ = _ |- _ =>
        rewrite Hc; apply Iterator_NextEntry_Some in Hn
    end.
    lia.
  - intros Hrec.
    match goal with
    | IH : forall _ _, NextEntry _ _ = _ -> _ |- _ => specialize (IH _ _ Hrec)
    end.
    match goal with
    | Hn : Iterator_NextEntry _ = (None, _) |- _ =>
        apply Iterator_NextEntry_None in Hn as [-> Hp]
    end.
    match goal with
    | Hl : SSTListIterator_Next _ = _ |- _ =>
        pose proof (SSTListIterator_Next_Some _ _ _ Hl) as (Hl1 & Hl2 & Hl3)
    end.
    match goal with
    | Hc : currentKVIter _ = Some _, Ho : NewIterator _ = Ok _ |- _ =>
        unfold work in *; simpl in *; rewrite Hc, Hp, Hl3; simpl;
        unfold work_of_sst at 2; rewrite Ho
    end.
    lia.
Qed.

Lemma Next_fuel_skipping (fuel : nat) (it : SortedRunIterator) :
  Next_fuel NewIterator fuel it
  = skipping id (NextEntry NewIterator) (fun e => IsTombstone (RowValue e))
             (fun e => Some (to_KeyValue e)) (fun _ => None) fuel it.
Proof.
  revert it. induction fuel as [|fuel IH]; intros it; [done|].
  simpl. destruct (NextEntry NewIterator it) as [[e|] it1]; simpl; [|done].
  destruct (IsTombstone (RowValue e)); [apply IH|done].
Qed.


Lemma compaction_pairs_of (it : SortedRunIterator) :
  exists es it',
    entries_of NewIterator it = Some (es, None, it') /\
    pairs_of NewIterator it
    = Some (List.map to_KeyValue (List.filter live es), None, it') /\
    (fst (Next NewIterator it) = None <-> List.filter live es = []).
Proof.
  unfold entries_of, pairs_of.
  assert (Hwork : forall s r a s', NextEntry NewIterator s = (r, s') ->
                    id r = Some a -> work NewIterator s' < work NewIterator s).
  { intros s r a s' Hs Hr. simpl in Hr. subst r. by eapply NextEntry_work. }
  destruct (drain_enough id (NextEntry NewIterator) (work NewIterator) Hwork
              (S (work NewIterator it)) it) as [[[es st] it'] Hd]; [lia|].
  pose proof (drain_stop_item _ _ _ _ _ _ _ Hd) as Hst. simpl in Hst. subst st.
  exists es, it'. split; [exact Hd|].
  assert (Hp : drain id (Next NewIterator) (S (work NewIterator it)) it
               = Some (List.map to_KeyValue (List.filter live es), None, it')).
  { eapply (drain_next_filter id (NextEntry NewIterator)
              (fun e => IsTombstone (RowValue e)) to_KeyValue Some (fun _ => None) id
              (work NewIterator) (Next NewIterator) None Hwork); [done|done| |exact Hd].
    intros s. unfold Next. by rewrite Next_fuel_skipping. }
  split; [exact Hp|].
  rewrite (drain_nil_iff _ _ _ _ _ _ _ Hp). simpl.
  split; [intros H; by destruct (List.filter live es)
         |intros H; by destruct (List.filter live es)].
Qed.

End CompactionIterFacts.

(** ** [SortedRunIterator] of package [slatedb] *)

Section SlatedbIterFacts.

Import slatedb_iter.

Variable newSSTIterator : Handle -> N -> N -> SSTIterator.

Lemma SSTIterator_NextEntry_Got (k k' : SSTIterator) (e : KeyValueDeletable) :
  SSTIterator_NextEntry k = (Got e, k') -> length (pending k') < length (pending k).
Proof.
  unfold SSTIterator_NextEntry. destruct (pending k) as [|[x|x] rest] eqn:Hp; [done| |done].
  intros [= <- <-]. simpl. lia.
Qed.

Lemma SSTIterator_NextEntry_End (k k' : SSTIterator) :
  SSTIterator_NextEntry k = (End_, k') -> k' = k /\ pending k = [].
Proof.
  unfold SSTIterator_NextEntry. destruct (pending k) as [|[x|x] rest] eqn:Hp; [|done|done].
  by intros [= <-].
Qed.

Lemma slatedb_SSTListIterator_Next_Some (l l' : SSTListIterator) (sst : Handle) :
  SSTListIterator_Next l = (Some sst, l') ->
  drop (current l) (sstList l) = sst :: drop (current l') (sstList l').
Proof.
  unfold SSTListIterator_Next.
  destruct (Nat.leb_spec (length (sstList l)) (current l)); [done|].
  intros [= Hl <-]. simpl. rewrite Nat.add_1_r. by apply drop_S.
Qed.

Lemma slatedb_NextEntry_work (it it' : SortedRunIterator) (e : KeyValueDeletable) :
  NextEntry newSSTIterator it = (Got e, it') ->
  work newSSTIterator it' < work newSSTIterator it.
Proof.
  funelim (NextEntry newSSTIterator it); try (intros [=]; fail).
  - intros [= <- <-]. unfold work, with_current. simpl.
    match goal with
    | Hc : currentKVIter _ = Some _, Hn : SSTIterator_NextEntry _ = _ |- _ =>
        rewrite Hc; apply SSTIterator_NextEntry_Got in Hn
    end.
    lia.
  - intros Hrec.
    match goal with
    | IH : forall _ _, NextEntry _ _ = _ -> _ |- _ => specialize (IH _ _ Hrec)
    end.
    match goal with
    | Hn : SSTIterator_NextEntry _ = (End_, _) |- _ =>
        apply SSTIterator_NextEntry_End in Hn as [-> Hp]
    end.
    match goal with
    | Hl : SSTListIterator_Next _ = _ |- _ =>
        pose proof (slatedb_SSTListIterator_Next_Some _ _ _ Hl) as Hl3
    end.
    match goal with
    | Hc : currentKVIter _ = Some _ |- _ =>
        unfold work in *; simpl in *; rewrite Hc, Hp, Hl3; simpl;
        unfold work_of_sst in *
    end.
    lia.
Qed.

Lemma slatedb_Next_fuel_skipping (fuel : nat) (it : SortedRunIterator) :
  Next_fuel newSSTIterator fuel it
  = skipping pulled_item (NextEntry newSSTIterator) (fun e => isTombstone (valueDel e))
             (fun e => Got (to_KeyValue e)) (pulled_map to_KeyValue) fuel it.
Proof.
  revert it. induction fuel as [|fuel IH]; intros it; [done|].
  simpl. destruct (NextEntry newSSTIterator it) as [[e| |x] it1]; simpl; [|done|done].
  destruct (isTombstone (valueDel e)); [apply IH|done].
Qed.

Lemma slatedb_NextEntry_step_work s r a s' :
  NextEntry newSSTIterator s = (r, s') -> pulled_item r = Some a ->
  work newSSTIterator s' < work newSSTIterator s.
Proof.
  intros Hs Hr. destruct r as [e| |x]; simpl in Hr; [|done|done].
  by eapply slatedb_NextEntry_work.
Qed.


Lemma slatedb_pairs_of (it : SortedRunIterator) :
  exists es stop it',
    entries_of newSSTIterator it = Some (es, stop, it') /\
    pulled_item stop = None /\
    pairs_of newSSTIterator it
    = Some (List.map to_KeyValue (List.filter live es), pulled_map to_KeyValue stop, it') /\
    (fst (Next newSSTIterator it) = End_ <-> List.filter live es = [] /\ stop = End_).
Proof.
  unfold entries_of, pairs_of.
  destruct (drain_enough pulled_item (NextEntry newSSTIterator) (work newSSTIterator)
              slatedb_NextEntry_step_work
              (S (work newSSTIterator it)) it) as [[[es st] it'] Hd]; [lia|].
  pose proof (drain_stop_item _ _ _ _ _ _ _ Hd) as Hst.
  exists es, st, it'. split; [exact Hd|]. split; [exact Hst|].
  assert (Hp : drain pulled_item (Next newSSTIterator) (S (work newSSTIterator it)) it
               = Some (List.map to_KeyValue (List.filter live es),
                       pulled_map to_KeyValue st, it')).
  { eapply (drain_next_filter pulled_item (NextEntry newSSTIterator)
              (fun e => isTombstone (valueDel e)) to_KeyValue Got
              (pulled_map to_KeyValue) pulled_item
              (work newSSTIterator) (Next newSSTIterator) End_
              slatedb_NextEntry_step_work); [done| | |exact Hd].
    - intros [e| |x]; done.
    - intros s. unfold Next. by rewrite slatedb_Next_fuel_skipping. }
  split; [exact Hp|].
  simpl in Hp. destruct (Next newSSTIterator it) as [r it1]. simpl.
  destruct r as [c| |x]; simpl in Hp.
  - destruct (drain pulled_item _ _ it1) as [[[l st1] s2]|]; [|done].
    injection Hp as Hl _ _. split; [done|]. intros [Hnil _].
    rewrite Hnil in Hl. done.
  - injection Hp as Hl Hs _. split; [|done]. intros _.
    symmetry in Hl. apply map_eq_nil in Hl. split; [done|].
    destruct st; done.
  - injection Hp as Hl Hs _. split; [done|]. intros [_ ->]. done.
Qed.

End SlatedbIterFacts.

(** On the sample run, [Next] yields the two puts, the empty value among
    them, and passes over the two deletes. *)
Example sample_iterator_pairs :
  compaction_iter.entries_of sample_NewIterator sample_iterator
  = Some ([types.put_entry "b" (Some "1"); types.tombstone_entry "c";
           types.tombstone_entry "d"; types.put_entry "e" (Some "")],
          None,
          compaction_iter.mkSortedRunIterator
            (Some (compaction_iter.mkIterator [] []))
            (compaction_iter.mkSSTListIterator sample_run 3) []) /\
  compaction_iter.pairs_of sample_NewIterator sample_iterator
  = Some ([types.mkKeyValue "b" (Some "1"); types.mkKeyValue "e" (Some "")],
          None,
          compaction_iter.mkSortedRunIterator
            (Some (compaction_iter.mkIterator [] []))
            (compaction_iter.mkSSTListIterator sample_run 3) []).
Proof. split; vm_compute; reflexivity. Qed.

(** ** The WAL flush *)

Section FlushFacts.

Import types table state flush.

Context {B : Type} `{Bucket B} {Bld : Type} `{SSTBuilder Bld}.

Lemma flushImmTable_loop_nil (b : Bld) :
  flushImmTable_loop b (mkKVTableIterator []) = Ok b.
Proof. simp flushImmTable_loop. reflexivity. Qed.

Lemma flushImmTable_loop_cons (b : Bld) (e : RowEntry) (l : list RowEntry) :
  flushImmTable_loop b (mkKVTableIterator (e :: l))
  = match AddValue b (Key e) (builder_value e) with
    | Err err => Err err
    | Ok b' => flushImmTable_loop b' (mkKVTableIterator l)
    end.
Proof.
  simp flushImmTable_loop. simpl. unfold builder_value.
  destruct (AddValue _ _ _); reflexivity.
Qed.


Lemma flushImmWALToMemtable_loop_nil (m : Memtable) :
  flushImmWALToMemtable_loop (mkKVTableIterator []) m = m.
Proof. simp flushImmWALToMemtable_loop. reflexivity. Qed.

Lemma flushImmWALToMemtable_loop_cons (e : RowEntry) (l : list RowEntry) (m : Memtable) :
  flushImmWALToMemtable_loop (mkKVTableIterator (e :: l)) m
  = flushImmWALToMemtable_loop (mkKVTableIterator l) (Memtable_Put e m).
Proof.
  etransitivity; [apply flushImmWALToMemtable_loop_equation_1|]. reflexivity.
Qed.

(** The replay puts the entries as they are, in order. *)
Lemma flushImmWALToMemtable_loop_fold (l : list RowEntry) (m : Memtable) :
  flushImmWALToMemtable_loop (mkKVTableIterator l) m
  = fold_left (fun m e => Memtable_Put e m) l m.
Proof.
  revert m. induction l as [|e l IH]; intros m.
  - apply flushImmWALToMemtable_loop_nil.
  - rewrite flushImmWALToMemtable_loop_cons. apply IH.
Qed.

Lemma flushImmWALs_rest_queue (w : ImmutableWAL) (db : DB B) :
  immWALs (state_ (flushImmWALs_rest w db)) = tail (immWALs (state_ db)).
Proof.
  unfold flushImmWALs_rest, maybeFreezeMemtable. simpl.
  destruct (_ <? _)%N; reflexivity.
Qed.



End FlushFacts.




(** The same for the empty non-nil value, with a builder that reads the
    bytes of the value only. *)
Lemma flushImmTable_empty_slice_as_tombstone {B : Type} `{Bucket B}
    {Bld : Type} `{SSTBuilder Bld}
    (ts : TableStore B) (ctx : Context) (id : ID) (k : bytes) :
  (forall (b : Bld) key, AddValue b key (Some "") = AddValue b key None) ->
  flush.flushImmTable ts ctx id (table.mkKVTableIterator [types.put_entry k (Some "")])
  = flush.flushImmTable ts ctx id (table.mkKVTableIterator [types.tombstone_entry k]).
Proof.
  intros Hlen. unfold flush.flushImmTable.
  rewrite !flushImmTable_loop_cons. unfold builder_value. simpl.
  by rewrite Hlen.
Qed.

(** After [Put(key1, nil); FlushWAL] and after [Delete(key1); FlushWAL] the
    object store holds the same WAL SST, while the memtable still tells the
    put from the delete. *)
Example FlushWAL_nil_put_and_delete :
  objects (bucket (flush.tableStore (snd (flush.FlushWAL Background nil_put_db))))
  = objects (bucket (flush.tableStore (snd (flush.FlushWAL Background delete_db)))) /\
  table.KVTable_get "key1"
    (table.mem_table (state.memtable (flush.state_ (snd (flush.FlushWAL Background nil_put_db)))))
  = Some (types.mkValue None types.KindKeyValue) /\
  table.KVTable_get "key1"
    (table.mem_table (state.memtable (flush.state_ (snd (flush.FlushWAL Background delete_db)))))
  = Some (types.mkValue None types.KindTombStone).
Proof. vm_compute. repeat split. Qed.

(** The replay into the memtable keeps an empty value as a value. *)
Example FlushWAL_empty_put_in_memtable :
  table.KVTable_get "key1"
    (table.mem_table (state.memtable (flush.state_ (snd (flush.FlushWAL Background empty_put_db)))))
  = Some (types.mkValue (Some "") types.KindKeyValue).
Proof. vm_compute. reflexivity. Qed.

(** A failed upload ends the loop with the ImmutableWAL still queued and
    not notified. *)
Example flushImmWALs_failed_upload :
  let r := flush.FlushWAL Background failing_upload_db in
  fst r = Some ErrObjectStore /\
  List.map table.iw_id (state.immWALs (flush.state_ (snd r))) = [1%N] /\
  List.map flush.ev_step (flush.history (snd r))
  = [flush.StepFreezeWAL; flush.StepWriteSSTFailed 1].
Proof. vm_compute. repeat split. Qed.

Section FlushTask.

Import flush.

Context {B : Type} `{Bucket B} {Bld : Type} `{SSTBuilder Bld}.

Lemma walFlushTask_ticks (n : nat) (db : DB B) :
  walFlushTask (repeat Tick n) db = (Selecting, serve_ticks n db, []).
Proof.
  revert db. induction n as [|n IH]; intros db; [reflexivity|].
  simpl. apply IH.
Qed.

Lemma walFlushTask_ticks_then (n : nat) (wakes : list Wake) (db : DB B) :
  walFlushTask (repeat Tick n ++ wakes) db = walFlushTask wakes (serve_ticks n db).
Proof.
  revert db. induction n as [|n IH]; intros db; [reflexivity|].
  simpl. apply IH.
Qed.

Lemma wakes_split (wakes : list Wake) :
  (exists n, wakes = repeat Tick n) \/
  (exists n ctx rest, wakes = repeat Tick n ++ Notified ctx :: rest).
Proof.
  induction wakes as [|[|ctx] wakes IH].
  - left. by exists 0.
  - destruct IH as [[n ->]|(n & ctx & rest & ->)].
    + left. by exists (S n).
    + right. by exists (S n), ctx, rest.
  - right. by exists 0, ctx, wakes.
Qed.

End FlushTask.

(** C4 (as amended).  The loop of the WAL flush task returns exactly when
    it is woken through the notifier channel: a ticker wake performs the
    freeze-and-drain and the loop selects again; any wake through the
    channel, which carries nothing but the context of the request, performs
    the freeze-and-drain once more and ends the task, leaving later wakes
    unserved. *)
Theorem walFlushTask_returns_on_channel_wake {B : Type} `{Bucket B}
    {Bld : Type} `{SSTBuilder Bld} (db : flush.DB B) :
  (forall n, flush.walFlushTask (repeat flush.Tick n) db
             = (flush.Selecting, serve_ticks n db, [])) /\
  (forall n ctx rest,
     flush.walFlushTask (repeat flush.Tick n ++ flush.Notified ctx :: rest) db
     = (flush.Returned,
        flush.warnFlushFailed (flush.FlushWAL ctx (serve_ticks n db)),
        rest)) /\
  (forall wakes,
     (exists n, wakes = repeat flush.Tick n) \/
     (exists n ctx rest, wakes = repeat flush.Tick n ++ flush.Notified ctx :: rest)).
Proof.
  split; [|split].
  - intros n. apply walFlushTask_ticks.
  - intros n ctx rest. rewrite walFlushTask_ticks_then. reflexivity.
  - apply wakes_split.
Qed.

(** C4, counterexample: a request delivered through the channel is served
    and the task returns; the tick that follows is never served. *)
Lemma walFlushTask_channel_wake_ends_loop :
  let '(status, db', unserved) :=
    flush.walFlushTask [flush.Notified Background; flush.Tick] one_put_db in
  status = flush.Returned /\
  unserved = [flush.Tick] /\
  flush.history db' = flush.mkEvent flush.StepFreezeWAL [1%N] :: flushed_events 1 [].
Proof.
  vm_compute. repeat split.
Qed.

(** ** [writeManifestSafely] *)

Section FlusherFacts.

Import state flush flusher.

Context {B : Type} `{Bucket B} {Bld : Type} `{SSTBuilder Bld} {M : Type} `{Manifest M}.

Implicit Types m : MemtableFlusher B M.

Lemma writeManifestSafely_returns_iff (fuel : nat) m (r : option error) m' :
  writeManifestSafely fuel m = Some (r, m') <->
  exists k, k < fuel /\
    (forall j, j < k -> fst (writeManifestSafely_round (after_rounds j m)) = Retry) /\
    writeManifestSafely_round (after_rounds k m) = (Return r, m').
Proof.
  revert m. induction fuel as [|fuel IH]; intros m; simpl.
  - split; [done|]. intros (k & Hk & _). lia.
  - destruct (writeManifestSafely_round m) as [[|err] m1] eqn:Hround.
    + rewrite IH. split.
      * intros (k & Hk & Hretry & Hret). exists (S k). split; [lia|].
        simpl. rewrite Hround. simpl. split; [|done].
        intros [|j] Hj; simpl; [by rewrite Hround|].
        rewrite Hround. simpl. apply Hretry. lia.
      * intros ([|k] & Hk & Hretry & Hret); simpl in Hret.
        { rewrite Hround in Hret. done. }
        rewrite Hround in Hret. simpl in Hret.
        exists k. split; [lia|]. split; [|done].
        intros j Hj. specialize (Hretry (S j) ltac:(lia)).
        simpl in Hretry. by rewrite Hround in Hretry.
    + split.
      * intros [= <- <-]. exists 0. split; [lia|]. split; [intros; lia|done].
      * intros ([|k] & Hk & Hretry & Hret); simpl in Hret.
        { rewrite Hround in Hret. by injection Hret as <- <-. }
        specialize (Hretry 0 ltac:(lia)). simpl in Hretry.
        by rewrite Hround in Hretry.
Qed.

Lemma writeManifestSafely_round_nil m m' :
  writeManifestSafely_round m = (Return None, m') <-> write_succeeds m m'.
Proof.
  unfold writeManifestSafely_round, loadManifest, writeManifest, write_succeeds.
  destruct (Refresh (manifest m)) as [[current|e] manifest1]; simpl.
  - destruct (UpdateDBState manifest1 _) as [[e|] manifest2] eqn:Hu; simpl.
    + split.
      * destruct (errors_Is e ErrAlreadyExists); done.
      * intros (c & m1 & m2 & [= <- <-] & Hu' & _). simpl in *. congruence.
    + split.
      * intros [= <-]. exists current, manifest1, manifest2. done.
      * intros (c & m1 & m2 & [= <- <-] & Hu' & ->). simpl in *.
        rewrite Hu in Hu'. by injection Hu' as <-.
  - split; [done|]. intros (c & m1 & m2 & Hr & _). done.
Qed.

End FlusherFacts.

(** C5.  A round of [writeManifestSafely] refreshes the manifest and then
    calls [UpdateDBState] with the core of the refreshed state.  An error
    of the refresh is returned as it is; a write that fails with
    [ErrAlreadyExists] starts another round, which refreshes again; any
    other error of the write is returned as it is; a write that succeeds
    makes it return nil.  It returns nil exactly when the write of some
    round succeeds, all rounds before having ended in [ErrAlreadyExists]. *)
Theorem writeManifestSafely_retries_on_AlreadyExists {B : Type} `{Bucket B}
    {Bld : Type} `{SSTBuilder Bld} {M : Type} `{Manifest M}
    (m : flusher.MemtableFlusher B M) (fuel : nat) :
  match Refresh (flusher.manifest m) with
  | (Err e, manifest1) =>
      flusher.writeManifestSafely (S fuel) m
      = Some (Some e, flusher.mkMemtableFlusher (flusher.db m) manifest1)
  | (Ok current, manifest1) =>
      let db1 := flush.with_state (flusher.db m)
                   (state.RefreshDBState (flush.state_ (flusher.db m)) current) in
      match UpdateDBState manifest1 (state.core (flush.state_ db1)) with
      | (None, manifest2) =>
          flusher.writeManifestSafely (S fuel) m
          = Some (None, flusher.mkMemtableFlusher db1 manifest2)
      | (Some e, manifest2) =>
          if errors_Is e ErrAlreadyExists then
            flusher.writeManifestSafely (S fuel) m
            = flusher.writeManifestSafely fuel
                (flusher.mkMemtableFlusher
                   (flush.Warn "conflicting manifest version. retry write" db1)
                   manifest2)
          else
            flusher.writeManifestSafely (S fuel) m
            = Some (Some e, flusher.mkMemtableFlusher db1 manifest2)
      end
  end /\
  (forall m',
     flusher.writeManifestSafely fuel m = Some (None, m') <->
     exists k, k < fuel /\
       (forall j, j < k ->
          fst (flusher.writeManifestSafely_round (flusher.after_rounds j m))
          = flusher.Retry) /\
       write_succeeds (flusher.after_rounds k m) m') /\
  (forall k,
     k < fuel ->
     (forall j, j < k ->
        fst (flusher.writeManifestSafely_round (flusher.after_rounds j m))
        = flusher.Retry) ->
     fst (flusher.writeManifestSafely_round (flusher.after_rounds k m))
     <> flusher.Retry ->
     exists r, flusher.writeManifestSafely fuel m = Some r).
Proof.
  split; [|split].
  - simpl. unfold flusher.writeManifestSafely_round, flusher.loadManifest,
      flusher.writeManifest.
    destruct (Refresh (flusher.manifest m)) as [[current|e] manifest1]; simpl; [|done].
    destruct (UpdateDBState manifest1 _) as [[e|] manifest2]; simpl; [|done].
    destruct (errors_Is e ErrAlreadyExists); done.
  - intros m'. rewrite writeManifestSafely_returns_iff.
    split; intros (k & Hk & Hretry & Hret); exists k; (split; [done|]); (split; [done|]).
    + by apply writeManifestSafely_round_nil.
    + by apply writeManifestSafely_round_nil.
  - intros k Hk Hretry Hstop.
    destruct (flusher.writeManifestSafely_round (flusher.after_rounds k m))
      as [[|r] m'] eqn:Hround; [done|].
    exists (r, m'). apply writeManifestSafely_returns_iff. eauto.
Qed.

(** With another writer landing one generation during the first round, the
    first write fails with [ErrAlreadyExists] and the second round succeeds. *)
Lemma writeManifestSafely_retries_on_AlreadyExists_witness :
  exists m',
    flusher.writeManifestSafely 2 (sample_flusher contended_manifest) = Some (None, m') /\
    flush.log (flusher.db m') = ["conflicting manifest version. retry write"].
Proof.
  pose proof (writeManifestSafely_retries_on_AlreadyExists
                (sample_flusher contended_manifest) 1) as [Hround _].
  vm_compute in Hround.
  eexists. split; [exact Hround|]. reflexivity.
Defined.

(** A writer that lost its epoch gets [ErrFenced] back as it is, and a
    failed refresh its own error; neither is retried. *)
Example writeManifestSafely_fenced :
  option_map fst (flusher.writeManifestSafely 1 (sample_flusher fenced_manifest))
  = Some (Some ErrFenced).
Proof. vm_compute. reflexivity. Qed.

Example writeManifestSafely_refresh_failed :
  option_map fst
    (flusher.writeManifestSafely 1
       (sample_flusher (mkStoredManifest [core0] 1 false [] (Some ErrObjectStore))))
  = Some (Some ErrObjectStore).
Proof. vm_compute. reflexivity. Qed.

(** * Further properties *)

(** ** Sorted runs, sorted or not *)

Section SortedRunMore.

Implicit Types (l : list Handle) (k key : bytes).

(** What [sort.Search] has seen when it returns: the predicate was false
    just before the index it returns and true at it. *)
Lemma Search_loop_probes (f : nat -> outcome bool) (i j r : nat) :
  i <= j -> sort_pkg.Search_loop f i j = Ret r ->
  i <= r <= j /\
  (forall lo, lo <= i -> (lo < i -> f (i - 1) = Ret false) ->
     lo < r -> f (r - 1) = Ret false) /\
  (forall hi, j <= hi -> (j < hi -> f j = Ret true) -> r < hi -> f r = Ret true).
Proof.
  funelim (sort_pkg.Search_loop f i j); intros Hij Hr.
  - injection Hr as <-. split; [lia|]. split.
    + intros lo Hlo Hbefore Hlt. apply Hbefore. lia.
    + intros hi Hhi Hat Hlt. assert (i = j) as -> by lia. apply Hat. lia.
  - set (m := (i + j) / 2) in *.
    assert (Hm : i <= m < j).
    { subst m. split; [apply Nat.div_le_lower_bound; lia
                      |apply Nat.Div0.div_lt_upper_bound; lia]. }
    destruct (H r) as (Hb & Hlo & Hhi); [lia|done|].
    split; [lia|]. split.
    + exact Hlo.
    + intros hi Hhi' Hat Hlt. apply (Hhi j); [lia| |lia].
      intros _. exact Heq.
  - set (m := (i + j) / 2) in *.
    assert (Hm : i <= m < j).
    { subst m. split; [apply Nat.div_le_lower_bound; lia
                      |apply Nat.Div0.div_lt_upper_bound; lia]. }
    destruct (H r) as (Hb & Hlo & Hhi); [lia|done|].
    split; [lia|]. split.
    + intros lo Hlo' Hbefore Hlt. apply (Hlo i); [lia| |lia].
      intros _. replace (m + 1 - 1) with m by lia. exact Heq.
    + exact Hhi.
  - discriminate.
Qed.

Lemma first_above_mono k k' l :
  key_le k k' -> first_above k l <= first_above k' l.
Proof.
  intros Hle. induction l as [|h l IH]; cbn [first_above]; [lia|].
  destruct (bytes_pkg.Compare (FirstKey (Info_ h)) k' >? 0)%Z eqn:Hk'.
  - apply Compare_gtb_true in Hk'.
    assert (Hk : key_lt k (FirstKey (Info_ h))) by (by eapply key_le_lt_trans).
    apply Compare_gtb_true in Hk. rewrite Hk. lia.
  - destruct (bytes_pkg.Compare (FirstKey (Info_ h)) k >? 0)%Z; lia.
Qed.

(** The binary search, when it returns, returns the index of the first SST
    above the key, on any ascending list. *)
Lemma compaction_indexOfSSTWithKey_partial l k n r :
  first_keys_ascending l = true ->
  compaction.indexOfSSTWithKey (compaction.mkSortedRun n l) k = Ret r ->
  r = index_before (first_above k l).
Proof.
  intros Hasc. unfold compaction.indexOfSSTWithKey, sort_pkg.Search. simpl.
  set (s := compaction.mkSortedRun n l).
  destruct (sort_pkg.Search_loop _ 0 (length l)) as [x|msg] eqn:Hs; [|done].
  simpl. intros [= <-]. fold (index_before x). f_equal.
  destruct (Search_loop_probes _ _ _ _ (Nat.le_0_l _) Hs) as (Hb & Hlo & Hhi).
  specialize (Hlo 0 (Nat.le_refl _) ltac:(lia)).
  specialize (Hhi (length l) (Nat.le_refl _) ltac:(lia)).
  pose proof (first_above_le k l) as Hfa.
  destruct (Nat.lt_trichotomy x (first_above k l)) as [Hlt|[Heq|Hgt]]; [|done|].
  - (* the predicate is true at [x], yet [x] is before the first SST above *)
    specialize (Hhi ltac:(lia)).
    unfold compaction.firstKeyAfter in Hhi. simpl in Hhi.
    destruct (l !! x) as [h|] eqn:Hx; [|done].
    destruct (negb _); simpl in Hhi; [|done].
    injection Hhi as Hhi. apply Compare_gtb_true in Hhi.
    pose proof (first_above_before _ _ _ _ Hlt Hx) as Hle.
    by apply key_le_not_lt in Hle.
  - (* the predicate is false at [x - 1], which is at or after it *)
    specialize (Hlo ltac:(lia)).
    unfold compaction.firstKeyAfter in Hlo. simpl in Hlo.
    destruct (l !! (x - 1)) as [h|] eqn:Hx; [|done].
    destruct (negb _); simpl in Hlo; [|done].
    injection Hlo as Hlo. apply Compare_gtb_false in Hlo.
    assert (Hafter : key_lt k (FirstKey (Info_ h))).
    { apply (first_above_after k l (x - 1) h); [done|lia|done]. }
    by apply key_le_not_lt in Hlo.
Qed.

End SortedRunMore.

(** X1.  On any run of package [slatedb], sorted or not: when
    [indexOfSSTWithKey] gives an index, the run has an SST there,
    [sstWithKey] returns it, and its first key is at or below the key; when
    it gives none, the run is empty or the key is below the first key of the
    first SST, and [sstWithKey] gives none. *)
Theorem slatedb_sstWithKey_in_bounds (s : slatedb_sortedrun.SortedRun) (key : bytes) :
  match slatedb_sortedrun.indexOfSSTWithKey s key with
  | Some i =>
      exists h, slatedb_sortedrun.sstList s !! i = Some h /\
                slatedb_sortedrun.sstWithKey s key = Some h /\
                key_le (FirstKey (Info_ h)) key
  | None =>
      slatedb_sortedrun.sstWithKey s key = None /\
      below_first (slatedb_sortedrun.sstList s) key
  end.
Proof.
  destruct s as [n l]. unfold slatedb_sortedrun.sstWithKey.
  rewrite slatedb_indexOfSSTWithKey_eq. simpl.
  destruct (index_before (first_above key l)) as [i|] eqn:Hi.
  - unfold index_before in Hi.
    destruct (Nat.ltb_spec 0 (first_above key l)) as [Hpos|]; [|done].
    injection Hi as <-. pose proof (first_above_le key l) as Hfa.
    destruct (lookup_lt_is_Some_2 l (first_above key l - 1)) as [h Hh]; [lia|].
    exists h. split; [done|]. split; [done|].
    apply (first_above_before key l (first_above key l - 1) h); [lia|done].
  - split; [done|]. by apply index_before_None.
Qed.

(** X2.  On any run of package [compaction], sorted or not: when the
    binary search gives an index, the run has an SST there, [SstWithKey]
    returns it, and that SST has a first key, at or below the key; a panic
    of the search is the panic of [SstWithKey], and no index gives no SST. *)
Theorem compaction_SstWithKey_in_bounds (s : compaction.SortedRun) (key : bytes) :
  match compaction.indexOfSSTWithKey s key with
  | Ret (Some i) =>
      exists h, compaction.SSTList s !! i = Some h /\
                compaction.SstWithKey s key = Ret (Some h) /\
                FirstKey (Info_ h) <> "" /\
                key_le (FirstKey (Info_ h)) key
  | Ret None => compaction.SstWithKey s key = Ret None
  | Panic msg => compaction.SstWithKey s key = Panic msg
  end.
Proof.
  unfold compaction.SstWithKey.
  destruct (compaction.indexOfSSTWithKey s key) as [[i|]|msg] eqn:Hidx; simpl; [|done|done].
  unfold compaction.indexOfSSTWithKey, sort_pkg.Search in Hidx.
  destruct (sort_pkg.Search_loop _ 0 _) as [x|msg] eqn:Hs; [|done].
  simpl in Hidx. destruct (Nat.ltb_spec 0 x) as [Hpos|]; [|done].
  injection Hidx as <-.
  destruct (Search_loop_probes _ _ _ _ (Nat.le_0_l _) Hs) as (Hb & Hlo & _).
  specialize (Hlo 0 (Nat.le_refl _) ltac:(lia) Hpos).
  unfold compaction.firstKeyAfter in Hlo.
  destruct (compaction.SSTList s !! (x - 1)) as [h|] eqn:Hx; [|done].
  exists h. split; [done|]. split; [done|].
  destruct (FirstKey (Info_ h)) as [|c fk] eqn:Hfk; simpl in Hlo; [done|].
  split; [done|]. injection Hlo as Hlo. by apply Compare_gtb_false.
Qed.

(** X3.  A larger key never locates an earlier SST: on any run of package
    [slatedb], if [k] is at or below [k'] then the index found for [k] is at
    or below the one found for [k'], and [k'] finds an SST whenever [k]
    does. *)
Theorem slatedb_indexOfSSTWithKey_monotone (s : slatedb_sortedrun.SortedRun)
    (k k' : bytes) :
  key_le k k' ->
  match slatedb_sortedrun.indexOfSSTWithKey s k,
        slatedb_sortedrun.indexOfSSTWithKey s k' with
  | Some i, Some i' => i <= i'
  | Some _, None => False
  | None, _ => True
  end.
Proof.
  intros Hle. destruct s as [n l]. rewrite !slatedb_indexOfSSTWithKey_eq.
  pose proof (first_above_mono k k' l Hle) as Hmono. unfold index_before.
  destruct (Nat.ltb_spec 0 (first_above k l)); [|done].
  destruct (Nat.ltb_spec 0 (first_above k' l)); lia.
Qed.

Lemma slatedb_indexOfSSTWithKey_monotone_witness :
  match slatedb_sortedrun.indexOfSSTWithKey (slatedb_sortedrun.mkSortedRun 0 sample_run) "c",
        slatedb_sortedrun.indexOfSSTWithKey (slatedb_sortedrun.mkSortedRun 0 sample_run) "e" with
  | Some i, Some i' => i <= i'
  | Some _, None => False
  | None, _ => True
  end.
Proof.
  apply (slatedb_indexOfSSTWithKey_monotone (slatedb_sortedrun.mkSortedRun 0 sample_run) "c" "e").
  unfold key_le. vm_compute. discriminate.
Defined.

(** X4.  On an ascending run, whenever the binary search of package
    [compaction] returns, it returns what the linear scan of package
    [slatedb] returns, also when some SST it did not probe has no first
    key. *)
Theorem indexOfSSTWithKey_agree_when_returning (l : list Handle) (k : bytes)
    (n m : N) (r : option nat) :
  first_keys_ascending l = true ->
  compaction.indexOfSSTWithKey (compaction.mkSortedRun m l) k = Ret r ->
  r = slatedb_sortedrun.indexOfSSTWithKey (slatedb_sortedrun.mkSortedRun n l) k.
Proof.
  intros Hasc Hr. rewrite slatedb_indexOfSSTWithKey_eq.
  by eapply compaction_indexOfSSTWithKey_partial.
Qed.

Lemma indexOfSSTWithKey_agree_when_returning_witness :
  Some 1 = slatedb_sortedrun.indexOfSSTWithKey
             (slatedb_sortedrun.mkSortedRun 0 keyless_head_run) "z".
Proof.
  apply (indexOfSSTWithKey_agree_when_returning keyless_head_run "z" 0 0 (Some 1));
    reflexivity.
Defined.

(** ** What the sorted-run iterators yield *)

Section CompactionRunContents.

Import types compaction_iter.

Variable NewIterator : Handle -> result Iterator.

Lemma unopened_Next_Some (it it' : SortedRunIterator) (sst : Handle) :
  SSTListIterator_Next (sstListIter it) = (Some sst, sstListIter it') ->
  unopened it = sst :: unopened it'.
Proof. intros Hn. unfold unopened. by apply SSTListIterator_Next_Some. Qed.

Lemma unopened_Next_None (it it' : SortedRunIterator) :
  SSTListIterator_Next (sstListIter it) = (None, sstListIter it') ->
  unopened it = [] /\ unopened it' = [].
Proof.
  unfold SSTListIterator_Next, unopened.
  destruct (Nat.leb_spec (length (sstList (sstListIter it)))
                         (current (sstListIter it))) as [Hle|Hlt].
  - intros [= <-]. split; by apply drop_ge.
  - intros [= Hl _]. apply lookup_ge_None in Hl. lia.
Qed.

(** One call of [NextEntry]: an entry is the head of what remains, and the
    end is reported when nothing remains before the next SST that cannot be
    opened, with the list iterator then past that SST. *)
Lemma NextEntry_remaining (it it' : SortedRunIterator) (r : option RowEntry) :
  NextEntry NewIterator it = (r, it') ->
  match r with
  | Some e =>
      remaining NewIterator it = e :: remaining NewIterator it' /\
      after_failure NewIterator (unopened it') = after_failure NewIterator (unopened it) /\
      is_Some (currentKVIter it')
  | None =>
      remaining NewIterator it = [] /\
      (is_Some (currentKVIter it) ->
       (exists kv, currentKVIter it' = Some kv /\ pending kv = []) /\
       unopened it' = after_failure NewIterator (unopened it))
  end.
Proof.
  revert r it'. funelim (NextEntry NewIterator it); intros r it';
    repeat match goal with
           | Hn : Iterator_NextEntry _ = (None, _) |- _ =>
               apply Iterator_NextEntry_None in Hn as [-> Hp]
           end.
  - (* no current SST iterator *)
    intros [= <- <-]. unfold remaining.
    match goal with Hc : currentKVIter _ = None |- _ => rewrite Hc end.
    split; [done|]. by intros [? [=]].
  - (* the current SST iterator has an entry *)
    intros [= <- <-]. unfold remaining, with_current, unopened. simpl.
    match goal with
    | Hc : currentKVIter _ = Some _, Hn : Iterator_NextEntry _ = _ |- _ =>
        rewrite Hc; unfold Iterator_NextEntry in Hn;
        destruct (pending kvIter) as [|x rest] eqn:Hp; [done|];
        injection Hn as <- <-
    end.
    simpl. by eauto.
  - (* no SST is left *)
    intros [= <- <-].
    set (it1 := mkSortedRunIterator _ _ _).
    match goal with
    | Hn : SSTListIterator_Next _ = (None, _) |- _ =>
        destruct (unopened_Next_None it it1 Hn) as [Hu Hu']
    end.
    unfold remaining.
    match goal with Hc : currentKVIter _ = Some _ |- _ => rewrite Hc end.
    rewrite Hp, Hu. simpl.
    split; [done|]. intros _. split; [by eexists|]. exact Hu'.
  - (* the next SST opens *)
    intros Hrec.
    match goal with
    | IH : forall _ _, NextEntry _ _ = _ -> _ |- _ => specialize (IH _ _ Hrec); rename IH into IHn
    end.
    set (it1 := mkSortedRunIterator _ _ _) in *.
    match goal with
    | Hn : SSTListIterator_Next _ = (Some _, _) |- _ =>
        pose proof (unopened_Next_Some it it1 _ Hn) as Hit
    end.
    assert (Hrem : remaining NewIterator it = remaining NewIterator it1).
    { unfold remaining at 1.
      match goal with Hc : currentKVIter _ = Some _ |- _ => rewrite Hc end.
      rewrite Hp, Hit. simpl.
      match goal with Ho : NewIterator _ = Ok _ |- _ => by rewrite Ho end. }
    assert (Haf : after_failure NewIterator (unopened it)
                  = after_failure NewIterator (unopened it1)).
    { rewrite Hit. simpl.
      match goal with Ho : NewIterator _ = Ok _ |- _ => by rewrite Ho end. }
    rewrite Hrem, Haf. destruct r as [e0|]; [exact IHn|].
    destruct IHn as [H1 H2]. split; [done|]. intros _. apply H2. by eexists.
  - (* the next SST does not open *)
    intros [= <- <-].
    set (it1 := mkSortedRunIterator _ _ _).
    match goal with
    | Hn : SSTListIterator_Next _ = (Some _, _) |- _ =>
        pose proof (unopened_Next_Some it it1 _ Hn) as Hit
    end.
    unfold remaining.
    match goal with Hc : currentKVIter _ = Some _ |- _ => rewrite Hc end.
    rewrite Hp, Hit. simpl.
    match goal with Ho : NewIterator _ = Err _ |- _ => rewrite Ho end.
    split; [done|]. intros _. split; [by eexists|]. reflexivity.
Qed.

End CompactionRunContents.
Section CompactionRunDrain.

Import types compaction_iter.

Variable NewIterator : Handle -> result Iterator.
Variable NewIteratorAtKey : Handle -> bytes -> result Iterator.

(** Calling [NextEntry] until it reports the end gives what remains, and
    leaves the iterator on an exhausted SST iterator, past the SST that
    could not be opened. *)
Lemma drain_NextEntry_remaining (n : nat) (it : SortedRunIterator) :
  work NewIterator it < n ->
  exists it',
    drain id (NextEntry NewIterator) n it = Some (remaining NewIterator it, None, it') /\
    (is_Some (currentKVIter it) ->
     (exists kv, currentKVIter it' = Some kv /\ pending kv = []) /\
     unopened it' = after_failure NewIterator (unopened it)).
Proof.
  revert it. induction n as [|n IH]; intros it Hw; [lia|].
  simpl. destruct (NextEntry NewIterator it) as [r it1] eqn:Hn.
  pose proof (NextEntry_remaining _ _ _ _ Hn) as Hr.
  destruct r as [e|]; simpl.
  - destruct Hr as (Hrem & Haf & Hcur).
    destruct (IH it1) as (it' & Hd & Hend).
    { pose proof (NextEntry_work _ _ _ _ Hn). lia. }
    rewrite Hd, Hrem. exists it'. split; [done|]. intros _.
    destruct (Hend Hcur) as [Hkv Hun]. split; [done|]. congruence.
  - destruct Hr as [Hrem Hend]. rewrite Hrem. by exists it1.
Qed.

Lemma entries_of_remaining (it : SortedRunIterator) :
  exists it',
    entries_of NewIterator it = Some (remaining NewIterator it, None, it') /\
    pairs_of NewIterator it
    = Some (List.map to_KeyValue (List.filter live (remaining NewIterator it)), None, it') /\
    (is_Some (currentKVIter it) ->
     remaining NewIterator it'
     = entries_until_failure NewIterator (after_failure NewIterator (unopened it))).
Proof.
  destruct (drain_NextEntry_remaining (S (work NewIterator it)) it) as (it' & Hd & Hend);
    [lia|].
  destruct (compaction_pairs_of NewIterator it) as (es & it2 & He & Hp & _).
  unfold entries_of in *. rewrite Hd in He. injection He as <- <-.
  exists it'. split; [done|]. split; [done|].
  intros Hcur. destruct (Hend Hcur) as [(kv & Hkv & Hpend) Hun].
  unfold remaining. by rewrite Hkv, Hpend, Hun.
Qed.

(** What [newSortedRunIter] leaves to read. *)
Lemma newSortedRunIter_nil (fromKey : option bytes) :
  exists it,
    newSortedRunIter NewIterator NewIteratorAtKey [] fromKey = Ok it /\
    currentKVIter it = None /\ remaining NewIterator it = [].
Proof. eexists. split; [reflexivity|]. done. Qed.

Lemma newSortedRunIter_cons (sst : Handle) (rest : list Handle) (fromKey : option bytes) :
  match (match fromKey with
         | Some key => NewIteratorAtKey sst key
         | None => NewIterator sst
         end) with
  | Ok kv =>
      exists it,
        newSortedRunIter NewIterator NewIteratorAtKey (sst :: rest) fromKey = Ok it /\
        currentKVIter it = Some kv /\ unopened it = rest
  | Err e => newSortedRunIter NewIterator NewIteratorAtKey (sst :: rest) fromKey = Err e
  end.
Proof.
  unfold newSortedRunIter. simpl.
  destruct (match fromKey with Some _ => _ | None => _ end) as [kv|e]; [|done].
  eexists. split; [reflexivity|]. done.
Qed.

End CompactionRunDrain.

(** X5.  A sorted-run iterator of package [compaction] opened on a run
    yields, call after call of [NextEntry], the entries of the SSTs of the
    run in order, up to the first SST that cannot be opened, and then
    reports the end; [Next] yields the same without the tombstones, as
    key-value pairs.  Opening fails only when the first SST of the run
    cannot be opened. *)
Theorem NewSortedRunIterator_reads_until_failure
    (NewIterator : Handle -> result compaction_iter.Iterator)
    (NewIteratorAtKey : Handle -> bytes -> result compaction_iter.Iterator)
    (sr : compaction.SortedRun) :
  match compaction_iter.NewSortedRunIterator NewIterator NewIteratorAtKey sr with
  | Ok it =>
      exists it',
        compaction_iter.entries_of NewIterator it
        = Some (entries_until_failure NewIterator (compaction.SSTList sr), None, it') /\
        compaction_iter.pairs_of NewIterator it
        = Some (List.map compaction_iter.to_KeyValue
                  (List.filter compaction_iter.live
                     (entries_until_failure NewIterator (compaction.SSTList sr))),
                None, it')
  | Err e =>
      exists sst rest, compaction.SSTList sr = sst :: rest /\ NewIterator sst = Err e
  end.
Proof.
  unfold compaction_iter.NewSortedRunIterator.
  destruct (compaction.SSTList sr) as [|sst rest].
  - destruct (newSortedRunIter_nil NewIterator NewIteratorAtKey None) as (it & -> & Hc & Hr).
    destruct (entries_of_remaining NewIterator it) as (it' & He & Hp & _).
    rewrite Hr in He, Hp. by exists it'.
  - pose proof (newSortedRunIter_cons NewIterator NewIteratorAtKey sst rest None) as Hn.
    simpl in Hn. destruct (NewIterator sst) as [kv|e] eqn:Ho.
    + destruct Hn as (it & -> & Hc & Hu).
      destruct (entries_of_remaining NewIterator it) as (it' & He & Hp & _).
      assert (Hr : remaining NewIterator it
                   = entries_until_failure NewIterator (sst :: rest)).
      { unfold remaining. rewrite Hc, Hu. simpl. by rewrite Ho. }
      rewrite Hr in He, Hp. by exists it'.
    + rewrite Hn. by exists sst, rest.
Qed.

(** X6.  The end reported at an SST that cannot be opened is not final:
    once [NextEntry] has reported the end, calling it again yields the
    entries of the SSTs after the one that failed, again up to the next SST
    that cannot be opened. *)
Theorem NextEntry_resumes_after_failed_open
    (NewIterator : Handle -> result compaction_iter.Iterator)
    (NewIteratorAtKey : Handle -> bytes -> result compaction_iter.Iterator)
    (sr : compaction.SortedRun) :
  match compaction_iter.NewSortedRunIterator NewIterator NewIteratorAtKey sr with
  | Ok it =>
      exists es it' it'',
        compaction_iter.entries_of NewIterator it = Some (es, None, it') /\
        compaction_iter.entries_of NewIterator it'
        = Some (entries_until_failure NewIterator
                  (after_failure NewIterator (compaction.SSTList sr)), None, it'')
  | Err _ => True
  end.
Proof.
  unfold compaction_iter.NewSortedRunIterator.
  destruct (compaction.SSTList sr) as [|sst rest].
  - destruct (newSortedRunIter_nil NewIterator NewIteratorAtKey None) as (it & -> & Hc & Hr).
    destruct (entries_of_remaining NewIterator it) as (it' & He & _ & _).
    exists [], it, it. rewrite Hr in He.
    assert (Hit : it' = it).
    { unfold compaction_iter.entries_of in He. simpl in He.
      rewrite compaction_iter.NextEntry_equation_1 in He. rewrite Hc in He.
      simpl in He. by injection He as <-. }
    subst it'. done.
  - pose proof (newSortedRunIter_cons NewIterator NewIteratorAtKey sst rest None) as Hn.
    simpl in Hn. destruct (NewIterator sst) as [kv|e] eqn:Ho.
    + destruct Hn as (it & -> & Hc & Hu).
      destruct (entries_of_remaining NewIterator it) as (it' & He & _ & Hnext).
      destruct (entries_of_remaining NewIterator it') as (it'' & He' & _ & _).
      exists (remaining NewIterator it), it', it''. split; [done|].
      rewrite He', Hnext by (by rewrite Hc). rewrite Hu. simpl. by rewrite Ho.
    + by rewrite Hn.
Qed.

(** The same on a store whose second SST cannot be read: the first pass
    ends after the first SST, the second pass reads the third. *)
Example NextEntry_resumes_sample :
  match compaction_iter.NewSortedRunIterator gapped_NewIterator sample_NewIteratorAtKey
          (compaction.mkSortedRun 0 sample_run) with
  | Ok it =>
      match compaction_iter.entries_of gapped_NewIterator it with
      | Some (es, _, it') =>
          es = [types.put_entry "b" (Some "1"); types.tombstone_entry "c"] /\
          option_map (fun x => fst (fst x)) (compaction_iter.entries_of gapped_NewIterator it')
          = Some [types.put_entry "f" (Some "3")] /\
          compaction_iter.warn it'
          = ["while creating SSTable iterator: read failed"]
      | None => False
      end
  | Err _ => False
  end.
Proof. vm_compute. repeat split. Qed.

Section FromKeyFacts.

Context {A : Type}.
Variable keyOf : A -> bytes.
Variable rows : Handle -> list A.

Lemma at_or_above_iff (key : bytes) (e : A) :
  at_or_above keyOf key e = true <-> key_le key (keyOf e).
Proof.
  unfold at_or_above, key_le, bytes_pkg.Compare.
  rewrite (String.compare_antisym (keyOf e) key).
  destruct (String.compare key (keyOf e)); cbv; split; congruence.
Qed.

Lemma at_or_above_false (key : bytes) (e : A) :
  key_lt (keyOf e) key -> at_or_above keyOf key e = false.
Proof. unfold at_or_above, key_lt. by intros ->. Qed.

Lemma key_lt_le (a b : bytes) : key_lt a b -> key_le a b.
Proof. unfold key_lt, key_le. by intros ->. Qed.

Lemma Compare_ltb_true (a b : bytes) :
  (bytes_pkg.Compare a b <? 0)%Z = true -> key_lt a b.
Proof.
  unfold key_lt, bytes_pkg.Compare. by destruct (String.compare a b).
Qed.

Lemma rows_within_lookup (l : list Handle) (j : nat) (h : Handle) (e : A) :
  rows_within keyOf rows l = true -> l !! j = Some h -> In e (rows h) ->
  key_le (FirstKey (Info_ h)) (keyOf e) /\
  (forall h', l !! S j = Some h' -> key_lt (keyOf e) (FirstKey (Info_ h'))).
Proof.
  revert j. induction l as [|x l IH]; intros j Hw Hj He; [done|].
  cbn [rows_within] in Hw. apply andb_true_iff in Hw as [Hx Hw].
  destruct j as [|j]; simpl in Hj.
  - injection Hj as ->. rewrite forallb_forall in Hx.
    apply Hx, andb_true_iff in He as [H1 H2].
    split; [by apply at_or_above_iff|].
    intros h' Hh'. destruct l as [|y l]; [done|]. injection Hh' as ->.
    by apply Compare_ltb_true.
  - by apply (IH j).
Qed.

Lemma filter_all {T : Type} (P : T -> bool) (xs : list T) :
  (forall x, In x xs -> P x = true) -> List.filter P xs = xs.
Proof.
  induction xs as [|x xs IH]; intros H; [done|]. simpl.
  rewrite (H x) by (by left). f_equal. apply IH. intros y Hy. apply H. by right.
Qed.

Lemma filter_none {T : Type} (P : T -> bool) (xs : list T) :
  (forall x, In x xs -> P x = false) -> List.filter P xs = [].
Proof.
  induction xs as [|x xs IH]; intros H; [done|]. simpl.
  rewrite (H x) by (by left). apply IH. intros y Hy. apply H. by right.
Qed.

Lemma filter_rows_all (P : A -> bool) (l : list Handle) :
  (forall j h e, l !! j = Some h -> In e (rows h) -> P e = true) ->
  List.filter P (List.concat (List.map rows l)) = List.concat (List.map rows l).
Proof.
  induction l as [|x l IH]; intros H; [done|]. simpl.
  rewrite List.filter_app, IH by (intros j; apply (H (S j))).
  f_equal. apply filter_all. intros e. by apply (H 0 x).
Qed.

Lemma filter_rows_none (P : A -> bool) (l : list Handle) :
  (forall j h e, l !! j = Some h -> In e (rows h) -> P e = false) ->
  List.filter P (List.concat (List.map rows l)) = [].
Proof.
  induction l as [|x l IH]; intros H; [done|]. simpl.
  rewrite List.filter_app, IH by (intros j; apply (H (S j))).
  rewrite app_nil_r. apply filter_none. intros e. by apply (H 0 x).
Qed.

(** The entries at or above [key] are those of the SST the search lands on
    that are, and all entries of the later SSTs. *)
Lemma filter_rows_split (l : list Handle) (key : bytes) (i : nat) (h : Handle) :
  first_keys_ascending l = true -> rows_within keyOf rows l = true ->
  l !! i = Some h -> first_above key l <= S i -> (i = 0 \/ i < first_above key l) ->
  List.filter (at_or_above keyOf key) (List.concat (List.map rows l))
  = List.filter (at_or_above keyOf key) (rows h) ++ List.concat (List.map rows (drop (S i) l)).
Proof.
  intros Hasc Hw Hi Hhi Hlo.
  rewrite <- (take_drop_middle l i h Hi) at 1.
  rewrite List.map_app, List.concat_app, List.filter_app. simpl.
  rewrite List.filter_app.
  rewrite filter_rows_none, filter_rows_all; [done| |].
  - intros j h' e Hj He. rewrite lookup_drop in Hj.
    apply at_or_above_iff, key_lt_le.
    destruct (rows_within_lookup l _ _ e Hw Hj He) as [Hle _].
    eapply key_lt_le_trans; [|exact Hle].
    apply (first_above_after key l (S i + j) h'); [done|lia|done].
  - intros j h' e Hj He. apply lookup_take_Some in Hj as [Hj Hji].
    apply at_or_above_false.
    destruct (lookup_lt_is_Some_2 l (S j)) as [h'' Hh''].
    { apply lookup_lt_Some in Hi. lia. }
    destruct (rows_within_lookup l _ _ e Hw Hj He) as [_ Hlt].
    eapply key_lt_le_trans; [by apply Hlt|].
    apply (first_above_before key l (S j) h''); [lia|done].
Qed.

End FromKeyFacts.

Lemma elem_of_drop_list {A : Type} (x : A) (n : nat) (l : list A) :
  x ∈ drop n l -> x ∈ l.
Proof.
  intros Hx. apply list_elem_of_lookup_1 in Hx as [j Hj].
  rewrite lookup_drop in Hj. by eapply list_elem_of_lookup_2.
Qed.

(** Where a seek starts reading: at the SST the search lands on, or at the
    first SST when the key is below the run; the entries at or above the
    key are those of that SST that are, and all entries of the SSTs after
    it. *)
Lemma seek_start_split {A : Type} (keyOf : A -> bytes) (rows : Handle -> list A)
    (l : list Handle) (key : bytes) :
  first_keys_ascending l = true -> rows_within keyOf rows l = true ->
  match (match index_before (first_above key l) with
         | Some idx => drop idx l
         | None => l
         end) with
  | [] => l = []
  | h :: rest =>
      h ∈ l /\ (forall sst, sst ∈ rest -> sst ∈ l) /\
      List.filter (at_or_above keyOf key) (List.concat (List.map rows l))
      = List.filter (at_or_above keyOf key) (rows h) ++ List.concat (List.map rows rest)
  end.
Proof.
  intros Hasc Hw. unfold index_before.
  destruct (Nat.ltb_spec 0 (first_above key l)) as [Hpos|Hzero].
  - pose proof (first_above_le key l) as Hle.
    destruct (lookup_lt_is_Some_2 l (first_above key l - 1)) as [h Hh]; [lia|].
    rewrite (drop_S _ _ _ Hh).
    split; [by eapply list_elem_of_lookup_2|].
    split; [intros sst Hsst; by eapply elem_of_drop_list|].
    apply (filter_rows_split keyOf); [done|done|done|lia|lia].
  - destruct l as [|h rest] eqn:Hl; [done|]. rewrite <- Hl in *.
    split; [rewrite Hl; by left|].
    split; [intros sst Hsst; rewrite Hl; by right|].
    replace rest with (drop 1 l) by (by rewrite Hl).
    apply (filter_rows_split keyOf); [done|done|by rewrite Hl|lia|by left].
Qed.

Lemma entries_until_failure_all
    (NewIterator : Handle -> result compaction_iter.Iterator)
    (rows : Handle -> list types.RowEntry) (l : list Handle) :
  (forall sst, sst ∈ l -> exists it, NewIterator sst = Ok it /\ compaction_iter.pending it = rows sst) ->
  entries_until_failure NewIterator l = List.concat (List.map rows l).
Proof.
  induction l as [|x l IH]; intros H; [done|]. simpl.
  destruct (H x) as (it & -> & ->); [by left|].
  f_equal. apply IH. intros sst Hsst. apply H. by right.
Qed.


(** X7.  [NewSortedRunIteratorFromKey] seeks: on a run sorted by first
    key, every SST with a first key, whose SSTs all open, hold their keys
    between their first key and the next SST's, and are opened at a key on
    their first entry at or above it, the iterator yields exactly the
    entries of the run whose key is at or above the key asked for, in the
    order of the run; [Next] yields those that are not tombstones. *)
Theorem NewSortedRunIteratorFromKey_seeks
    (NewIterator : Handle -> result compaction_iter.Iterator)
    (NewIteratorAtKey : Handle -> bytes -> result compaction_iter.Iterator)
    (rows : Handle -> list types.RowEntry)
    (sr : compaction.SortedRun) (key : bytes) :
  first_keys_ascending (compaction.SSTList sr) = true ->
  first_keys_nonempty (compaction.SSTList sr) = true ->
  rows_within types.Key rows (compaction.SSTList sr) = true ->
  (forall sst, sst ∈ compaction.SSTList sr ->
     exists it, NewIterator sst = Ok it /\ compaction_iter.pending it = rows sst) ->
  (forall sst, sst ∈ compaction.SSTList sr ->
     exists it, NewIteratorAtKey sst key = Ok it /\
                compaction_iter.pending it = List.filter (at_or_above types.Key key) (rows sst)) ->
  exists it it',
    compaction_iter.NewSortedRunIteratorFromKey NewIterator NewIteratorAtKey sr key
    = Ret (Ok it) /\
    compaction_iter.entries_of NewIterator it
    = Some (List.filter (at_or_above types.Key key)
              (List.concat (List.map rows (compaction.SSTList sr))), None, it') /\
    compaction_iter.pairs_of NewIterator it
    = Some (List.map compaction_iter.to_KeyValue
              (List.filter compaction_iter.live
                 (List.filter (at_or_above types.Key key)
                    (List.concat (List.map rows (compaction.SSTList sr))))), None, it').
Proof.
  destruct sr as [n l]. simpl. intros Hasc Hne Hw Hopen Hseek.
  unfold compaction_iter.NewSortedRunIteratorFromKey.
  rewrite compaction_indexOfSSTWithKey_eq by done. simpl.
  pose proof (seek_start_split types.Key rows l key Hasc Hw) as Hstart.
  set (start := match index_before (first_above key l) with
                | Some idx => drop idx l
                | None => l
                end) in *.
  destruct start as [|h rest].
  - subst l.
    destruct (newSortedRunIter_nil NewIterator NewIteratorAtKey (Some key))
      as (it & -> & Hc & Hr).
    destruct (entries_of_remaining NewIterator it) as (it' & He & Hp & _).
    rewrite Hr in He, Hp. by exists it, it'.
  - destruct Hstart as (Hh & Hrest & Hfilter).
    pose proof (newSortedRunIter_cons NewIterator NewIteratorAtKey h rest (Some key)) as Hn.
    simpl in Hn. destruct (Hseek h Hh) as (kv & Hkv & Hpend). rewrite Hkv in Hn.
    destruct Hn as (it & -> & Hc & Hu).
    destruct (entries_of_remaining NewIterator it) as (it' & He & Hp & _).
    assert (Hr : remaining NewIterator it
                 = List.filter (at_or_above types.Key key) (List.concat (List.map rows l))).
    { unfold remaining. rewrite Hc, Hu, Hpend, Hfilter. f_equal.
      apply entries_until_failure_all. intros sst Hsst. by apply Hopen, Hrest. }
    rewrite Hr in He, Hp. by exists it, it'.
Qed.

Lemma NewSortedRunIteratorFromKey_seeks_witness :
  exists it it',
    compaction_iter.NewSortedRunIteratorFromKey sample_NewIterator sample_NewIteratorAtKey
      (compaction.mkSortedRun 0 sample_run) "c"
    = Ret (Ok it) /\
    compaction_iter.entries_of sample_NewIterator it
    = Some (List.filter (at_or_above types.Key "c")
              (List.concat (List.map sample_sst_rows sample_run)), None, it') /\
    compaction_iter.pairs_of sample_NewIterator it
    = Some (List.map compaction_iter.to_KeyValue
              (List.filter compaction_iter.live
                 (List.filter (at_or_above types.Key "c")
                    (List.concat (List.map sample_sst_rows sample_run)))), None, it').
Proof.
  apply (NewSortedRunIteratorFromKey_seeks sample_NewIterator sample_NewIteratorAtKey
           sample_sst_rows (compaction.mkSortedRun 0 sample_run) "c").
  - reflexivity.
  - reflexivity.
  - reflexivity.
  - intros sst _. eexists. split; reflexivity.
  - intros sst Hsst. eexists. split; [reflexivity|]. simpl.
    unfold sample_run in Hsst. simpl in Hsst.
    repeat (apply elem_of_cons in Hsst as [->|Hsst]); [reflexivity..|].
    by apply elem_of_nil in Hsst.
Defined.


Section SlatedbRunDrain.

Import slatedb_iter.

Variable newSSTIterator : Handle -> N -> N -> SSTIterator.
Variable newSSTIteratorFromKey : Handle -> bytes -> N -> N -> SSTIterator.

Lemma slatedb_SSTListIterator_Next_None (l l' : SSTListIterator) :
  SSTListIterator_Next l = (None, l') -> drop (current l) (sstList l) = [].
Proof.
  unfold SSTListIterator_Next.
  destruct (Nat.leb_spec (length (sstList l)) (current l)) as [Hle|Hlt].
  - intros _. by apply drop_ge.
  - intros [= Hl _]. apply lookup_ge_None in Hl. lia.
Qed.

(** One call of [NextEntry]: it gives the head of what remains, an entry
    or a read error, and reports the end when nothing remains. *)
Lemma slatedb_NextEntry_remaining (it it' : SortedRunIterator)
    (r : pulled KeyValueDeletable) :
  NextEntry newSSTIterator it = (r, it') ->
  slatedb_remaining newSSTIterator it
  = match r with
    | Got e => Ok e :: slatedb_remaining newSSTIterator it'
    | Failed x => Err x :: slatedb_remaining newSSTIterator it'
    | End_ => []
    end.
Proof.
  revert r it'. funelim (NextEntry newSSTIterator it); intros r it';
    repeat match goal with
           | Hn : SSTIterator_NextEntry _ = (End_, _) |- _ =>
               apply SSTIterator_NextEntry_End in Hn as [-> Hp]
           end.
  - intros [= <- <-]. unfold slatedb_remaining.
    match goal with Hc : currentKVIter _ = None |- _ => by rewrite Hc end.
  - intros [= <- <-]. unfold slatedb_remaining, with_current, slatedb_unopened. simpl.
    match goal with
    | Hc : currentKVIter _ = Some _, Hn : SSTIterator_NextEntry ?k = _ |- _ =>
        rewrite Hc; unfold SSTIterator_NextEntry in Hn;
        destruct (pending k) as [|[x|x] rest] eqn:Hp; [done| |done];
        injection Hn as <- <-
    end.
    reflexivity.
  - intros [= <- <-]. unfold slatedb_remaining, with_current, slatedb_unopened. simpl.
    match goal with
    | Hc : currentKVIter _ = Some _, Hn : SSTIterator_NextEntry ?k = _ |- _ =>
        rewrite Hc; unfold SSTIterator_NextEntry in Hn;
        destruct (pending k) as [|[x|x] rest] eqn:Hp; [done|done|];
        injection Hn as <- <-
    end.
    reflexivity.
  - intros Hrec.
    match goal with
    | IH : forall _ _, NextEntry _ _ = _ -> _ |- _ => rewrite <- (IH _ _ Hrec)
    end.
    match goal with
    | Hl : SSTListIterator_Next _ = _ |- _ =>
        pose proof (slatedb_SSTListIterator_Next_Some _ _ _ Hl) as Hl3
    end.
    unfold slatedb_remaining, slatedb_unopened. simpl.
    match goal with Hc : currentKVIter _ = Some _ |- _ => rewrite Hc end.
    rewrite Hp, Hl3. reflexivity.
  - intros [= <- <-].
    match goal with
    | Hn : SSTListIterator_Next _ = (None, _) |- _ =>
        pose proof (slatedb_SSTListIterator_Next_None _ _ Hn) as Hnil
    end.
    unfold slatedb_remaining, slatedb_unopened.
    match goal with Hc : currentKVIter _ = Some _ |- _ => rewrite Hc end.
    rewrite Hp, Hnil. reflexivity.
Qed.

Lemma slatedb_drain_remaining (n : nat) (it : SortedRunIterator) :
  work newSSTIterator it < n ->
  exists it',
    drain pulled_item (NextEntry newSSTIterator) n it
    = Some (ok_prefix (slatedb_remaining newSSTIterator it),
            first_failure (slatedb_remaining newSSTIterator it), it').
Proof.
  revert it. induction n as [|n IH]; intros it Hw; [lia|].
  simpl. destruct (NextEntry newSSTIterator it) as [r it1] eqn:Hn.
  rewrite (slatedb_NextEntry_remaining _ _ _ Hn).
  destruct r as [e| |x]; simpl; [|by eexists|by eexists].
  destruct (IH it1) as (it' & ->).
  { pose proof (slatedb_NextEntry_work _ _ _ _ Hn). lia. }
  by eexists.
Qed.

End SlatedbRunDrain.

Section NextFacts.




End NextFacts.


(** C8, counterexample: on a run whose second SST cannot be opened, [Next]
    of package [compaction] yields the pair of the first SST, then gives
    the end although the third SST holds a pair, and yields that pair at
    the call after. *)
Lemma SortedRunIterator_Next_end_is_not_exhaustion :
  match compaction_iter.NewSortedRunIterator gapped_NewIterator sample_NewIteratorAtKey
          (compaction.mkSortedRun 0 sample_run) with
  | Ok it0 =>
      let '(r1, it1) := compaction_iter.Next gapped_NewIterator it0 in
      let '(r2, it2) := compaction_iter.Next gapped_NewIterator it1 in
      let '(r3, it3) := compaction_iter.Next gapped_NewIterator it2 in
      let '(r4, it4) := compaction_iter.Next gapped_NewIterator it3 in
      r1 = Some (types.mkKeyValue "b" (Some "1")) /\
      r2 = None /\
      r3 = Some (types.mkKeyValue "f" (Some "3")) /\
      r4 = None
  | Err _ => False
  end.
Proof. vm_compute. repeat split. Qed.

(** X8.  A sorted-run iterator of package [slatedb] opened on a run reads
    the SSTs of the run one after the other, each opened with the two
    numbers [newSortedRunIterator] was given, in the order it was given
    them: [NextEntry] yields what the reads give up to the first read
    error and stops with that error, or with the end of the run; [Next]
    yields the same without the tombstones, as key-value pairs. *)
Theorem slatedb_newSortedRunIterator_reads_run
    (newSSTIterator : Handle -> N -> N -> slatedb_iter.SSTIterator)
    (newSSTIteratorFromKey : Handle -> bytes -> N -> N -> slatedb_iter.SSTIterator)
    (sortedRun : slatedb_sortedrun.SortedRun) (maxFetchTasks numBlocksToFetch : N) :
  let it := slatedb_iter.newSortedRunIterator newSSTIterator newSSTIteratorFromKey
              sortedRun maxFetchTasks numBlocksToFetch in
  let reads := reads_of newSSTIterator maxFetchTasks numBlocksToFetch
                 (slatedb_sortedrun.sstList sortedRun) in
  exists it',
    slatedb_iter.entries_of newSSTIterator it
    = Some (ok_prefix reads, first_failure reads, it') /\
    slatedb_iter.pairs_of newSSTIterator it
    = Some (List.map slatedb_iter.to_KeyValue (List.filter slatedb_iter.live (ok_prefix reads)),
            pulled_map slatedb_iter.to_KeyValue (first_failure reads), it').
Proof.
  intros it reads.
  assert (Hr : slatedb_remaining newSSTIterator it = reads).
  { subst it reads. unfold slatedb_iter.newSortedRunIterator, slatedb_iter.newSortedRunIter.
    destruct (slatedb_sortedrun.sstList sortedRun) as [|sst rest]; reflexivity. }
  destruct (slatedb_drain_remaining newSSTIterator (S (slatedb_iter.work newSSTIterator it)) it)
    as (it' & Hd); [lia|].
  destruct (slatedb_pairs_of newSSTIterator it) as (es & st & it2 & He & _ & Hp & _).
  unfold slatedb_iter.entries_of in *. rewrite Hd in He. injection He as <- <- <-.
  rewrite Hr in Hd, Hp. by exists it'.
Qed.

(** X19.  A point lookup lands on the SST that holds the key: on a run
    sorted by first key whose SSTs hold their keys between their first key
    and the next SST's, for an entry held by the SST at index [j], the
    linear scan of package [slatedb] gives [j] for the key of that entry
    and [sstWithKey] gives that SST; so do the binary search and
    [SstWithKey] of package [compaction] when every SST has a first key. *)
Theorem sstWithKey_finds_holder {A : Type} (keyOf : A -> bytes)
    (rows : Handle -> list A) (l : list Handle) (j : nat) (h : Handle) (e : A)
    (n m : N) :
  first_keys_ascending l = true -> rows_within keyOf rows l = true ->
  l !! j = Some h -> In e (rows h) ->
  (slatedb_sortedrun.indexOfSSTWithKey (slatedb_sortedrun.mkSortedRun n l) (keyOf e) = Some j /\
   slatedb_sortedrun.sstWithKey (slatedb_sortedrun.mkSortedRun n l) (keyOf e) = Some h) /\
  (first_keys_nonempty l = true ->
   compaction.indexOfSSTWithKey (compaction.mkSortedRun m l) (keyOf e) = Ret (Some j) /\
   compaction.SstWithKey (compaction.mkSortedRun m l) (keyOf e) = Ret (Some h)).
Proof.
  intros Hasc Hw Hj He.
  destruct (rows_within_lookup keyOf rows l j h e Hw Hj He) as [Hle Hnext].
  assert (Hlast : last_at_or_below l (keyOf e) j).
  { split; [by exists h|]. intros j' h' Hjj' Hj'.
    destruct (lookup_lt_is_Some_2 l (S j)) as [h1 Hh1].
    { apply lookup_lt_Some in Hj'. lia. }
    specialize (Hnext h1 Hh1).
    destruct (decide (j' = S j)) as [->|Hne]; [congruence|].
    eapply key_lt_trans; [exact Hnext|].
    apply (ascending_pairwise l (S j) j'); [done|lia|done|done]. }
  assert (Hidx : index_before (first_above (keyOf e) l) = Some j).
  { destruct (index_before (first_above (keyOf e) l)) as [i|] eqn:Hi.
    - destruct (index_before_Some l (keyOf e) i Hasc Hi) as [_ Huniq].
      by rewrite (Huniq j Hlast).
    - exfalso. apply index_before_None in Hi. unfold below_first in Hi.
      destruct l as [|h0 l0] eqn:Hl; [done|]. rewrite <- Hl in *.
      assert (H0 : l !! 0 = Some h0) by (by rewrite Hl).
      assert (Hle0 : key_le (FirstKey (Info_ h0)) (keyOf e)).
      { destruct j as [|j].
        - rewrite H0 in Hj. by injection Hj as ->.
        - apply key_lt_le. eapply key_lt_le_trans; [|exact Hle].
          apply (ascending_pairwise l 0 (S j)); [done|lia|done|done]. }
      by apply key_le_not_lt in Hle0. }
  split.
  - unfold slatedb_sortedrun.sstWithKey. rewrite slatedb_indexOfSSTWithKey_eq, Hidx.
    done.
  - intros Hne. unfold compaction.SstWithKey.
    rewrite compaction_indexOfSSTWithKey_eq, Hidx by done. simpl.
    by rewrite Hj.
Qed.

Lemma sstWithKey_finds_holder_witness :
  (slatedb_sortedrun.indexOfSSTWithKey (slatedb_sortedrun.mkSortedRun 0 sample_run) "e" = Some 1 /\
   slatedb_sortedrun.sstWithKey (slatedb_sortedrun.mkSortedRun 0 sample_run) "e"
   = Some (sample_handle "01B" "d")) /\
  (first_keys_nonempty sample_run = true ->
   compaction.indexOfSSTWithKey (compaction.mkSortedRun 0 sample_run) "e" = Ret (Some 1) /\
   compaction.SstWithKey (compaction.mkSortedRun 0 sample_run) "e"
   = Ret (Some (sample_handle "01B" "d"))).
Proof.
  apply (sstWithKey_finds_holder types.Key sample_sst_rows sample_run 1
           (sample_handle "01B" "d") (types.put_entry "e" (Some "")) 0 0).
  - reflexivity.
  - reflexivity.
  - reflexivity.
  - right. by left.
Defined.

Section SlatedbFromKeyFacts.

Import slatedb_iter.

Lemma ok_prefix_map_Ok {T : Type} (xs : list T) :
  ok_prefix (List.map Ok xs) = xs /\ first_failure (List.map Ok xs) = End_.
Proof.
  induction xs as [|x xs [IH1 IH2]]; [done|]. simpl. by rewrite IH1, IH2.
Qed.

Lemma reads_of_all (newSSTIterator : Handle -> N -> N -> SSTIterator)
    (rows : Handle -> list KeyValueDeletable) (fetch buffer : N) (l : list Handle) :
  (forall sst, sst ∈ l -> pending (newSSTIterator sst fetch buffer) = List.map Ok (rows sst)) ->
  reads_of newSSTIterator fetch buffer l = List.map Ok (List.concat (List.map rows l)).
Proof.
  unfold reads_of. induction l as [|x l IH]; intros Hall; [done|]. simpl.
  rewrite (Hall x) by (by left). rewrite List.map_app. f_equal.
  apply IH. intros sst Hsst. apply Hall. by right.
Qed.

End SlatedbFromKeyFacts.

(** X18.  [newSortedRunIteratorFromKey] of package [slatedb] seeks: on a
    run sorted by first key whose SSTs read without error, hold their keys
    between their first key and the next SST's, and are opened at a key on
    their first entry at or above it, the iterator yields exactly the
    entries of the run whose key is at or above the key asked for, in the
    order of the run, and then the end; [Next] yields those that are not
    tombstones. *)
Theorem slatedb_newSortedRunIteratorFromKey_seeks
    (newSSTIterator : Handle -> N -> N -> slatedb_iter.SSTIterator)
    (newSSTIteratorFromKey : Handle -> bytes -> N -> N -> slatedb_iter.SSTIterator)
    (rows : Handle -> list slatedb_iter.KeyValueDeletable)
    (sortedRun : slatedb_sortedrun.SortedRun) (key : bytes)
    (maxFetchTasks numBlocksToFetch : N) :
  first_keys_ascending (slatedb_sortedrun.sstList sortedRun) = true ->
  rows_within slatedb_iter.key rows (slatedb_sortedrun.sstList sortedRun) = true ->
  (forall sst, sst ∈ slatedb_sortedrun.sstList sortedRun ->
     slatedb_iter.pending (newSSTIterator sst maxFetchTasks numBlocksToFetch)
     = List.map Ok (rows sst)) ->
  (forall sst, sst ∈ slatedb_sortedrun.sstList sortedRun ->
     slatedb_iter.pending (newSSTIteratorFromKey sst key maxFetchTasks numBlocksToFetch)
     = List.map Ok (List.filter (at_or_above slatedb_iter.key key) (rows sst))) ->
  let it := slatedb_iter.newSortedRunIteratorFromKey newSSTIterator newSSTIteratorFromKey
              key sortedRun maxFetchTasks numBlocksToFetch in
  let found := List.filter (at_or_above slatedb_iter.key key)
                 (List.concat (List.map rows (slatedb_sortedrun.sstList sortedRun))) in
  exists it',
    slatedb_iter.entries_of newSSTIterator it = Some (found, End_, it') /\
    slatedb_iter.pairs_of newSSTIterator it
    = Some (List.map slatedb_iter.to_KeyValue (List.filter slatedb_iter.live found),
            End_, it').
Proof.
  destruct sortedRun as [n l]. intros Hasc Hw Hopen Hseek it found.
  simpl in Hasc, Hw, Hopen, Hseek, found.
  assert (Hr : slatedb_remaining newSSTIterator it = List.map Ok found).
  { subst it found. unfold slatedb_iter.newSortedRunIteratorFromKey.
    rewrite slatedb_indexOfSSTWithKey_eq. cbn [slatedb_sortedrun.sstList].
    pose proof (seek_start_split slatedb_iter.key rows l key Hasc Hw) as Hstart.
    destruct (match index_before (first_above key l) with
              | Some idx => drop idx l
              | None => l
              end) as [|h rest].
    - by subst l.
    - destruct Hstart as (Hh & Hrest & ->).
      unfold slatedb_iter.newSortedRunIter, slatedb_remaining, slatedb_unopened. simpl.
      rewrite (Hseek h Hh), List.map_app. f_equal.
      apply reads_of_all. intros sst Hsst. by apply Hopen, Hrest. }
  destruct (slatedb_drain_remaining newSSTIterator
              (S (slatedb_iter.work newSSTIterator it)) it) as (it' & Hd); [lia|].
  destruct (slatedb_pairs_of newSSTIterator it) as (es & st & it2 & He & _ & Hp & _).
  unfold slatedb_iter.entries_of in *. rewrite Hd in He. injection He as <- <- <-.
  rewrite Hr in Hd, Hp.
  destruct (ok_prefix_map_Ok found) as [Hok Hend]. rewrite Hok, Hend in Hd, Hp.
  by exists it'.
Qed.

Lemma slatedb_newSortedRunIteratorFromKey_seeks_witness :
  let it := slatedb_iter.newSortedRunIteratorFromKey sample_newSSTIterator
              sample_newSSTIteratorFromKey "c" (slatedb_sortedrun.mkSortedRun 0 sample_run)
              4 8 in
  let found := List.filter (at_or_above slatedb_iter.key "c")
                 (List.concat (List.map sample_kvd_rows sample_run)) in
  exists it',
    slatedb_iter.entries_of sample_newSSTIterator it = Some (found, End_, it') /\
    slatedb_iter.pairs_of sample_newSSTIterator it
    = Some (List.map slatedb_iter.to_KeyValue (List.filter slatedb_iter.live found),
            End_, it').
Proof.
  apply (slatedb_newSortedRunIteratorFromKey_seeks sample_newSSTIterator
           sample_newSSTIteratorFromKey sample_kvd_rows
           (slatedb_sortedrun.mkSortedRun 0 sample_run) "c" 4 8).
  - reflexivity.
  - reflexivity.
  - intros sst _. reflexivity.
  - intros sst _. reflexivity.
Defined.

(** ** The table store, further *)

Section WalListingMore.

Context {B : Type} `{Bucket B}.

Lemma getWalSSTList_visit_panics (above : N) (acc : list N) (p : string) :
  implb (strings_pkg.Contains p ".sst") (String.eqb (path_pkg.Ext p) ".sst") = false ->
  getWalSSTList_visit above acc p = Panic "invalid wal file".
Proof.
  intros Hp. unfold getWalSSTList_visit.
  destruct (strings_pkg.Contains p ".sst"); [|done]. simpl in Hp.
  unfold parseID. by rewrite Hp.
Qed.

(** The callbacks of one listing: the ids are collected unless some listed
    path makes [parseID] panic. *)
Lemma Iter_each_visit (above : N) (names : list string) (acc : list N) :
  Iter_each (getWalSSTList_visit above) acc names
  = if sst_names_have_ext names then Ret (acc ++ wal_ids_above above names)
    else Panic "invalid wal file".
Proof.
  destruct (sst_names_have_ext names) eqn:Hall; [by apply Iter_each_visit_ok|].
  revert acc. induction names as [|p names IH]; intros acc; [done|].
  simpl in Hall. simpl.
  destruct (implb _ _) eqn:Hp.
  - rewrite (getWalSSTList_visit_ok _ _ _ Hp). simpl. by apply IH.
  - by rewrite (getWalSSTList_visit_panics _ _ _ Hp).
Qed.

Lemma sst_names_have_ext_Permutation (names names' : list string) :
  names ≡ₚ names' -> sst_names_have_ext names = sst_names_have_ext names'.
Proof.
  intros Hp. unfold sst_names_have_ext.
  induction Hp as [|x l l' _ IH|x y l|l l' l'' _ IH1 _ IH2]; simpl.
  - done.
  - by rewrite IH.
  - rewrite !andb_assoc. f_equal. apply andb_comm.
  - congruence.
Qed.

Lemma List_filter_Permutation {A : Type} (f : A -> bool) (l l' : list A) :
  l ≡ₚ l' -> List.filter f l ≡ₚ List.filter f l'.
Proof.
  intros Hp. induction Hp as [|x l l' _ IH|x y l|l l' l'' _ IH1 _ IH2]; simpl.
  - done.
  - destruct (f x); by rewrite IH.
  - destruct (f x), (f y); try done. apply perm_swap.
  - by etransitivity.
Qed.

Lemma wal_ids_above_Permutation (above : N) (names names' : list string) :
  names ≡ₚ names' -> wal_ids_above above names ≡ₚ wal_ids_above above names'.
Proof.
  intros Hp. unfold wal_ids_above.
  apply List_filter_Permutation, omap_Permutation, List_filter_Permutation, Hp.
Qed.

Lemma Sort_Permutation (l l' : list N) :
  l ≡ₚ l' -> slices_pkg.Sort l = slices_pkg.Sort l'.
Proof.
  intros Hp. unfold slices_pkg.Sort.
  apply (Sorted_unique N.le);
    [apply (Sorted_merge_sort N.le)|apply (Sorted_merge_sort N.le)|].
  by rewrite !merge_sort_Permutation.
Qed.

End WalListingMore.

(** X9.  The order in which the object store lists the files does not
    matter to [getWalSSTList]: two stores whose listings of their WAL
    directory hold the same paths, in any order, and end alike, give the
    same result, be it a list, an error or a panic. *)
Theorem getWalSSTList_listing_order_irrelevant {B : Type} `{Bucket B}
    (ts ts' : TableStore B) (above : N) (names names' : list string)
    (err : option error) :
  Iter (bucket ts) (path_pkg.Join [rootPath ts; walPath ts]) = (names, err) ->
  Iter (bucket ts') (path_pkg.Join [rootPath ts'; walPath ts']) = (names', err) ->
  names ≡ₚ names' ->
  getWalSSTList ts above = getWalSSTList ts' above.
Proof.
  intros Hiter Hiter' Hp. unfold getWalSSTList. rewrite Hiter, Hiter'.
  rewrite !Iter_each_visit, (sst_names_have_ext_Permutation _ _ Hp).
  destruct (sst_names_have_ext names'); [|done]. simpl.
  destruct err; [done|].
  by rewrite (Sort_Permutation _ _ (wal_ids_above_Permutation above _ _ Hp)).
Qed.

Lemma getWalSSTList_listing_order_irrelevant_witness :
  getWalSSTList (NewTableStore sample_bucket "db") 1
  = getWalSSTList (NewTableStore shuffled_bucket "db") 1.
Proof.
  apply (getWalSSTList_listing_order_irrelevant
           (NewTableStore sample_bucket "db") (NewTableStore shuffled_bucket "db") 1
           sample_listing shuffled_listing None).
  - reflexivity.
  - reflexivity.
  - unfold sample_listing, shuffled_listing. solve_Permutation.
Defined.


(** X10.  [getWalSSTList] panics exactly when some listed path contains
    [".sst"] without having it as its extension, whether the listing then
    ends with an error or not; the panic is the one of the assertion in
    [parseID]. *)
Theorem getWalSSTList_panics_iff {B : Type} `{Bucket B}
    (ts : TableStore B) (above : N) (names : list string) (err : option error) :
  Iter (bucket ts) (path_pkg.Join [rootPath ts; walPath ts]) = (names, err) ->
  (getWalSSTList ts above = Panic "invalid wal file"
   <-> sst_names_have_ext names = false) /\
  (forall msg, getWalSSTList ts above = Panic msg -> msg = "invalid wal file").
Proof.
  intros Hiter. unfold getWalSSTList. rewrite Hiter, Iter_each_visit.
  destruct (sst_names_have_ext names); simpl.
  - destruct err; split; try split; try done; by intros msg [=].
  - split; [done|]. by intros msg [= <-].
Qed.

Lemma getWalSSTList_panics_iff_witness :
  getWalSSTList (NewTableStore stray_failing_bucket "db") 0 = Panic "invalid wal file".
Proof.
  apply (getWalSSTList_panics_iff (NewTableStore stray_failing_bucket "db") 0
           ["db/wal/1.sst"; "db/wal/2.sst.tmp"] (Some (ErrOther "listing interrupted")));
    reflexivity.
Defined.

(** X11.  A filter written with [WriteSST] is served by [ReadFilter] from
    the cache: after a successful [WriteSST] of a table under an id,
    [ReadFilter] on the handle returned gives the bloom filter of that
    table and leaves the store as it is, whatever reading the object would
    give; after a failed [WriteSST] the filter cache is the one before. *)
Theorem ReadFilter_after_WriteSST {B : Type} `{Bucket B}
    (sstFormat_ReadFilter : Info -> ReadOnlyObject B -> result (option Filter))
    (ts : TableStore B) (id : ID) (encodedSST : Table) :
  match WriteSST ts id encodedSST with
  | (Ok sstHandle, ts') =>
      ReadFilter sstFormat_ReadFilter ts' sstHandle = (Ok (Bloom encodedSST), ts')
  | (Err _, ts') => filterCache ts' = filterCache ts
  end.
Proof.
  unfold WriteSST. destruct (Upload _ _ _) as [b' [e|]]; [done|].
  unfold ReadFilter. simpl. by rewrite FilterCache_Get_Set.
Qed.

(** X12.  [ReadFilter] reads an SST's filter from the object store at most
    once: when it returns a filter, a second call on the store it leaves
    returns the same filter and changes nothing more, without reading the
    object; when it returns an error, the store is unchanged, so that the
    next call reads again. *)
Theorem ReadFilter_reads_once {B : Type} `{Bucket B}
    (sstFormat_ReadFilter sstFormat_ReadFilter' :
       Info -> ReadOnlyObject B -> result (option Filter))
    (ts : TableStore B) (sstHandle : Handle) :
  match ReadFilter sstFormat_ReadFilter ts sstHandle with
  | (Ok filtr, ts') =>
      ReadFilter sstFormat_ReadFilter' ts' sstHandle = (Ok filtr, ts') /\
      bucket ts' = bucket ts
  | (Err err, ts') =>
      ts' = ts /\
      sstFormat_ReadFilter (Info_ sstHandle)
        (mkReadOnlyObject (bucket ts) (sstPath ts (Id sstHandle))) = Err err
  end.
Proof.
  unfold ReadFilter.
  destruct (FilterCache_Get (Id sstHandle) (filterCache ts)) as [val|] eqn:Hget.
  - by rewrite Hget.
  - destruct (sstFormat_ReadFilter _ _) as [filtr|err]; [|done].
    simpl. by rewrite FilterCache_Get_Set.
Qed.


(** ** The path of a WAL SST and the id read back from it *)

Section PathFacts.

Implicit Types (s q v name : string) (l : list ascii).

Lemma dec_val_from_ge (n : N) s : (n <= dec_val_from n s)%N.
Proof.
  revert n. induction s as [|c s IH]; intros n; simpl; [lia|].
  specialize (IH (n * 10 + default 0 (strconv_pkg.digit_of c))%N). lia.
Qed.

Lemma ParseUint_loop_digits (n : N) s :
  all_digits s = true -> (dec_val_from n s < 2 ^ 64)%N ->
  strconv_pkg.ParseUint_loop n s = Ok (dec_val_from n s).
Proof.
  revert n. induction s as [|c s IH]; intros n Hd Hlt; [done|].
  simpl in *. destruct (strconv_pkg.digit_of c) as [d|]; [|done]. simpl in *.
  pose proof (dec_val_from_ge (n * 10 + d) s) as Hge.
  assert (Hc : strconv_pkg.cutoff = 1844674407370955162%N) by reflexivity.
  assert (Hp : (2 ^ 64 = 18446744073709551616)%N) by reflexivity.
  rewrite Hp in *.
  destruct (N.leb_spec strconv_pkg.cutoff n) as [Hle|_]; [lia|].
  rewrite (N.mod_small (n * 10 + d)) by lia.
  destruct (N.ltb_spec (n * 10 + d) (n * 10)) as [Hw|_]; [lia|].
  by apply IH.
Qed.

Lemma ParseUint_digits s :
  s <> "" -> all_digits s = true -> (dec_val s < 2 ^ 64)%N ->
  strconv_pkg.ParseUint s = Ok (dec_val s).
Proof.
  intros Hne Hd Hlt. unfold strconv_pkg.ParseUint.
  destruct s as [|c s]; [done|]. by apply ParseUint_loop_digits.
Qed.

Lemma digit_not_dot (c : ascii) :
  is_Some (strconv_pkg.digit_of c) -> c <> "."%char.
Proof. intros [d Hd] ->. by vm_compute in Hd. Qed.

Lemma digit_not_slash (c : ascii) :
  is_Some (strconv_pkg.digit_of c) -> Ascii.eqb c path_pkg.slash = false.
Proof.
  intros [d Hd]. apply Ascii.eqb_neq. intros ->. by vm_compute in Hd.
Qed.

(** Removing the first [".sst"] from a decimal name with that extension
    gives the digits. *)
Lemma Replace1_digits v :
  all_digits v = true ->
  strings_pkg.Replace1 (String.append v ".sst") ".sst" "" = v.
Proof.
  induction v as [|c v IH]; intros Hd; [reflexivity|].
  simpl in Hd. destruct (strconv_pkg.digit_of c) as [d|] eqn:Hc; [|done].
  rewrite append_cons.
  change (strings_pkg.Replace1 (String c (String.append v ".sst")) ".sst" "")
    with (if strings_pkg.HasPrefix (String c (String.append v ".sst")) ".sst"
          then String.append "" (strings_pkg.drop (String.length ".sst")
                                   (String c (String.append v ".sst")))
          else String c (strings_pkg.Replace1 (String.append v ".sst") ".sst" "")).
  unfold strings_pkg.HasPrefix. cbn [String.prefix].
  destruct (ascii_dec "." c) as [Heq|_].
  - exfalso. apply (digit_not_dot c); [by eexists|done].
  - by rewrite IH.
Qed.

Lemma list_ascii_of_string_app s1 s2 :
  list_ascii_of_string (String.append s1 s2)
  = list_ascii_of_string s1 ++ list_ascii_of_string s2.
Proof.
  induction s1 as [|c s1 IH]; [reflexivity|].
  rewrite append_cons. simpl. by rewrite IH.
Qed.

Lemma string_of_list_ascii_app l1 l2 :
  string_of_list_ascii (l1 ++ l2)
  = String.append (string_of_list_ascii l1) (string_of_list_ascii l2).
Proof.
  induction l1 as [|c l1 IH]; [reflexivity|].
  simpl. by rewrite append_cons, IH.
Qed.

(** The bytes of [q ++ v ++ ".sst"], last byte first. *)
Lemma rev_sst_name q v :
  rev (list_ascii_of_string (String.append q (String.append v ".sst")))
  = "t"%char :: "s"%char :: "s"%char :: "."%char
      :: rev (list_ascii_of_string v) ++ rev (list_ascii_of_string q).
Proof.
  rewrite !list_ascii_of_string_app, !rev_app_distr. reflexivity.
Qed.

Lemma Ext_sst_name q v :
  path_pkg.Ext (String.append q (String.append v ".sst")) = ".sst".
Proof. unfold path_pkg.Ext. rewrite rev_sst_name. reflexivity. Qed.

Lemma all_digits_no_slash v (c : ascii) :
  all_digits v = true -> c ∈ list_ascii_of_string v ->
  Ascii.eqb c path_pkg.slash = false.
Proof.
  induction v as [|x v IH]; simpl; intros Hd Hc.
  - by apply elem_of_nil in Hc.
  - destruct (strconv_pkg.digit_of x) as [d|] eqn:Hx; [|done].
    apply elem_of_cons in Hc as [->|Hc]; [|by apply IH].
    apply digit_not_slash. by eexists.
Qed.

Lemma take_until_slash_app l1 l2 :
  (forall c, c ∈ l1 -> Ascii.eqb c path_pkg.slash = false) ->
  (l2 = [] \/ exists l2', l2 = path_pkg.slash :: l2') ->
  path_pkg.take_until_slash (l1 ++ l2) = l1.
Proof.
  intros Hno Hl2. induction l1 as [|c l1 IH]; simpl.
  - destruct Hl2 as [->|[l2' ->]]; reflexivity.
  - rewrite (Hno c) by (by left). f_equal. apply IH.
    intros x Hx. apply Hno. by right.
Qed.

Lemma rev_dir_prefix q :
  dir_prefix q ->
  rev (list_ascii_of_string q) = [] \/
  exists l, rev (list_ascii_of_string q) = path_pkg.slash :: l.
Proof.
  intros [->|[q' ->]]; [by left|right].
  rewrite list_ascii_of_string_app, rev_app_distr. simpl. by eexists.
Qed.

Lemma sst_name_nonempty q v :
  String.eqb (String.append q (String.append v ".sst")) "" = false.
Proof. destruct q; [destruct v|]; reflexivity. Qed.

Lemma Base_sst_name q v :
  dir_prefix q -> all_digits v = true ->
  path_pkg.Base (String.append q (String.append v ".sst")) = String.append v ".sst".
Proof.
  intros Hq Hd. unfold path_pkg.Base.
  rewrite sst_name_nonempty, rev_sst_name.
  cbn [path_pkg.strip_leading_slashes]. simpl Ascii.eqb. cbv iota.
  set (name := "t"%char :: "s"%char :: "s"%char :: "."%char
                 :: rev (list_ascii_of_string v)).
  change (path_pkg.take_until_slash _)
    with (path_pkg.take_until_slash (name ++ rev (list_ascii_of_string q))).
  rewrite take_until_slash_app.
  - subst name.
    cbn [rev]. rewrite <- !app_assoc, rev_involutive, string_of_list_ascii_app.
    by rewrite string_of_list_ascii_of_string.
  - intros c Hc. subst name.
    repeat (apply elem_of_cons in Hc as [->|Hc]; [reflexivity|]).
    apply list_elem_of_In, in_rev, list_elem_of_In in Hc.
    by eapply all_digits_no_slash.
  - by apply rev_dir_prefix.
Qed.

End PathFacts.

Section CleanFacts.

Implicit Types (s q v name : string) (l : list ascii).

Lemma sst_name_no_slash v (c : ascii) :
  all_digits v = true -> c ∈ list_ascii_of_string (String.append v ".sst") ->
  Ascii.eqb c path_pkg.slash = false.
Proof.
  intros Hd Hc. rewrite list_ascii_of_string_app in Hc.
  apply elem_of_app in Hc as [Hc|Hc]; [by eapply all_digits_no_slash|].
  simpl in Hc. repeat (apply elem_of_cons in Hc as [->|Hc]; [reflexivity|]).
  by apply elem_of_nil in Hc.
Qed.

Lemma split_slash_no_slash (cur : list ascii) l :
  (forall c, c ∈ l -> Ascii.eqb c path_pkg.slash = false) ->
  path_pkg.split_slash cur l = [string_of_list_ascii (rev cur ++ l)].
Proof.
  revert cur. induction l as [|a l IH]; intros cur Hno; simpl.
  - by rewrite app_nil_r.
  - rewrite (Hno a) by (by left). rewrite IH by (intros c Hc; apply Hno; by right).
    simpl. by rewrite <- app_assoc.
Qed.

Lemma split_slash_prefix (cur : list ascii) l1 l2 :
  exists xs, path_pkg.split_slash cur (l1 ++ path_pkg.slash :: l2)
             = xs ++ path_pkg.split_slash [] l2.
Proof.
  revert cur. induction l1 as [|a l1 IH]; intros cur; simpl.
  - by exists [string_of_list_ascii (rev cur)].
  - destruct (Ascii.eqb a path_pkg.slash).
    + destruct (IH []) as [xs ->]. by exists (string_of_list_ascii (rev cur) :: xs).
    + apply IH.
Qed.

Lemma split_slash_sst_name q v :
  dir_prefix q -> all_digits v = true ->
  exists xs,
    path_pkg.split_slash [] (list_ascii_of_string (String.append q (String.append v ".sst")))
    = xs ++ [String.append v ".sst"].
Proof.
  intros Hq Hd.
  assert (Hname : path_pkg.split_slash [] (list_ascii_of_string (String.append v ".sst"))
                  = [String.append v ".sst"]).
  { rewrite split_slash_no_slash by (intros c; by apply sst_name_no_slash).
    simpl. by rewrite string_of_list_ascii_of_string. }
  rewrite list_ascii_of_string_app.
  destruct Hq as [->|[q' ->]].
  - exists []. simpl. exact Hname.
  - rewrite list_ascii_of_string_app, <- app_assoc.
    change (list_ascii_of_string "/") with [path_pkg.slash]. cbn [app].
    destruct (split_slash_prefix [] (list_ascii_of_string q')
                (list_ascii_of_string (String.append v ".sst"))) as [xs ->].
    exists xs. by rewrite Hname.
Qed.

Lemma clean_step_sst_name (rooted : bool) (stack : list string) v :
  all_digits v = true ->
  path_pkg.clean_step rooted stack (String.append v ".sst")
  = String.append v ".sst" :: stack.
Proof.
  intros Hd. unfold path_pkg.clean_step.
  destruct v as [|c v]; [reflexivity|].
  simpl in Hd. destruct (strconv_pkg.digit_of c) as [d|] eqn:Hc; [|done].
  rewrite append_cons.
  assert (Hdot : Ascii.eqb c "."%char = false).
  { apply Ascii.eqb_neq. apply digit_not_dot. by eexists. }
  cbn [String.eqb]. by rewrite Hdot.
Qed.

Lemma concat_slash_last (ys : list string) name :
  exists q, String.concat "/" (ys ++ [name]) = String.append q name /\ dir_prefix q.
Proof.
  induction ys as [|y ys IH].
  - exists "". split; [reflexivity|by left].
  - destruct IH as (q & Hq & Hdp).
    assert (Hc : String.concat "/" ((y :: ys) ++ [name])
                 = String.append y (String.append "/" (String.concat "/" (ys ++ [name])))).
    { simpl. destruct (ys ++ [name]) eqn:E; [by destruct ys|reflexivity]. }
    rewrite Hc, Hq. exists (String.append y (String.append "/" q)). split.
    + by rewrite !append_assoc.
    + right. destruct Hdp as [->|[q' ->]].
      * exists y. reflexivity.
      * exists (String.append y (String.append "/" q')). by rewrite !append_assoc.
Qed.

Lemma Clean_sst_name q v :
  dir_prefix q -> all_digits v = true ->
  exists q2, path_pkg.Clean (String.append q (String.append v ".sst"))
             = String.append q2 (String.append v ".sst") /\ dir_prefix q2.
Proof.
  intros Hq Hd. unfold path_pkg.Clean.
  destruct (split_slash_sst_name q v Hq Hd) as [xs ->].
  rewrite fold_left_app. cbn [fold_left]. rewrite clean_step_sst_name by done.
  cbn [rev].
  destruct (concat_slash_last
              (rev (fold_left (path_pkg.clean_step
                                 (strings_pkg.HasPrefix
                                    (String.append q (String.append v ".sst")) "/")) xs []))
              (String.append v ".sst")) as (q2 & -> & Hq2).
  destruct (strings_pkg.HasPrefix _ "/").
  - exists (String.append "/" q2). split.
    + rewrite append_assoc. reflexivity.
    + right. destruct Hq2 as [->|[q' ->]].
      * by exists "".
      * exists (String.append "/" q'). by rewrite append_assoc.
  - rewrite sst_name_nonempty. by exists q2.
Qed.

Lemma Join_sst_name (root wal : string) v :
  all_digits v = true ->
  exists q, path_pkg.Join [root; wal; String.append v ".sst"]
            = String.append q (String.append v ".sst") /\ dir_prefix q.
Proof.
  intros Hd. unfold path_pkg.Join.
  assert (Hkept : exists ys,
            List.filter (fun e => negb (String.eqb e "")) [root; wal; String.append v ".sst"]
            = ys ++ [String.append v ".sst"]).
  { assert (Hn : String.eqb (String.append v ".sst") "" = false)
      by apply (sst_name_nonempty "" v).
    cbn [List.filter]. rewrite Hn. simpl negb.
    destruct (negb (String.eqb root "")), (negb (String.eqb wal ""));
      [by exists [root; wal]|by exists [root]|by exists [wal]|by exists []]. }
  destruct Hkept as [ys ->].
  destruct (concat_slash_last ys (String.append v ".sst")) as (q & Hc & Hq).
  destruct (ys ++ [String.append v ".sst"]) eqn:E; [by destruct ys|].
  rewrite Hc. by apply Clean_sst_name.
Qed.

Lemma Contains_sst_name q v :
  strings_pkg.Contains (String.append q (String.append v ".sst")) ".sst" = true.
Proof.
  rewrite <- append_assoc.
  induction (String.append q v) as [|c s IH]; [reflexivity|].
  rewrite append_cons. cbn [strings_pkg.Contains]. rewrite IH. apply orb_true_r.
Qed.

End CleanFacts.

(** X13.  The path of a WAL SST reads back as its id: for an id written
    as a non-empty string of decimal digits that denotes a number below
    [2^64], with or without leading zeros, and for any root path,
    [parseID] on [sstPath] of the id passes its assertion and returns that
    number, and the callback of [getWalSSTList] on that path appends the
    number exactly when it is above the watermark. *)
Theorem parseID_sstPath_roundtrip {B : Type} `{Bucket B}
    (ts : TableStore B) (v : string) :
  v <> "" -> all_digits v = true -> (dec_val v < 2 ^ 64)%N ->
  parseID (sstPath ts (mkID WAL v)) ".sst" = Ret (Ok (dec_val v)) /\
  forall above acc,
    getWalSSTList_visit above acc (sstPath ts (mkID WAL v))
    = Ret (if (above <? dec_val v)%N then acc ++ [dec_val v] else acc).
Proof.
  intros Hne Hd Hlt. unfold sstPath. simpl.
  destruct (Join_sst_name (rootPath ts) (walPath ts) v Hd) as (q & -> & Hq).
  assert (Hparse : parseID (String.append q (String.append v ".sst")) ".sst"
                   = Ret (Ok (dec_val v))).
  { unfold parseID. rewrite Ext_sst_name. simpl.
    rewrite (Base_sst_name q v Hq Hd), (Replace1_digits v Hd).
    by rewrite (ParseUint_digits v Hne Hd Hlt). }
  split; [exact Hparse|].
  intros above acc. unfold getWalSSTList_visit.
  rewrite Contains_sst_name, Hparse. simpl.
  by destruct (above <? dec_val v)%N.
Qed.

Lemma parseID_sstPath_roundtrip_witness :
  parseID (sstPath (NewTableStore sample_bucket "/data//db/")
             (mkID WAL "00000000000000000042")) ".sst"
  = Ret (Ok 42%N).
Proof.
  apply (parseID_sstPath_roundtrip (NewTableStore sample_bucket "/data//db/")
           "00000000000000000042"); [discriminate|reflexivity|reflexivity].
Defined.

(** X17.  No two WAL SSTs share an object path: for ids written as
    strings of decimal digits and any root path, [sstPath] gives the same
    path only for the same writing of the id. *)
Theorem sstPath_injective_on_decimal_ids {B : Type} `{Bucket B}
    (ts : TableStore B) (v v' : string) :
  all_digits v = true -> all_digits v' = true ->
  (sstPath ts (mkID WAL v) = sstPath ts (mkID WAL v') <-> v = v').
Proof.
  intros Hd Hd'. split; [|by intros ->].
  unfold sstPath. simpl.
  destruct (Join_sst_name (rootPath ts) (walPath ts) v Hd) as (q & -> & Hq).
  destruct (Join_sst_name (rootPath ts) (walPath ts) v' Hd') as (q' & -> & Hq').
  intros Heq. apply (f_equal path_pkg.Base) in Heq.
  rewrite (Base_sst_name q v Hq Hd), (Base_sst_name q' v' Hq' Hd') in Heq.
  apply (f_equal (fun s => strings_pkg.Replace1 s ".sst" "")) in Heq.
  by rewrite (Replace1_digits v Hd), (Replace1_digits v' Hd') in Heq.
Qed.

Lemma sstPath_injective_on_decimal_ids_witness :
  sstPath (NewTableStore sample_bucket "db") (mkID WAL "7")
  = sstPath (NewTableStore sample_bucket "db") (mkID WAL "07")
  <-> "7" = "07".
Proof.
  apply (sstPath_injective_on_decimal_ids (NewTableStore sample_bucket "db") "7" "07");
    reflexivity.
Defined.

(** ** The streaming writer *)

Section WriterFacts.

Context {B : Type} `{Bucket B} {Bld : Type} `{BlockBuilder Bld}.

Lemma Add_blocks_hands_out (fuel : nat) (b b' : Bld) (buffer buffer' : bytes)
    (n n' : N) :
  Add_blocks fuel b buffer n = Some (b', buffer', n') ->
  exists bs, hands_out b bs b' /\
             buffer' = String.append buffer (String.concat "" bs) /\
             (n < 2 ^ 64 -> n' = (n + N.of_nat (length bs)) mod 2 ^ 64)%N.
Proof.
  revert b buffer n. induction fuel as [|fuel IH]; intros b buffer n; [done|].
  simpl. destruct (Builder_NextBlock b) as [[block|] b1] eqn:Hnext.
  - intros Hrec. destruct (IH _ _ _ Hrec) as (bs & Hbs & Hbuf & Hn).
    exists (block :: bs). split; [by eapply hands_out_block|]. split.
    + rewrite Hbuf, append_assoc. f_equal.
      destruct bs as [|b2 bs]; [by rewrite append_empty_r|reflexivity].
    + intros Hlt. rewrite Hn by (apply N.mod_lt; lia).
      rewrite N.Div0.add_mod_idemp_l. f_equal. simpl length. lia.
  - intros [= <- <- <-]. exists []. split; [by apply hands_out_none|].
    split; [by rewrite append_empty_r|].
    intros Hlt. simpl. rewrite N.add_0_r. by rewrite N.mod_small.
Qed.

(** The loop returns: one round more than the builder has blocks to hand
    out is enough, and the loop then gives this buffer and this count. *)
Lemma Add_blocks_returns (fuel : nat) (b : Bld) (bs : list bytes) (b' : Bld)
    (buffer : bytes) (n : N) :
  hands_out b bs b' -> length bs < fuel -> (n < 2 ^ 64)%N ->
  Add_blocks fuel b buffer n
  = Some (b', String.append buffer (String.concat "" bs),
          ((n + N.of_nat (length bs)) mod 2 ^ 64)%N).
Proof.
  intros Hbs. revert fuel buffer n.
  induction Hbs as [b b' Hnext|b b1 b' block bs Hnext Hbs IH];
    intros [|fuel] buffer n Hfuel Hlt; simpl in Hfuel; try lia.
  - simpl. rewrite Hnext. simpl.
    by rewrite append_empty_r, N.add_0_r, N.mod_small.
  - simpl. rewrite Hnext. rewrite IH by (lia || (apply N.mod_lt; lia)).
    rewrite N.Div0.add_mod_idemp_l, append_assoc. do 3 f_equal.
    + destruct bs as [|b2 bs]; [by rewrite append_empty_r|reflexivity].
    + simpl length. lia.
Qed.

End WriterFacts.

(** X21.  [Close] of the streaming writer is [WriteSST] of the built
    table with the buffer put before its blocks: it uploads, under the
    path of the id, the buffered bytes followed by the blocks of [Build],
    caches the bloom filter and returns the handle of the id on success,
    returns [ErrObjectStore] when the upload fails, and returns the error
    of [Build] without touching the store when the build fails. *)
Theorem Close_is_WriteSST_after_buffer {B : Type} `{Bucket B}
    {Bld : Type} `{BlockBuilder Bld} (w : EncodedSSTableWriter B Bld) :
  Close w
  = match Builder_Build (w_builder w) with
    | Err err => (Err err, w_tableStore w)
    | Ok encodedSST =>
        WriteSST (w_tableStore w) (w_sstID w)
          (mkTable (Table_Info encodedSST) (Bloom encodedSST)
                   (w_buffer w :: Blocks encodedSST))
    end.
Proof.
  unfold Close, WriteSST.
  destruct (Builder_Build (w_builder w)) as [t|err]; [|done].
  cbn [Blocks Table_Info Bloom]. unfold concat_blocks. cbn [fold_left].
  change (String.append "" (w_buffer w)) with (w_buffer w). reflexivity.
Qed.

(** X22.  [Add] of the streaming writer moves the finished blocks of the
    builder to the end of the buffer, in the order the builder hands them
    out and until it has none left, and counts them.  When the builder
    accepts the entry and then hands out the blocks [bs] before it has none
    left, [Add] returns nil, the buffer is the old one followed by those
    blocks and [Written] has grown by their number (modulo [2^64]); the
    loop needs one round more than there are blocks.  When the builder
    refuses the entry, [Add] returns its error at once and the buffer and
    the count are as before. *)
Theorem Writer_Add_buffers_blocks {B : Type} `{Bucket B}
    {Bld : Type} `{BlockBuilder Bld} (w : EncodedSSTableWriter B Bld)
    (key : bytes) (value : option bytes) :
  (forall err b1 fuel,
     Builder_Add (w_builder w) key value = (Some err, b1) ->
     Writer_Add fuel w key value
     = Some (Some err, mkEncodedSSTableWriter (w_sstID w) b1 (w_tableStore w)
                         (w_buffer w) (w_blocksWritten w))) /\
  (forall b1 bs b2 fuel,
     Builder_Add (w_builder w) key value = (None, b1) ->
     hands_out b1 bs b2 -> length bs < fuel -> (Written w < 2 ^ 64)%N ->
     Writer_Add fuel w key value
     = Some (None, mkEncodedSSTableWriter (w_sstID w) b2 (w_tableStore w)
                     (String.append (w_buffer w) (String.concat "" bs))
                     ((Written w + N.of_nat (length bs)) mod 2 ^ 64)%N)).
Proof.
  split.
  - intros err b1 fuel Hadd. unfold Writer_Add. by rewrite Hadd.
  - intros b1 bs b2 fuel Hadd Hbs Hfuel Hlt. unfold Writer_Add, Written in *.
    rewrite Hadd.
    by rewrite (Add_blocks_returns fuel b1 bs b2 (w_buffer w) (w_blocksWritten w)).
Qed.

Lemma Writer_Add_buffers_blocks_witness :
  let w1 := mkEncodedSSTableWriter (mkID Compacted "01A")
              (mkPairBuilder [] [("a", Some "1")] (Some "a"))
              (NewTableStore (mkMemBucket [] [] None) "db") "" 0 in
  Writer_Add 2 w1 "b" None
  = Some (None, mkEncodedSSTableWriter (mkID Compacted "01A")
                  (mkPairBuilder [] [] (Some "a"))
                  (NewTableStore (mkMemBucket [] [] None) "db") "a=1;b!;" 1).
Proof.
  apply (proj2 (Writer_Add_buffers_blocks
                  (mkEncodedSSTableWriter (mkID Compacted "01A")
                     (mkPairBuilder [] [("a", Some "1")] (Some "a"))
                     (NewTableStore (mkMemBucket [] [] None) "db") "" 0) "b" None)
           (mkPairBuilder ["a=1;b!;"] [] (Some "a")) ["a=1;b!;"]
           (mkPairBuilder [] [] (Some "a")) 2).
  - reflexivity.
  - eapply hands_out_block; [reflexivity|]. apply hands_out_none. reflexivity.
  - simpl. lia.
  - reflexivity.
Defined.

(** Three rows through the writer over the builder that closes a block
    after every second row: the first block is buffered by the second
    [Add], the third row is in the block of [Close], and the object holds
    the three rows in order. *)
Example Writer_sample :
  let w0 := TableWriter (NewTableStore (mkMemBucket [] [] None) "db") (mkID Compacted "01A") in
  match Writer_Add 2 w0 "a" (Some "1") with
  | Some (None, w1) =>
      match Writer_Add 2 w1 "b" None with
      | Some (None, w2) =>
          match Writer_Add 2 w2 "c" (Some "3") with
          | Some (None, w3) =>
              Written w1 = 0%N /\ Written w3 = 1%N /\ w_buffer w3 = "a=1;b!;" /\
              fst (Close w3) = Ok (NewHandle (mkID Compacted "01A") (sample_info "a")) /\
              MemBucket_get "db/compacted/01A.sst" (bucket (snd (Close w3)))
              = Some "a=1;b!;c=3;"
          | _ => False
          end
      | _ => False
      end
  | _ => False
  end.
Proof. vm_compute. repeat split. Qed.

(** ** The WAL flush, further *)

Section FlushMore.

Import types table state flush.

Context {B : Type} `{Bucket B} {Bld : Type} `{SSTBuilder Bld}.

Lemma table_at_with_table (st : DBState) (a b : nat) (t : KVTable) :
  table_at (with_table st a t) b = if decide (b = a) then t else table_at st b.
Proof.
  unfold table_at, with_table. simpl. destruct (decide (b = a)) as [->|Hne].
  - by rewrite lookup_insert_eq.
  - by rewrite lookup_insert_ne.
Qed.

(** The statements after a successful [flushImmWAL] touch one table, the
    one of the ImmutableWAL, and only its durability signal. *)
Lemma flushImmWALs_rest_tables (w : ImmutableWAL) (db : DB B) (a : nat) :
  table_at (state_ (flushImmWALs_rest w db)) a
  = if decide (a = iw_table w) then NotifyWALFlushed (table_at (state_ db) a)
    else table_at (state_ db) a.
Proof.
  unfold flushImmWALs_rest, maybeFreezeMemtable. simpl.
  destruct (_ <? _)%N; simpl; unfold notify; rewrite table_at_with_table;
    destruct (decide (a = iw_table w)) as [->|_]; reflexivity.
Qed.

Lemma flushImmWALs_rest_frame (w : ImmutableWAL) (db : DB B) :
  wal (state_ (flushImmWALs_rest w db)) = wal (state_ db) /\
  core (state_ (flushImmWALs_rest w db)) = core (state_ db).
Proof.
  unfold flushImmWALs_rest, maybeFreezeMemtable. simpl.
  destruct (_ <? _)%N; done.
Qed.

Lemma flushImmWALs_rounds_state (n : nat) (ctx : Context) (db : DB B) :
  length (immWALs (state_ db)) <= n ->
  let q := immWALs (state_ db) in
  let r := flushImmWALs_rounds n ctx db in
  exists k, k <= length q /\
    immWALs (state_ (snd r)) = drop k q /\
    (fst r = None <-> k = length q) /\
    (forall a, rows (table_at (state_ (snd r)) a) = rows (table_at (state_ db) a)) /\
    (forall a, durable (table_at (state_ (snd r)) a) = true <->
               durable (table_at (state_ db) a) = true \/
               a ∈ List.map iw_table (take k q)) /\
    wal (state_ (snd r)) = wal (state_ db) /\
    core (state_ (snd r)) = core (state_ db).
Proof.
  revert db. induction n as [|n IH]; intros db Hlen; cbv zeta.
  - destruct (immWALs (state_ db)) as [|w rest] eqn:Hq; [|simpl in Hlen; lia].
    exists 0. simpl. unfold OldestImmWAL. rewrite Hq. simpl.
    split; [lia|]. split; [done|]. split; [by split|]. split; [done|].
    split; [|done]. intros a. split; [by left|].
    intros [?|Hin]; [done|]. by apply elem_of_nil in Hin.
  - simpl flushImmWALs_rounds. unfold OldestImmWAL.
    destruct (immWALs (state_ db)) as [|w rest] eqn:Hq; simpl.
    + exists 0. simpl. rewrite ?Hq.
      split; [lia|]. split; [done|]. split; [by split|]. split; [done|].
      split; [|done]. intros a. split; [by left|].
      intros [?|Hin]; [done|]. by apply elem_of_nil in Hin.
    + destruct (flushImmWAL ctx w db) as [[h|err] ts'] eqn:Hw; simpl.
      * set (db1 := record (StepWriteSST (iw_id w)) (with_tableStore db ts')).
        assert (Hq1 : immWALs (state_ db1) = w :: rest) by exact Hq.
        pose proof (flushImmWALs_rest_queue w db1) as Hq2.
        rewrite Hq1 in Hq2. change (tail (w :: rest)) with rest in Hq2.
        pose proof (flushImmWALs_rest_frame w db1) as [Hwal Hcore].
        destruct (IH (flushImmWALs_rest w db1))
          as (k & Hk & Hrem & Hnone & Hrows & Hdur & Hwal' & Hcore').
        { rewrite Hq2. simpl in Hlen. lia. }
        rewrite Hq2 in Hk, Hrem, Hnone, Hdur.
        exists (S k). simpl.
        split; [lia|]. split; [exact Hrem|]. split; [|split; [|split; [|split]]].
        -- rewrite Hnone. lia.
        -- intros a. rewrite Hrows, flushImmWALs_rest_tables.
           by destruct (decide (a = iw_table w)).
        -- intros a. rewrite Hdur, flushImmWALs_rest_tables, elem_of_cons.
           destruct (decide (a = iw_table w)) as [->|Hne]; simpl.
           ++ split; [intros _; right; by left|intros _; by left].
           ++ split; [intros [?|?]; [by left|right; by right]
                     |intros [?|[?|?]]; [by left|done|by right]].
        -- by rewrite Hwal', Hwal.
        -- by rewrite Hcore', Hcore.
      * exists 0. simpl. rewrite Hq. simpl.
        split; [lia|]. split; [done|]. split; [split; [done|lia]|].
        split; [done|]. split; [|done].
        intros a. split; [by left|]. intros [?|Hin]; [done|]. by apply elem_of_nil in Hin.
Qed.

End FlushMore.

(** X14.  [flushImmWALs] signals durability for exactly the tables of the
    ImmutableWALs it has removed from the queue, which are the oldest ones:
    the queue left is the one it started from without its first [k]
    entries, a table is signalled afterwards when it was before or belongs
    to one of those [k], and no row of any table changes.  It returns nil
    exactly when it has removed them all; the live WAL and the core state
    are left as they were. *)
Theorem flushImmWALs_signals_flushed_only {B : Type} `{Bucket B}
    {Bld : Type} `{SSTBuilder Bld} (ctx : Context) (db : flush.DB B) :
  let q := state.immWALs (flush.state_ db) in
  let r := flush.flushImmWALs ctx db in
  exists k, k <= length q /\
    state.immWALs (flush.state_ (snd r)) = drop k q /\
    (fst r = None <-> k = length q) /\
    (forall a, table.rows (state.table_at (flush.state_ (snd r)) a)
               = table.rows (state.table_at (flush.state_ db) a)) /\
    (forall a, table.durable (state.table_at (flush.state_ (snd r)) a) = true <->
               table.durable (state.table_at (flush.state_ db) a) = true \/
               a ∈ List.map table.iw_table (take k q)) /\
    state.wal (flush.state_ (snd r)) = state.wal (flush.state_ db) /\
    state.core (flush.state_ (snd r)) = state.core (flush.state_ db).
Proof.
  intros q r. apply (flushImmWALs_rounds_state _ ctx db). reflexivity.
Qed.

Section ReplayFacts.

Import types table state flush.

Lemma rows_put_find (e : RowEntry) (l : list RowEntry) (k : bytes) :
  List.find (fun x => String.eqb (Key x) k) (rows_put e l)
  = if String.eqb (Key e) k then Some e
    else List.find (fun x => String.eqb (Key x) k) l.
Proof.
  induction l as [|x l IH]; simpl.
  - by destruct (String.eqb (Key e) k).
  - destruct (String.compare (Key e) (Key x)) eqn:Hc; simpl.
    + apply String.compare_eq_iff in Hc. rewrite <- Hc.
      by destruct (String.eqb (Key e) k).
    + reflexivity.
    + rewrite IH. destruct (String.eqb_spec (Key x) k) as [Hx|_]; [|done].
      destruct (String.eqb_spec (Key e) k) as [He|_]; [|done].
      rewrite He, <- Hx, string_compare_refl in Hc. done.
Qed.

Lemma KVTable_get_putEntry (e : RowEntry) (t : KVTable) (k : bytes) :
  KVTable_get k (KVTable_putEntry e t)
  = if String.eqb (Key e) k then Some (RowValue e) else KVTable_get k t.
Proof.
  unfold KVTable_get, KVTable_putEntry. simpl. rewrite rows_put_find.
  by destruct (String.eqb (Key e) k).
Qed.

(** Putting entries one after the other: a key reads as the last entry put
    for it, or as before when none was. *)
Lemma Memtable_Put_fold (l : list RowEntry) (m : Memtable) (k : bytes) :
  let m' := fold_left (fun m e => Memtable_Put e m) l m in
  KVTable_get k (mem_table m')
  = match List.find (fun e => String.eqb (Key e) k) (rev l) with
    | Some e => Some (RowValue e)
    | None => KVTable_get k (mem_table m)
    end /\
  lastWalID m' = lastWalID m /\
  durable (mem_table m') = durable (mem_table m).
Proof.
  induction l as [|e l IH] using rev_ind; [done|].
  cbv zeta in *. rewrite fold_left_app, rev_app_distr. simpl.
  destruct IH as (Hget & Hid & Hdur).
  rewrite KVTable_get_putEntry, Hget, Hid, Hdur.
  by destruct (String.eqb (Key e) k).
Qed.

End ReplayFacts.

(** X15.  [flushImmWALToMemtable] replays the ImmutableWAL into the
    memtable entry by entry: afterwards a key the WAL holds reads from the
    memtable as the WAL's last entry for it, tombstones included and with
    the kind it had in the WAL, every other key reads as before, and the
    memtable carries the id of the WAL as its last WAL id. *)
Theorem flushImmWALToMemtable_replays (st : state.DBState) (immWal : table.ImmutableWAL)
    (memtable : table.Memtable) (k : bytes) :
  let memtable' := flush.flushImmWALToMemtable st immWal memtable in
  let entries := table.rows (state.table_at st (table.iw_table immWal)) in
  table.KVTable_get k (table.mem_table memtable')
  = match List.find (fun e => String.eqb (types.Key e) k) (rev entries) with
    | Some e => Some (types.RowValue e)
    | None => table.KVTable_get k (table.mem_table memtable)
    end /\
  table.lastWalID memtable' = Some (table.iw_id immWal) /\
  table.durable (table.mem_table memtable') = table.durable (table.mem_table memtable).
Proof.
  intros memtable' entries. subst memtable' entries.
  unfold flush.flushImmWALToMemtable, flush.ImmutableWAL_Iter, table.KVTable_iter.
  rewrite flushImmWALToMemtable_loop_fold. simpl.
  destruct (Memtable_Put_fold (table.rows (state.table_at st (table.iw_table immWal)))
              memtable k) as (Hget & _ & Hdur).
  done.
Qed.

Section FlushWALFacts.

Import types table state flush.

Context {B : Type} `{Bucket B} {Bld : Type} `{SSTBuilder Bld}.

Lemma FreezeWAL_live_empty (st : DBState) :
  rows (table_at (FreezeWAL st) (wal_table (wal (FreezeWAL st)))) = [].
Proof.
  unfold FreezeWAL, KVTable_isEmpty.
  destruct (rows (table_at st (wal_table (wal st)))) as [|e l] eqn:Hr; [done|].
  unfold table_at. simpl. by rewrite lookup_insert_eq.
Qed.

Lemma FreezeWAL_rows (st : DBState) (a : nat) :
  a <> next_addr st ->
  rows (table_at (FreezeWAL st) a) = rows (table_at st a).
Proof.
  intros Ha. unfold FreezeWAL. destruct (KVTable_isEmpty _); [done|].
  unfold table_at. simpl. by rewrite lookup_insert_ne.
Qed.

End FlushWALFacts.

(** X16.  After [FlushWAL] the live WAL is empty, whether the flush failed
    or not; [FlushWAL] returns nil exactly when no ImmutableWAL is left in
    the queue; and the rows of the tables that were there before the call
    are unchanged. *)
Theorem FlushWAL_empties_live_WAL {B : Type} `{Bucket B} {Bld : Type} `{SSTBuilder Bld}
    (ctx : Context) (db : flush.DB B) :
  let r := flush.FlushWAL ctx db in
  let st' := flush.state_ (snd r) in
  table.KVTable_isEmpty (state.table_at st' (table.wal_table (state.wal st'))) = true /\
  (fst r = None <-> state.immWALs st' = []) /\
  (forall a, a <> state.next_addr (flush.state_ db) ->
     table.rows (state.table_at st' a)
     = table.rows (state.table_at (flush.state_ db) a)).
Proof.
  intros r st'. subst r st'. unfold flush.FlushWAL, flush.flushImmWALs.
  set (db0 := flush.record flush.StepFreezeWAL
                (flush.with_state db (state.FreezeWAL (flush.state_ db)))).
  destruct (flushImmWALs_rounds_state (length (state.immWALs (flush.state_ db0))) ctx db0)
    as (k & Hk & Hrem & Hnone & Hrows & _ & Hwal & _); [done|].
  split; [|split].
  - unfold table.KVTable_isEmpty. rewrite Hrows, Hwal.
    change (flush.state_ db0) with (state.FreezeWAL (flush.state_ db)).
    by rewrite FreezeWAL_live_empty.
  - rewrite Hnone, Hrem. split.
    + intros ->. by apply drop_all.
    + intros Hnil. apply (f_equal length) in Hnil.
      rewrite length_drop in Hnil. change (length []) with 0 in Hnil. lia.
  - intros a Ha. rewrite Hrows.
    change (flush.state_ db0) with (state.FreezeWAL (flush.state_ db)).
    by apply FreezeWAL_rows.
Qed.

Section FlushWALReplay.

Import types table state flush.

Context {B : Type} `{Bucket B} {Bld : Type} `{SSTBuilder Bld}.

Lemma flushImmWALToMemtable_table (st st' : DBState) (w : ImmutableWAL) (m : Memtable) :
  table_at st (iw_table w) = table_at st' (iw_table w) ->
  flushImmWALToMemtable st w m = flushImmWALToMemtable st' w m.
Proof. unfold flushImmWALToMemtable, ImmutableWAL_Iter. by intros ->. Qed.

(** The loop of [flushImmWALs] on a queue of one. *)
Lemma flushImmWALs_rounds_one (ctx : Context) (db : DB B) (w : ImmutableWAL) :
  immWALs (state_ db) = [w] ->
  flushImmWALs_rounds 1 ctx db
  = match flushImmWAL ctx w db with
    | (Err err, ts') =>
        (Some err, record (StepWriteSSTFailed (iw_id w)) (with_tableStore db ts'))
    | (Ok _, ts') =>
        (None, flushImmWALs_rest w
                 (record (StepWriteSST (iw_id w)) (with_tableStore db ts')))
    end.
Proof.
  intros Hq. cbn [flushImmWALs_rounds]. unfold OldestImmWAL at 1. rewrite Hq.
  cbn [head]. destruct (flushImmWAL ctx w db) as [[h|err] ts']; [|done].
  set (db1 := record (StepWriteSST (iw_id w)) (with_tableStore db ts')).
  pose proof (flushImmWALs_rest_queue w db1) as Hq1.
  assert (Hdb1 : immWALs (state_ db1) = [w]) by exact Hq.
  rewrite Hdb1 in Hq1. unfold OldestImmWAL. by rewrite Hq1.
Qed.

End FlushWALReplay.

(** X20.  [FlushWAL] hands the live WAL over to the memtable: called with
    no ImmutableWAL queued and a live WAL that holds entries, when it
    returns nil the queue is empty again, the table of the frozen WAL is
    signalled durable, the next WAL id has advanced by one, and the
    memtable is the old one with the entries of that WAL replayed and its
    id recorded, or, when that memtable has reached [L0SSTSizeBytes], a
    fresh one, the replayed memtable then being the last of the immutable
    memtables with that id. *)
Theorem FlushWAL_replays_live_WAL {B : Type} `{Bucket B} {Bld : Type} `{SSTBuilder Bld}
    (ctx : Context) (db : flush.DB B) :
  let st := flush.state_ db in
  let r := flush.FlushWAL ctx db in
  let st' := flush.state_ (snd r) in
  let id := state.NextWalSstID (state.core st) in
  let replayed := flush.flushImmWALToMemtable st (table.NewImmutableWal id (state.wal st))
                    (state.memtable st) in
  state.immWALs st = [] ->
  table.wal_table (state.wal st) < state.next_addr st ->
  table.KVTable_isEmpty (state.table_at st (table.wal_table (state.wal st))) = false ->
  fst r = None ->
  (if (table.KVTable_size (table.mem_table replayed) <? flush.L0SSTSizeBytes (flush.opts db))%N
   then state.memtable st' = replayed /\ state.immMemtables st' = state.immMemtables st
   else state.memtable st' = table.NewMemtable /\
        state.immMemtables st'
        = state.immMemtables st ++ [table.mkImmutableMemtable (table.mem_table replayed) id]) /\
  state.immWALs st' = [] /\
  table.durable (state.table_at st' (table.wal_table (state.wal st))) = true /\
  state.NextWalSstID (state.core st') = state.u64_succ id.
Proof.
  intros st r st' id replayed Hq Haddr Hlive Hnil.
  set (w := table.NewImmutableWal id (state.wal st)) in *.
  set (db0 := flush.record flush.StepFreezeWAL
                (flush.with_state db (state.FreezeWAL st))).
  assert (Hst0 : flush.state_ db0
                 = state.mkDBState (<[state.next_addr st := table.newKVTable]> (state.tables st))
                     (S (state.next_addr st)) (table.mkWAL (state.next_addr st)) [w]
                     (state.memtable st) (state.immMemtables st)
                     (state.with_NextWalSstID (state.core st) (state.u64_succ id))).
  { subst db0. simpl. unfold state.FreezeWAL. fold st. rewrite Hlive, Hq. reflexivity. }
  assert (Hr : r = flush.flushImmWALs_rounds 1 ctx db0).
  { subst r. unfold flush.FlushWAL, flush.flushImmWALs. fold st. fold db0.
    by rewrite Hst0. }
  rewrite (flushImmWALs_rounds_one ctx db0 w) in Hr by (by rewrite Hst0).
  destruct (flush.flushImmWAL ctx w db0) as [[h|err] ts'].
  2:{ rewrite Hr in Hnil. done. }
  subst st'. rewrite Hr. cbn [snd].
  set (db1 := flush.record (flush.StepWriteSST (table.iw_id w)) (flush.with_tableStore db0 ts')).
  assert (Hst1 : flush.state_ db1 = flush.state_ db0) by reflexivity.
  assert (Hopts : flush.opts db1 = flush.opts db) by reflexivity.
  assert (Hreplay : flush.flushImmWALToMemtable (state.PopImmWAL (flush.state_ db1)) w
                      (state.memtable (flush.state_ db1)) = replayed).
  { subst replayed. rewrite Hst1, Hst0. cbn [state.memtable].
    apply flushImmWALToMemtable_table. unfold state.table_at. simpl.
    rewrite lookup_insert_ne by lia. reflexivity. }
  unfold flush.flushImmWALs_rest. cbn [flush.state_ flush.with_state flush.record flush.opts].
  cbn [state.with_memtable state.memtable state.PopImmWAL] in *.
  rewrite Hreplay, Hopts. unfold state.maybeFreezeMemtable.
  cbn [state.with_memtable state.memtable].
  assert (Hdur : forall st1, table.durable
                   (state.table_at (flush.notify w st1)
                      (table.wal_table (state.wal st))) = true).
  { intros st1. unfold flush.notify. rewrite table_at_with_table.
    by destruct (decide _). }
  destruct (table.KVTable_size (table.mem_table replayed)
            <? flush.L0SSTSizeBytes (flush.opts db))%N;
    (split; [|split; [|split; [apply Hdur|]]]);
    unfold flush.notify, state.with_table, state.PopImmWAL; rewrite Hst1, Hst0;
    done.
Qed.

Lemma FlushWAL_replays_live_WAL_witness :
  let st := flush.state_ one_put_db in
  let st' := flush.state_ (snd (flush.FlushWAL Background one_put_db)) in
  let id := state.NextWalSstID (state.core st) in
  let replayed := flush.flushImmWALToMemtable st (table.NewImmutableWal id (state.wal st))
                    (state.memtable st) in
  (if (table.KVTable_size (table.mem_table replayed)
       <? flush.L0SSTSizeBytes (flush.opts one_put_db))%N
   then state.memtable st' = replayed /\ state.immMemtables st' = state.immMemtables st
   else state.memtable st' = table.NewMemtable /\
        state.immMemtables st'
        = state.immMemtables st ++ [table.mkImmutableMemtable (table.mem_table replayed) id]) /\
  state.immWALs st' = [] /\
  table.durable (state.table_at st' (table.wal_table (state.wal st))) = true /\
  state.NextWalSstID (state.core st') = state.u64_succ id.
Proof.
  apply (FlushWAL_replays_live_WAL Background one_put_db).
  - reflexivity.
  - simpl. lia.
  - reflexivity.
  - vm_compute. reflexivity.
Defined.
